(** * Roommate matching: branch and bound against exhaustive enumeration

    A shallow embedding of the Numba kernels of the repository
    ([compute_upper_bound], [search], [branch_and_bound_numba],
    [get_bit_length], [exhaustive_search_njit], [exhaustive_search_wrapper])
    and of the two Python drivers that build their input from a data frame
    ([solve_roommate_exhaustive], [solve_roommate_matching_improved]), and
    the properties of the maximum-weight perfect matching they compute.

    Modelling conventions.
    - [np.int64] values are integers of [Z]; an operation that can leave the
      signed 64-bit range ([<<], unary and binary [-], the [+= 1] of the
      allocation counter) is followed by [Int64.wrap], the reduction modulo
      2^64 into [-2^63, 2^63).  A shift reads its count modulo 64, as the
      compiled shift does: [1 << 64] is [1].
    - Student indices and [n] are natural numbers; they enter the bit
      operations through [Z.of_nat].
    - [float64] scores are embedded twice.  In the kernels at top level
      they are exact rationals ([Q]), [-1e9] being the rational
      [-1000000000], and comparisons the decidable order of [Q]: sums do not
      round.  These kernels carry the properties that rounding cannot
      change: the states visited, the shape of the pairing, the counters,
      the outcomes without error.  In [Module Binary64] the same kernels run
      on IEEE 754 binary64 numbers, every [+], [/] and comparison being the
      one of the format; they settle what depends on the rounded sums.
    - The one-element arrays [best_score], [allocations] and the typed lists
      [best_pairs], [current_pairs] are the fields of the record [tracker],
      threaded through the calls; [memo] is a finite map threaded with it.
    - Recursion and [while] loops carry a fuel argument; running out of fuel
      is the outcome [OutOfFuel], and the totality lemmas show that the fuel
      the entry points pass is never exhausted on the inputs considered.
    - [np.argsort] belongs to NumPy, not to the repository: it is a
      parameter of the search, and the properties that depend on it assume
      that it returns a permutation of the positions of its argument;
      [insertion_argsort], a stable insertion sort of the positions, is an
      instance. *)

From Stdlib Require Import Floats.
From stdpp Require Import gmap strings.
From Stdlib Require Import ZArith QArith Lqa List Permutation Sorted Lia Bool.
Import ListNotations.
Local Open Scope Z_scope.

(** ** Signed 64-bit arithmetic *)

Module Int64.
Definition modulus : Z := 2 ^ 64.
Definition half_modulus : Z := 2 ^ 63.

(** Two's-complement reduction into [-2^63, 2^63). *)
Definition wrap (x : Z) : Z := (x + half_modulus) mod modulus - half_modulus.

Definition in_range (x : Z) : Prop := - half_modulus <= x < half_modulus.

(** [a << b]: the compiled shift reads the low six bits of its count, so
    that [1 << 64] is [1]. *)
Definition shl (a b : Z) : Z := wrap (Z.shiftl a (b mod 64)).
Definition sub (a b : Z) : Z := wrap (a - b).
Definition neg (a : Z) : Z := wrap (- a).
End Int64.

(** ** Outcomes of a call *)

Inductive exn : Type := InvalidInputError.

Inductive res (A : Type) : Type :=
| Ok (a : A)
| Raise (e : exn)
| OutOfFuel.
Arguments Ok {A} a.
Arguments Raise {A} e.
Arguments OutOfFuel {A}.

Definition bind {A B : Type} (r : res A) (k : A -> res B) : res B :=
  match r with
  | Ok a => k a
  | Raise e => Raise e
  | OutOfFuel => OutOfFuel
  end.

Notation "x <- r ;; k" := (bind r (fun x => k))
  (at level 100, r at next level, right associativity).

(** [for j in l: body(j)] over a threaded state. *)
Fixpoint for_each {A S : Type} (l : list A) (body : A -> S -> res S) (s : S) : res S :=
  match l with
  | [] => Ok s
  | x :: l' => s' <- body x s ;; for_each l' body s'
  end.

(** ** Data *)

(** [comp[i, j]]. *)
Definition matrix : Type := nat -> nat -> Q.

Definition pair_type : Type := (nat * nat)%type.

Record tracker : Type := mkTracker {
  best_score : Q;
  best_pairs : list pair_type;
  current_pairs : list pair_type;
  allocations : Z
}.

(** [1 << i] *)
Definition bit (i : nat) : Z := Int64.shl 1 (Z.of_nat i).

(** The truth value of [mask & (1 << i)]. *)
Definition has (mask : Z) (i : nat) : bool := negb (Z.land mask (bit i) =? 0).

(** [mask & ~(1 << i)] *)
Definition clear (mask : Z) (i : nat) : Z := Z.land mask (Z.lnot (bit i)).

(** [typed_list.pop()] *)
Definition pop {A : Type} (l : list A) : list A := removelast l.

(** [clear_typed_list]: [len(typed_list)] pops. *)
Definition clear_typed_list {A : Type} (typed_list : list A) : list A :=
  fold_left (fun l _ => pop l) (seq 0 (length typed_list)) typed_list.

(** [while len(best_pairs) > 0: best_pairs.pop()], with [k] the number of
    iterations left. *)
Fixpoint pop_while_nonempty {A : Type} (k : nat) (l : list A) : list A :=
  match k with
  | O => l
  | S k' =>
      match l with
      | [] => l
      | _ :: _ => pop_while_nonempty k' (pop l)
      end
  end.

(** [for idx in range(len(current_pairs)): best_pairs.append(current_pairs[idx])] *)
Definition append_all (best_pairs current_pairs : list pair_type) : list pair_type :=
  fold_left (fun bp idx => bp ++ [nth idx current_pairs (0%nat, 0%nat)])
    (seq 0 (length current_pairs)) best_pairs.

(** The body of [if current_score > best_score[0]] in the base case of
    [search]. *)
Definition record_best (current_score : Q) (st : tracker) : tracker :=
  mkTracker current_score
    (append_all (clear_typed_list (best_pairs st)) (current_pairs st))
    (current_pairs st) (allocations st).

Definition base_case (current_score : Q) (st : tracker) : tracker :=
  if Qlt_le_dec (best_score st) current_score then record_best current_score st else st.

(** The same in [exhaustive_search_njit], which empties [best_pairs] with a
    [while] loop. *)
Definition record_best_exhaustive (current_score : Q) (st : tracker) : tracker :=
  mkTracker current_score
    (append_all (pop_while_nonempty (length (best_pairs st)) (best_pairs st))
       (current_pairs st))
    (current_pairs st) (allocations st).

Definition base_case_exhaustive (current_score : Q) (st : tracker) : tracker :=
  if Qlt_le_dec (best_score st) current_score
  then record_best_exhaustive current_score st else st.

Definition push_pair (p : pair_type) (st : tracker) : tracker :=
  mkTracker (best_score st) (best_pairs st) (current_pairs st ++ [p]) (allocations st).

Definition pop_pair (st : tracker) : tracker :=
  mkTracker (best_score st) (best_pairs st) (pop (current_pairs st)) (allocations st).

(** [allocations[0] += 1] on an [int64] array. *)
Definition count_allocation (st : tracker) : tracker :=
  mkTracker (best_score st) (best_pairs st) (current_pairs st)
    (Int64.wrap (allocations st + 1)).

(** [-1e9] *)
Definition sentinel : Q := (- 1000000000 # 1)%Q.

Definition initial_tracker : tracker := mkTracker sentinel [] [] 0.

(** [np.int64((1 << n) - 1)] *)
Definition full_mask (n : nat) : Z :=
  Int64.wrap (Int64.sub (Int64.shl 1 (Z.of_nat n)) 1).

(** ** Bound oracle *)

(** One iteration of the inner loop of [compute_upper_bound], and the loop:
    the largest [comp[i, j]] over the other students of [mask], floored at
    [0.0]. *)
Definition best_val_step (mask : Z) (comp : matrix) (i : nat) (best_val : Q) (j : nat) : Q :=
  if has mask j && negb (Nat.eqb i j)
  then if Qlt_le_dec best_val (comp i j) then comp i j else best_val
  else best_val.

Definition best_val_of (mask : Z) (comp : matrix) (n i : nat) : Q :=
  fold_left (best_val_step mask comp i) (seq 0 n) 0%Q.

Definition compute_upper_bound (mask : Z) (comp : matrix) (n : nat) : Q :=
  (fold_left
     (fun additional i =>
        if has mask i then (additional + best_val_of mask comp n i)%Q else additional)
     (seq 0 n) 0%Q / 2)%Q.

(** ** Exhaustive oracle *)

Fixpoint get_bit_length_loop (fuel : nat) (x length : Z) : res Z :=
  match fuel with
  | O => OutOfFuel
  | S fuel' =>
      if x =? 0 then Ok length
      else get_bit_length_loop fuel' (Z.shiftr x 1) (length + 1)
  end.

(** A non-negative [int64] has at most 63 significant bits; on a negative one
    the arithmetic shift never reaches zero and the loop does not end. *)
Definition get_bit_length (x : Z) : res Z := get_bit_length_loop 65 x 0.

(** [get_bit_length(m & -m) - 1] *)
Definition lowest_student (m : Z) : res nat :=
  bl <- get_bit_length (Z.land m (Int64.neg m)) ;; Ok (Z.to_nat (bl - 1)).

(** [while candidate: j = lowest bit; candidate &= ~(1 << j); body(j)] *)
Fixpoint while_candidate {S : Type} (fuel : nat) (candidate : Z)
    (body : nat -> S -> res S) (s : S) : res S :=
  match fuel with
  | O => OutOfFuel
  | S fuel' =>
      if candidate =? 0 then Ok s
      else
        j <- lowest_student candidate ;;
        let candidate' := clear candidate j in
        s' <- body j s ;;
        while_candidate fuel' candidate' body s'
  end.

Fixpoint exhaustive_search_njit (fuel : nat) (mask : Z) (current_score : Q)
    (comp : matrix) (n : nat) (st : tracker) : res tracker :=
  match fuel with
  | O => OutOfFuel
  | S fuel' =>
      if mask =? 0 then Ok (base_case_exhaustive current_score st)
      else
        i <- lowest_student mask ;;
        let new_mask := clear mask i in
        while_candidate 65 new_mask
          (fun j st =>
             let st := count_allocation st in
             let next_mask := clear new_mask j in
             let st := push_pair (i, j) st in
             st <- exhaustive_search_njit fuel' next_mask
                     (current_score + comp i j)%Q comp n st ;;
             Ok (pop_pair st))
          st
  end.

Definition exhaustive_search_wrapper (comp : matrix) (n : nat)
  : res (Q * list pair_type * Z) :=
  st <- exhaustive_search_njit (S n) (full_mask n) 0%Q comp n initial_tracker ;;
  Ok (best_score st, best_pairs st, allocations st).

(** ** Branch and bound *)

(** [i = 0; while i < n: if mask & (1 << i): break; i += 1], with [k] the
    number of iterations left. *)
Fixpoint first_unmatched_loop (k : nat) (mask : Z) (i : nat) : nat :=
  match k with
  | O => i
  | S k' => if has mask i then i else first_unmatched_loop k' mask (i + 1)
  end.

Definition first_unmatched (mask : Z) (n : nat) : nat := first_unmatched_loop n mask 0.

(** [candidate_arr[:candidate_count]] *)
Definition candidate_arr (new_mask : Z) (n : nat) : list nat :=
  filter (has new_mask) (seq 0 n).

Section Search.

(** [np.argsort] on a one-dimensional array of scores. *)
Variable argsort : list Q -> list nat.

(** [order[k] = order_temp[m - 1 - k]] followed by [candidate_arr[order]]. *)
Definition sorted_candidates (comp : matrix) (n i : nat) (new_mask : Z) : list nat :=
  let cands := candidate_arr new_mask n in
  let order_temp := argsort (map (comp i) cands) in
  let m := length order_temp in
  let order := map (fun k => nth (m - 1 - k) order_temp 0%nat) (seq 0 m) in
  map (fun k => nth k cands 0%nat) order.

Fixpoint search (fuel : nat) (mask : Z) (current_score : Q) (comp : matrix) (n : nat)
    (s : tracker * gmap Z Q) : res (tracker * gmap Z Q) :=
  match fuel with
  | O => OutOfFuel
  | S fuel' =>
      let '(st, memo) := s in
      if mask =? 0 then Ok (base_case current_score st, memo)
      else
        let expand (memo : gmap Z Q) :=
          let i := first_unmatched mask n in
          let new_mask := clear mask i in
          for_each (sorted_candidates comp n i new_mask)
            (fun j '(st, memo) =>
               let pair_score := comp i j in
               let next_mask := clear new_mask j in
               let st := push_pair (i, j) st in
               let st := count_allocation st in
               s' <- search fuel' next_mask
                       (current_score + pair_score)%Q comp n (st, memo) ;;
               Ok (pop_pair (fst s'), snd s'))
            (st, memo) in
        match memo !! mask with
        | Some ub_val =>
            if Qle_bool (current_score + ub_val) (best_score st) then Ok (st, memo)
            else expand memo
        | None =>
            let ub_val := compute_upper_bound mask comp n in
            let memo := <[mask := ub_val]> memo in
            if Qle_bool (current_score + ub_val) (best_score st) then Ok (st, memo)
            else expand memo
        end
  end.

Definition branch_and_bound_numba (comp : matrix) (n : nat)
  : res (Q * list pair_type * Z) :=
  s <- search (S n) (full_mask n) 0%Q comp n (initial_tracker, ∅) ;;
  let st := fst s in
  Ok (best_score st, best_pairs st, allocations st).

End Search.

(** An instance of [np.argsort]: stable insertion of the positions. *)
Fixpoint insert_position (a : list Q) (k : nat) (sorted : list nat) : list nat :=
  match sorted with
  | [] => [k]
  | h :: t =>
      if Qlt_le_dec (nth k a 0%Q) (nth h a 0%Q) then k :: h :: t
      else h :: insert_position a k t
  end.

Definition insertion_argsort (a : list Q) : list nat :=
  fold_left (fun sorted k => insert_position a k sorted) (seq 0 (length a)) [].

(** ** The kernels in binary64 arithmetic

    The same kernels with the scores as IEEE 754 binary64 numbers: every
    [+], [/] and comparison of scores is the one of the format, rounding
    included.  The masks, the typed lists and the counter are the ones
    above. *)

Module Binary64.

Definition matrix : Type := nat -> nat -> float.

Record tracker : Type := mkTracker {
  best_score : float;
  best_pairs : list pair_type;
  current_pairs : list pair_type;
  allocations : Z
}.

Definition record_best (current_score : float) (st : tracker) : tracker :=
  mkTracker current_score
    (append_all (clear_typed_list (best_pairs st)) (current_pairs st))
    (current_pairs st) (allocations st).

(** [if current_score > best_score[0]: ...] *)
Definition base_case (current_score : float) (st : tracker) : tracker :=
  if PrimFloat.ltb (best_score st) current_score
  then record_best current_score st else st.

Definition record_best_exhaustive (current_score : float) (st : tracker) : tracker :=
  mkTracker current_score
    (append_all (pop_while_nonempty (length (best_pairs st)) (best_pairs st))
       (current_pairs st))
    (current_pairs st) (allocations st).

Definition base_case_exhaustive (current_score : float) (st : tracker) : tracker :=
  if PrimFloat.ltb (best_score st) current_score
  then record_best_exhaustive current_score st else st.

Definition push_pair (p : pair_type) (st : tracker) : tracker :=
  mkTracker (best_score st) (best_pairs st) (current_pairs st ++ [p]) (allocations st).

Definition pop_pair (st : tracker) : tracker :=
  mkTracker (best_score st) (best_pairs st) (pop (current_pairs st)) (allocations st).

Definition count_allocation (st : tracker) : tracker :=
  mkTracker (best_score st) (best_pairs st) (current_pairs st)
    (Int64.wrap (allocations st + 1)).

(** [-1e9] *)
Definition sentinel : float := (-1000000000)%float.

Definition initial_tracker : tracker := mkTracker sentinel [] [] 0.

(** [if (mask & (1 << j)) and (i != j): if comp[i, j] > best_val: best_val = comp[i, j]] *)
Definition best_val_step (mask : Z) (comp : matrix) (i : nat) (best_val : float) (j : nat)
  : float :=
  if has mask j && negb (Nat.eqb i j)
  then if PrimFloat.ltb best_val (comp i j) then comp i j else best_val
  else best_val.

Definition best_val_of (mask : Z) (comp : matrix) (n i : nat) : float :=
  fold_left (best_val_step mask comp i) (seq 0 n) 0%float.

Definition compute_upper_bound (mask : Z) (comp : matrix) (n : nat) : float :=
  (fold_left
     (fun additional i =>
        if has mask i then (additional + best_val_of mask comp n i)%float else additional)
     (seq 0 n) 0%float / 2)%float.

Fixpoint exhaustive_search_njit (fuel : nat) (mask : Z) (current_score : float)
    (comp : matrix) (n : nat) (st : tracker) : res tracker :=
  match fuel with
  | O => OutOfFuel
  | S fuel' =>
      if mask =? 0 then Ok (base_case_exhaustive current_score st)
      else
        i <- lowest_student mask ;;
        let new_mask := clear mask i in
        while_candidate 65 new_mask
          (fun j st =>
             let st := count_allocation st in
             let next_mask := clear new_mask j in
             let st := push_pair (i, j) st in
             st <- exhaustive_search_njit fuel' next_mask
                     (current_score + comp i j)%float comp n st ;;
             Ok (pop_pair st))
          st
  end.

Definition exhaustive_search_wrapper (comp : matrix) (n : nat)
  : res (float * list pair_type * Z) :=
  st <- exhaustive_search_njit (S n) (full_mask n) 0%float comp n initial_tracker ;;
  Ok (best_score st, best_pairs st, allocations st).

Section Search.

(** [np.argsort] on a one-dimensional array of scores. *)
Variable argsort : list float -> list nat.

Definition sorted_candidates (comp : matrix) (n i : nat) (new_mask : Z) : list nat :=
  let cands := candidate_arr new_mask n in
  let order_temp := argsort (map (comp i) cands) in
  let m := length order_temp in
  let order := map (fun k => nth (m - 1 - k) order_temp 0%nat) (seq 0 m) in
  map (fun k => nth k cands 0%nat) order.

Fixpoint search (fuel : nat) (mask : Z) (current_score : float) (comp : matrix) (n : nat)
    (s : tracker * gmap Z float) : res (tracker * gmap Z float) :=
  match fuel with
  | O => OutOfFuel
  | S fuel' =>
      let '(st, memo) := s in
      if mask =? 0 then Ok (base_case current_score st, memo)
      else
        let expand (memo : gmap Z float) :=
          let i := first_unmatched mask n in
          let new_mask := clear mask i in
          for_each (sorted_candidates comp n i new_mask)
            (fun j '(st, memo) =>
               let pair_score := comp i j in
               let next_mask := clear new_mask j in
               let st := push_pair (i, j) st in
               let st := count_allocation st in
               s' <- search fuel' next_mask
                       (current_score + pair_score)%float comp n (st, memo) ;;
               Ok (pop_pair (fst s'), snd s'))
            (st, memo) in
        match memo !! mask with
        | Some ub_val =>
            if PrimFloat.leb (current_score + ub_val)%float (best_score st)
            then Ok (st, memo)
            else expand memo
        | None =>
            let ub_val := compute_upper_bound mask comp n in
            let memo := <[mask := ub_val]> memo in
            if PrimFloat.leb (current_score + ub_val)%float (best_score st)
            then Ok (st, memo)
            else expand memo
        end
  end.

Definition branch_and_bound_numba (comp : matrix) (n : nat)
  : res (float * list pair_type * Z) :=
  s <- search (S n) (full_mask n) 0%float comp n (initial_tracker, ∅) ;;
  let st := fst s in
  Ok (best_score st, best_pairs st, allocations st).

End Search.

(** An instance of [np.argsort]: stable insertion of the positions. *)
Fixpoint insert_position (a : list float) (k : nat) (sorted : list nat) : list nat :=
  match sorted with
  | [] => [k]
  | h :: t =>
      if PrimFloat.ltb (nth k a 0%float) (nth h a 0%float) then k :: h :: t
      else h :: insert_position a k t
  end.

Definition insertion_argsort (a : list float) : list nat :=
  fold_left (fun sorted k => insert_position a k sorted) (seq 0 (length a)) [].

(** The score of a pairing, added pair by pair as [current_score] is. *)
Definition score (comp : matrix) (m : list pair_type) : float :=
  fold_left (fun s p => (s + comp (fst p) (snd p))%float) m 0%float.

End Binary64.

(** ** Inputs used as examples *)

(** Scenario A of the specification: four students, [w(0,1) = w(2,3) = 5],
    every other weight [1]. *)
Definition scenario_A : matrix := fun i j =>
  match i, j with
  | 0, 1 | 1, 0 | 2, 3 | 3, 2 => 5%Q
  | _, _ => 1%Q
  end%nat.

(** Scenario A with other values outside the 4 x 4 array. *)
Definition scenario_A_padded : matrix := fun i j =>
  if ((i <? 4) && (j <? 4))%nat then scenario_A i j else 7%Q.

Definition zero_matrix : matrix := fun _ _ => 0%Q.

(** Every pair scores [-2e9]. *)
Definition very_negative : matrix := fun _ _ => (- 2000000000 # 1)%Q.

(** A symmetric matrix of six students without negative weights, on which
    rounding decides: [w(0,1) = 0.3], [w(0,3) = 0.1], [w(1,5) = 0.2],
    [w(2,4) = 0.4] (the binary64 numbers nearest to these decimals), every
    other weight [0.0]. *)
Definition rounding_matrix : Binary64.matrix := fun i j =>
  match i, j with
  | 0, 1 | 1, 0 => 0x1.3333333333333p-2%float
  | 0, 3 | 3, 0 => 0x1.999999999999ap-4%float
  | 1, 5 | 5, 1 => 0x1.999999999999ap-3%float
  | 2, 4 | 4, 2 => 0x1.999999999999ap-2%float
  | _, _ => 0%float
  end%nat.

(** ** Notions used in the statements *)

(** A mask over [n] students: only bits below [n] may be set. *)
Definition wf_mask (n : nat) (mask : Z) : Prop := 0 <= mask < 2 ^ Z.of_nat n.

(** The students of a mask, in increasing order. *)
Definition members (n : nat) (mask : Z) : list nat := candidate_arr mask n.



(** The positions [idx] list the values of [a] in ascending order. *)
Definition ascending (a : list Q) (idx : list nat) : Prop :=
  Sorted (fun h k => (nth h a 0 <= nth k a 0)%Q) idx.

(** Removing a student from a list of distinct students. *)
Definition without (j : nat) (l : list nat) : list nat :=
  filter (fun k => negb (Nat.eqb k j)) l.

(** The students a pairing mentions, pair by pair. *)
Definition flatten (m : list pair_type) : list nat :=
  flat_map (fun p => [fst p; snd p]) m.

(** [m] pairs every student of [l] exactly once. *)
Definition perfect_matching (l : list nat) (m : list pair_type) : Prop :=
  Permutation (flatten m) l.

(** The pair [p] holds student [i]. *)
Definition mentions (i : nat) (p : pair_type) : bool :=
  Nat.eqb (fst p) i || Nat.eqb (snd p) i.

(** The total score of a pairing. *)
Fixpoint score (comp : matrix) (m : list pair_type) : Q :=
  match m with
  | [] => 0%Q
  | p :: m' => (comp (fst p) (snd p) + score comp m')%Q
  end.

Definition symmetric (n : nat) (comp : matrix) : Prop :=
  forall i j, (i < n)%nat -> (j < n)%nat -> (comp i j == comp j i)%Q.

(** The diagonal is never read and is left free. *)
Definition non_negative (n : nat) (comp : matrix) : Prop :=
  forall i j, (i < n)%nat -> (j < n)%nat -> i <> j -> (0 <= comp i j)%Q.

(** The two arrays hold the same [n] x [n] entries. *)
Definition same_entries (n : nat) (comp comp' : matrix) : Prop :=
  forall i j, (i < n)%nat -> (j < n)%nat -> comp i j = comp' i j.

Definition sumQ (l : list Q) : Q := fold_right Qplus 0%Q l.

Definition Qmax2 (a b : Q) : Q := if Qlt_le_dec a b then b else a.

(** [max(0, max over j in l, j <> i, of weight(i, j))] *)
Definition best_partner_score (comp : matrix) (l : list nat) (i : nat) : Q :=
  fold_right Qmax2 0%Q (map (comp i) (without i l)).

(** The sum over the students of [l] of their best partner scores, halved. *)
Definition upper_bound_formula (comp : matrix) (l : list nat) : Q :=
  (sumQ (map (best_partner_score comp l) l) / 2)%Q.

(** The number of pairing decisions below a state of [k] students:
    [k - 1] partners for the first student, each followed by a state of
    [k - 2] students. *)
Fixpoint enum_count (k : nat) : Z :=
  match k with
  | S (S k' as k1) => Z.of_nat k1 * (1 + enum_count k')
  | _ => 0
  end.

(** Every cached bound is the value the oracle computes for its state. *)
Definition memo_sound (comp : matrix) (n : nat) (memo : gmap Z Q) : Prop :=
  forall mask v, memo !! mask = Some v -> v = compute_upper_bound mask comp n.

(** [next_mask] at the recursive call of [search], for the partner [j]. *)
Definition child (n : nat) (mask : Z) (j : nat) : Z :=
  clear (clear mask (first_unmatched mask n)) j.


(** [search] with a log of the states it is invoked on, in the order of the
    calls; nothing else differs, and erasing the log gives [search] back
    (lemma [search_log_erase]). *)
Fixpoint search_log (argsort : list Q -> list nat) (fuel : nat) (mask : Z)
    (current_score : Q) (comp : matrix) (n : nat)
    (s : tracker * gmap Z Q * list Z) : res (tracker * gmap Z Q * list Z) :=
  match fuel with
  | O => OutOfFuel
  | S fuel' =>
      let '(st, memo, log) := s in
      let log := log ++ [mask] in
      if mask =? 0 then Ok (base_case current_score st, memo, log)
      else
        let expand (memo : gmap Z Q) :=
          let i := first_unmatched mask n in
          let new_mask := clear mask i in
          for_each (sorted_candidates argsort comp n i new_mask)
            (fun j '(st, memo, log) =>
               let pair_score := comp i j in
               let next_mask := clear new_mask j in
               let st := push_pair (i, j) st in
               let st := count_allocation st in
               s' <- search_log argsort fuel' next_mask
                       (current_score + pair_score)%Q comp n (st, memo, log) ;;
               Ok (pop_pair (fst (fst s')), snd (fst s'), snd s'))
            (st, memo, log) in
        match memo !! mask with
        | Some ub_val =>
            if Qle_bool (current_score + ub_val) (best_score st) then Ok (st, memo, log)
            else expand memo
        | None =>
            let ub_val := compute_upper_bound mask comp n in
            let memo := <[mask := ub_val]> memo in
            if Qle_bool (current_score + ub_val) (best_score st) then Ok (st, memo, log)
            else expand memo
        end
  end.

(** Two outcomes that differ by the log only. *)
Definition erases {S L : Type} (r : res (S * L)) (r' : res S) : Prop :=
  match r, r' with
  | Ok (s, _), Ok s' => s = s'
  | Raise e, Raise e' => e = e'
  | OutOfFuel, OutOfFuel => True
  | _, _ => False
  end.

(** The best score and pairing are the ones the call started with. *)
Definition unchanged (st st' : tracker) : Prop :=
  best_score st' = best_score st /\ best_pairs st' = best_pairs st.

(** The tracker holds the current pairing completed by a perfect matching
    of the remaining students, with its total score. *)
Definition recorded (comp : matrix) (l : list nat) (cur : Q) (st st' : tracker) : Prop :=
  exists m, perfect_matching l m
            /\ best_pairs st' = current_pairs st ++ m
            /\ (best_score st' == cur + score comp m)%Q.

(** The effect of a call on the students [l] with accumulated score [cur];
    [exact] is set for the enumeration without pruning. *)
Record post (comp : matrix) (n : nat) (exact : bool) (l : list nat) (cur : Q)
    (st st' : tracker) : Prop := {
  post_current : current_pairs st' = current_pairs st;
  post_mono : (best_score st <= best_score st')%Q;
  post_best : unchanged st st' \/ recorded comp l cur st st';
  post_alloc :
    exists k, 0 <= k <= enum_count (length l)
              /\ Int64.wrap (allocations st') = Int64.wrap (allocations st + k)
              /\ (exact = true -> k = enum_count (length l));
  post_range :
    Int64.in_range (allocations st) -> Int64.in_range (allocations st');
  post_dom :
    symmetric n comp ->
    forall m, perfect_matching l m -> (cur + score comp m <= best_score st')%Q;
  post_nonneg :
    non_negative n comp -> Nat.even (length l) = true -> (0 <= cur)%Q ->
    (0 <= best_score st')%Q
}.

(** ** The Python drivers

    [solve_roommate_exhaustive] and [solve_roommate_matching_improved] start
    with the same block: the rows of the CSV file give the sorted list of the
    student names, the two dictionaries between names and indices, and the
    compatibility matrix.  The data frame that [pd.read_csv] returns is the
    input; the readings of [time.time()] and of [tracemalloc] are inputs too,
    and what the drivers print is left out. *)

(** A row of the data frame: the columns ["Student 1"], ["Student 2"] and
    ["Compatibility Score"]. *)
Record row : Type := mkRow {
  student_1 : string;
  student_2 : string;
  compatibility_score : Q
}.

(** [set(l)]: the distinct elements of [l]; the order is the one [sorted]
    replaces. *)
Definition py_set (l : list string) : list string := nodup String.string_dec l.

(** [sorted(l)] on strings, by insertion; strings compare character by
    character on their codes. *)
Fixpoint sorted_insert (s : string) (l : list string) : list string :=
  match l with
  | [] => [s]
  | h :: t => if String.leb s h then s :: h :: t else h :: sorted_insert s t
  end.

Definition sorted (l : list string) : list string := fold_right sorted_insert [] l.

(** [sorted(list(set(df['Student 1'].tolist() + df['Student 2'].tolist())))] *)
Definition student_names (df : list row) : list string :=
  sorted (py_set (map student_1 df ++ map student_2 df)).

Definition enumerate {A : Type} (l : list A) : list (nat * A) :=
  combine (seq 0 (length l)) l.

(** [{name: i for i, name in enumerate(student_names)}] *)
Definition student_to_index (names : list string) : gmap string nat :=
  fold_left (fun d p => <[snd p := fst p]> d) (enumerate names) ∅.

(** [{i: name for i, name in enumerate(student_names)}] *)
Definition index_to_student (names : list string) : gmap nat string :=
  fold_left (fun d p => <[fst p := snd p]> d) (enumerate names) ∅.

(** [np.zeros((n, n))] *)
Definition zeros : matrix := fun _ _ => 0%Q.

(** [comp[i, j] = v] *)
Definition set_entry (comp : matrix) (i j : nat) (v : Q) : matrix :=
  fun a b => if (Nat.eqb a i && Nat.eqb b j)%bool then v else comp a b.

(** A dictionary lookup with a missing key. *)
Inductive py_exn : Type := KeyError (key : string + nat).

(** The outcomes of a driver: its return value, a [KeyError], or the outcome
    of the kernel when the kernel does not return. *)
Inductive outcome (A : Type) : Type :=
| Returned (a : A)
| PyRaise (e : py_exn)
| KernelRaise (e : exn)
| KernelOutOfFuel.
Arguments Returned {A} a.
Arguments PyRaise {A} e.
Arguments KernelRaise {A} e.
Arguments KernelOutOfFuel {A}.

(** [for _, row in df.iterrows(): ...], filling the matrix. *)
Fixpoint fill_matrix (to_index : gmap string nat) (df : list row) (comp : matrix)
  : outcome matrix :=
  match df with
  | [] => Returned comp
  | r :: df' =>
      match to_index !! student_1 r with
      | None => PyRaise (KeyError (inl (student_1 r)))
      | Some i =>
          match to_index !! student_2 r with
          | None => PyRaise (KeyError (inl (student_2 r)))
          | Some j =>
              let score := compatibility_score r in
              let comp := set_entry comp i j score in
              let comp := set_entry comp j i score in
              fill_matrix to_index df' comp
          end
      end
  end.

(** The matrix both drivers hand to their kernel. *)
Definition compatibility_matrix (df : list row) : outcome matrix :=
  fill_matrix (student_to_index (student_names df)) df zeros.

(** [[(index_to_student[p[0]], index_to_student[p[1]]) for p in best_pairs]] *)
Fixpoint name_pairs (to_student : gmap nat string) (best_pairs : list pair_type)
  : outcome (list (string * string)) :=
  match best_pairs with
  | [] => Returned []
  | p :: rest =>
      match to_student !! fst p with
      | None => PyRaise (KeyError (inr (fst p)))
      | Some a =>
          match to_student !! snd p with
          | None => PyRaise (KeyError (inr (snd p)))
          | Some b =>
              match name_pairs to_student rest with
              | Returned named => Returned ((a, b) :: named)
              | PyRaise e => PyRaise e
              | KernelRaise e => KernelRaise e
              | KernelOutOfFuel => KernelOutOfFuel
              end
          end
      end
  end.

(** What a driver does with the outcome of its kernel: the run time, the peak
    memory in MiB, the named pairing. *)
Definition report (names : list string) (kernel : res (Q * list pair_type * Z))
    (start_time end_time peak : Q)
  : outcome (list (string * string) * Q * Z * Q * Q) :=
  match kernel with
  | Ok (best, best_pairs, allocs) =>
      let run_time := (end_time - start_time)%Q in
      let peak_memory := (peak / 1000000)%Q in
      match name_pairs (index_to_student names) best_pairs with
      | Returned best_pairing_named =>
          Returned (best_pairing_named, best, allocs, run_time, peak_memory)
      | PyRaise e => PyRaise e
      | KernelRaise e => KernelRaise e
      | KernelOutOfFuel => KernelOutOfFuel
      end
  | Raise e => KernelRaise e
  | OutOfFuel => KernelOutOfFuel
  end.

Definition solve_roommate_exhaustive (df : list row) (start_time end_time peak : Q)
  : outcome (list (string * string) * Q * Z * Q * Q) :=
  let names := student_names df in
  let n := length names in
  match compatibility_matrix df with
  | Returned comp =>
      report names (exhaustive_search_wrapper comp n) start_time end_time peak
  | PyRaise e => PyRaise e
  | KernelRaise e => KernelRaise e
  | KernelOutOfFuel => KernelOutOfFuel
  end.

Definition solve_roommate_matching_improved (argsort : list Q -> list nat)
    (df : list row) (start_time end_time peak : Q)
  : outcome (list (string * string) * Q * Z * Q * Q) :=
  let names := student_names df in
  let n := length names in
  match compatibility_matrix df with
  | Returned comp =>
      report names (branch_and_bound_numba argsort comp n) start_time end_time peak
  | PyRaise e => PyRaise e
  | KernelRaise e => KernelRaise e
  | KernelOutOfFuel => KernelOutOfFuel
  end.

(** ** Notions used in the statements about the drivers *)

(** The rows [r] and [r'] name the same two students, in either order. *)
Definition same_pair (r r' : row) : Prop :=
  (student_1 r' = student_1 r /\ student_2 r' = student_2 r)
  \/ (student_1 r' = student_2 r /\ student_2 r' = student_1 r).

(** The names a named pairing mentions, pair by pair. *)
Definition flatten_names (l : list (string * string)) : list string :=
  flat_map (fun p => [fst p; snd p]) l.

(** A pairing in canonical form: the lower index first in each pair, and the
    pairs in the order of their first students. *)
Definition canonical (l : list pair_type) : Prop :=
  Forall (fun p => (fst p < snd p)%nat) l /\ StronglySorted lt (map fst l).

(** Scenario A as rows of a data frame, under the names Ann, Bob, Cat and
    Dan. *)
Definition example_rows : list row :=
  [ mkRow "Ann" "Bob" 5; mkRow "Cat" "Dan" 5; mkRow "Ann" "Cat" 1;
    mkRow "Ann" "Dan" 1; mkRow "Bob" "Cat" 1; mkRow "Bob" "Dan" 1 ]%string%Q.

(** * Properties *)

Local Open Scope Z_scope.

(** ** Bit masks as sets of students *)

Lemma wrap_small x : Int64.in_range x -> Int64.wrap x = x.
Proof.
  unfold Int64.wrap, Int64.in_range, Int64.modulus, Int64.half_modulus.
  intros H. rewrite Z.mod_small; lia.
Qed.

Lemma wrap_in_range x : Int64.in_range (Int64.wrap x).
Proof.
  unfold Int64.wrap, Int64.in_range, Int64.modulus, Int64.half_modulus.
  pose proof (Z.mod_pos_bound (x + 2 ^ 63) (2 ^ 64) ltac:(lia)). lia.
Qed.

Lemma wrap_add_l x y : Int64.wrap (Int64.wrap x + y) = Int64.wrap (x + y).
Proof.
  unfold Int64.wrap, Int64.modulus, Int64.half_modulus. f_equal.
  replace ((x + 2 ^ 63) mod 2 ^ 64 - 2 ^ 63 + y + 2 ^ 63)
    with ((x + 2 ^ 63) mod 2 ^ 64 + y) by lia.
  rewrite Zplus_mod_idemp_l. f_equal. lia.
Qed.

Lemma wrap_congr x y c :
  Int64.wrap x = Int64.wrap y -> Int64.wrap (x + c) = Int64.wrap (y + c).
Proof. intros H. rewrite <- (wrap_add_l x), <- (wrap_add_l y), H. reflexivity. Qed.

Lemma bit_small i : (i <= 62)%nat -> bit i = 2 ^ Z.of_nat i.
Proof.
  intros Hi. unfold bit, Int64.shl. rewrite Z.mod_small by lia. rewrite Z.shiftl_1_l.
  apply wrap_small. unfold Int64.in_range, Int64.half_modulus.
  assert (0 < 2 ^ Z.of_nat i) by (apply Z.pow_pos_nonneg; lia).
  assert (2 ^ Z.of_nat i <= 2 ^ 62) by (apply Z.pow_le_mono_r; lia).
  lia.
Qed.

Lemma has_testbit mask i : (i <= 62)%nat -> has mask i = Z.testbit mask (Z.of_nat i).
Proof.
  intros Hi. unfold has. rewrite bit_small by assumption.
  destruct (Z.testbit mask (Z.of_nat i)) eqn:E.
  - destruct (Z.eqb_spec (Z.land mask (2 ^ Z.of_nat i)) 0) as [H0|]; [|reflexivity].
    assert (Hb : Z.testbit (Z.land mask (2 ^ Z.of_nat i)) (Z.of_nat i) = true).
    { rewrite Z.land_spec, E, Z.pow2_bits_eqb, Z.eqb_refl by lia. reflexivity. }
    rewrite H0, Z.bits_0 in Hb. discriminate.
  - replace (Z.land mask (2 ^ Z.of_nat i)) with 0; [reflexivity|].
    apply Z.bits_inj'. intros k Hk.
    rewrite Z.bits_0, Z.land_spec, Z.pow2_bits_eqb by lia.
    destruct (Z.eqb_spec (Z.of_nat i) k) as [Heq|]; [subst k; rewrite E|];
      auto using andb_false_r.
Qed.

Lemma wf_mask_high n mask k : wf_mask n mask -> Z.of_nat n <= k -> Z.testbit mask k = false.
Proof.
  intros [H0 H1] Hk. rewrite <- (Z.mod_small mask (2 ^ Z.of_nat n)) by lia.
  apply Z.mod_pow2_bits_high. lia.
Qed.

Lemma wf_mask_of_bits n mask :
  0 <= mask -> (forall k, Z.of_nat n <= k -> Z.testbit mask k = false) -> wf_mask n mask.
Proof.
  intros H0 Hb. split; [assumption|].
  destruct (Z.eq_dec mask 0) as [->|Hne]; [apply Z.pow_pos_nonneg; lia|].
  apply Z.log2_lt_pow2; [lia|].
  destruct (Z_lt_le_dec (Z.log2 mask) (Z.of_nat n)) as [|Hle]; [assumption|].
  specialize (Hb _ Hle). rewrite Z.bit_log2 in Hb by lia. discriminate.
Qed.

Lemma clear_spec mask i k :
  (i <= 62)%nat -> 0 <= k ->
  Z.testbit (clear mask i) k = Z.testbit mask k && negb (Z.of_nat i =? k).
Proof.
  intros Hi Hk. unfold clear. rewrite bit_small by assumption.
  rewrite Z.land_spec, Z.lnot_spec, Z.pow2_bits_eqb by lia. reflexivity.
Qed.

Lemma wf_mask_clear n mask i : (i <= 62)%nat -> wf_mask n mask -> wf_mask n (clear mask i).
Proof.
  intros Hi Hwf. apply wf_mask_of_bits.
  - unfold clear. apply Z.land_nonneg. left. apply Hwf.
  - intros k Hk. rewrite clear_spec by lia.
    rewrite (wf_mask_high n mask k) by assumption. reflexivity.
Qed.

Lemma members_In n mask i :
  (n <= 63)%nat ->
  In i (members n mask) <-> (i < n)%nat /\ Z.testbit mask (Z.of_nat i) = true.
Proof.
  intros Hn. unfold members, candidate_arr. rewrite filter_In, in_seq.
  split.
  - intros [Hi Hh]. rewrite has_testbit in Hh by lia. split; [lia|assumption].
  - intros [Hi Hb]. rewrite has_testbit by lia. split; [lia|assumption].
Qed.

Lemma members_lt n mask i : In i (members n mask) -> (i < n)%nat.
Proof.
  unfold members, candidate_arr. rewrite filter_In, in_seq. lia.
Qed.

Lemma members_NoDup n mask : NoDup (members n mask).
Proof. apply NoDup_filter, seq_NoDup. Qed.

Lemma has_zero i : has 0 i = false.
Proof. unfold has. rewrite Z.land_0_l. reflexivity. Qed.

Lemma members_zero n : members n 0 = [].
Proof.
  unfold members, candidate_arr. induction (seq 0 n) as [|a l IH]; [reflexivity|].
  cbn [filter]. rewrite has_zero. exact IH.
Qed.

Lemma members_nil n mask :
  (n <= 63)%nat -> wf_mask n mask -> members n mask = [] -> mask = 0.
Proof.
  intros Hn Hwf Hnil. apply Z.bits_inj'. intros k Hk. rewrite Z.bits_0.
  destruct (Z_lt_le_dec k (Z.of_nat n)) as [Hlt|Hge].
  - destruct (Z.testbit mask k) eqn:E; [|reflexivity].
    assert (Hin : In (Z.to_nat k) (members n mask)).
    { apply members_In; [assumption|]. rewrite Z2Nat.id by lia. split; [lia|assumption]. }
    rewrite Hnil in Hin. destruct Hin.
  - apply (wf_mask_high n); assumption.
Qed.

Lemma members_clear n mask i :
  (n <= 63)%nat -> (i <= 62)%nat ->
  members n (clear mask i) = without i (members n mask).
Proof.
  intros Hn Hi. unfold members, candidate_arr, without.
  assert (Hall : forall k, In k (seq 0 n) -> (k <= 62)%nat).
  { intros k Hk. apply in_seq in Hk. lia. }
  induction (seq 0 n) as [|a l IH]; [reflexivity|].
  simpl. rewrite !has_testbit by (apply Hall; simpl; auto).
  rewrite clear_spec by lia.
  rewrite IH by (intros; apply Hall; simpl; auto).
  destruct (Z.testbit mask (Z.of_nat a)); simpl; [|reflexivity].
  destruct (Nat.eqb_spec a i) as [->|Hne].
  - rewrite Z.eqb_refl. reflexivity.
  - destruct (Z.eqb_spec (Z.of_nat i) (Z.of_nat a)); [lia|reflexivity].
Qed.

Lemma without_head i rest : NoDup (i :: rest) -> without i (i :: rest) = rest.
Proof.
  intros Hnd. inversion Hnd as [|? ? Hni Hnd']; subst.
  unfold without. simpl. rewrite Nat.eqb_refl. simpl.
  apply forallb_filter_id. apply forallb_forall. intros k Hk.
  destruct (Nat.eqb_spec k i) as [->|]; [contradiction|reflexivity].
Qed.

Lemma first_unmatched_members n mask i rest :
  members n mask = i :: rest -> first_unmatched mask n = i.
Proof.
  unfold members, candidate_arr, first_unmatched.
  generalize 0%nat as a. induction n as [|k IH]; intros a H; [discriminate|].
  simpl in *. destruct (has mask a).
  - congruence.
  - rewrite Nat.add_1_r. apply IH. exact H.
Qed.

(** ** Perfect matchings and their scores *)

Local Open Scope Q_scope.

Lemma sumQ_app l1 l2 : sumQ (l1 ++ l2) == sumQ l1 + sumQ l2.
Proof. induction l1 as [|a l1 IH]; simpl; [lra|]. rewrite IH. lra. Qed.

Lemma sumQ_perm l l' : Permutation l l' -> sumQ l == sumQ l'.
Proof.
  induction 1 as [|x l l' _ IH|x y l|l l' l'' _ IH1 _ IH2]; simpl.
  - lra.
  - rewrite IH. lra.
  - lra.
  - rewrite IH1. exact IH2.
Qed.

Lemma score_app comp m1 m2 : score comp (m1 ++ m2) == score comp m1 + score comp m2.
Proof. induction m1 as [|p m1 IH]; simpl; [lra|]. rewrite IH. lra. Qed.

Lemma half_le a b : a <= b -> a / 2 <= b / 2.
Proof. intros H. unfold Qdiv. change (/ 2) with (1 # 2). lra. Qed.

Lemma half_double a : (a + a) / 2 == a.
Proof. unfold Qdiv. change (/ 2) with (1 # 2). lra. Qed.

Lemma half_nonneg a : 0 <= a -> 0 <= a / 2.
Proof. intros H. unfold Qdiv. change (/ 2) with (1 # 2). lra. Qed.

(** *** The bound oracle dominates every perfect matching *)

Section Bound.
Variables (comp : matrix) (n : nat) (mask : Z).

Lemma step_best_mono i l acc : acc <= fold_left (best_val_step mask comp i) l acc.
Proof.
  revert acc. induction l as [|j l IH]; intros acc; simpl; [lra|].
  eapply Qle_trans; [|apply IH]. unfold best_val_step.
  destruct (has mask j && negb (Nat.eqb i j))%bool; [|lra].
  destruct (Qlt_le_dec acc (comp i j)); lra.
Qed.

Lemma step_best_ge i l acc j :
  In j l -> has mask j = true -> i <> j -> comp i j <= fold_left (best_val_step mask comp i) l acc.
Proof.
  revert acc. induction l as [|k l IH]; intros acc Hin Hj Hne; [destruct Hin|].
  simpl. destruct Hin as [->|Hin]; [|apply IH; assumption].
  eapply Qle_trans; [|apply step_best_mono]. unfold best_val_step.
  rewrite Hj. destruct (Nat.eqb_spec i j) as [|_]; [contradiction|]. simpl.
  destruct (Qlt_le_dec acc (comp i j)); lra.
Qed.

Lemma best_val_of_nonneg i : 0 <= best_val_of mask comp n i.
Proof. apply (step_best_mono i (seq 0 n) 0). Qed.

Lemma best_val_of_ge i j :
  In j (members n mask) -> i <> j -> comp i j <= best_val_of mask comp n i.
Proof.
  intros Hin Hne. unfold members, candidate_arr in Hin. apply filter_In in Hin.
  destruct Hin as [Hseq Hj]. apply (step_best_ge i (seq 0 n) 0 j); assumption.
Qed.

Lemma additional_sum l acc :
  fold_left
    (fun additional i =>
       if has mask i then additional + best_val_of mask comp n i else additional)
    l acc
  == acc + sumQ (map (best_val_of mask comp n) (filter (has mask) l)).
Proof.
  revert acc. induction l as [|i l IH]; intros acc; simpl; [lra|].
  rewrite IH. destruct (has mask i); simpl; lra.
Qed.

Lemma compute_upper_bound_sum :
  compute_upper_bound mask comp n
  == sumQ (map (best_val_of mask comp n) (members n mask)) / 2.
Proof.
  unfold compute_upper_bound, members, candidate_arr.
  rewrite additional_sum. unfold Qdiv. lra.
Qed.

Lemma compute_upper_bound_nonneg : 0 <= compute_upper_bound mask comp n.
Proof.
  rewrite compute_upper_bound_sum. apply half_nonneg.
  induction (members n mask) as [|i l IH]; simpl; [lra|].
  pose proof (best_val_of_nonneg i). lra.
Qed.

(** Each pair is paid for by the best values of its two ends. *)
Lemma pairs_below_best_values m :
  symmetric n comp ->
  (forall p, In p m ->
     In (fst p) (members n mask) /\ In (snd p) (members n mask) /\ fst p <> snd p) ->
  score comp m + score comp m <= sumQ (map (best_val_of mask comp n) (flatten m)).
Proof.
  intros Hsym. induction m as [|[a b] m IH]; intros Hm; simpl; [lra|].
  destruct (Hm (a, b) (or_introl eq_refl)) as (Ha & Hb & Hab). simpl in Ha, Hb, Hab.
  assert (IH' := IH (fun p Hp => Hm p (or_intror Hp))).
  pose proof (best_val_of_ge a b Hb Hab) as H1.
  pose proof (best_val_of_ge b a Ha (not_eq_sym Hab)) as H2.
  pose proof (Hsym a b (members_lt _ _ _ Ha) (members_lt _ _ _ Hb)) as Hs.
  lra.
Qed.

Lemma compute_upper_bound_dominates m :
  symmetric n comp ->
  perfect_matching (members n mask) m ->
  score comp m <= compute_upper_bound mask comp n.
Proof.
  intros Hsym Hpm. unfold perfect_matching in Hpm.
  rewrite compute_upper_bound_sum.
  rewrite <- (sumQ_perm _ _ (Permutation_map (best_val_of mask comp n) Hpm)).
  rewrite <- (half_double (score comp m)). apply half_le.
  apply pairs_below_best_values; [assumption|].
  assert (Hnd : NoDup (flatten m)).
  { eapply Permutation_NoDup; [symmetry; exact Hpm|apply members_NoDup]. }
  clear Hsym. intros p Hp.
  assert (Hsub : forall x, In x (flatten m) -> In x (members n mask)).
  { intros x Hx. eapply Permutation_in; eassumption. }
  apply in_split in Hp. destruct Hp as (m1 & m2 & ->).
  unfold flatten in *. rewrite flat_map_app in *. simpl in *.
  repeat split.
  - apply Hsub. apply in_or_app. right. simpl. auto.
  - apply Hsub. apply in_or_app. right. simpl. auto.
  - apply NoDup_remove_2 in Hnd. intros Heq. apply Hnd.
    apply in_or_app. right. simpl. auto.
Qed.

End Bound.

(** *** Building and taking apart perfect matchings *)

Lemma perfect_matching_nil m : perfect_matching [] m -> m = [].
Proof.
  unfold perfect_matching. intros H. symmetry in H. apply Permutation_nil in H.
  destruct m as [|p m]; [reflexivity|discriminate].
Qed.

Lemma perfect_matching_length l m : perfect_matching l m -> length l = (2 * length m)%nat.
Proof.
  intros H. rewrite <- (Permutation_length H). clear H.
  induction m as [|p m IH]; simpl; [reflexivity|]. rewrite IH. lia.
Qed.

Lemma without_In j k l : In k (without j l) <-> In k l /\ k <> j.
Proof.
  unfold without. rewrite filter_In.
  destruct (Nat.eqb_spec k j); simpl; intuition congruence.
Qed.

Lemma without_NoDup j l : NoDup l -> NoDup (without j l).
Proof. apply NoDup_filter. Qed.

Lemma without_absent j l : ~ In j l -> without j l = l.
Proof.
  intros H. unfold without. apply forallb_filter_id, forallb_forall.
  intros k Hk. destruct (Nat.eqb_spec k j) as [->|]; [contradiction|reflexivity].
Qed.

Lemma without_perm j l : NoDup l -> In j l -> Permutation l (j :: without j l).
Proof.
  induction l as [|a l IH]; intros Hnd Hin; [destruct Hin|].
  inversion Hnd as [|? ? Hna Hnd']; subst.
  destruct Hin as [->|Hin].
  - rewrite without_head by assumption. reflexivity.
  - assert (a <> j) by (intros ->; contradiction).
    unfold without at 1. simpl. destruct (Nat.eqb_spec a j); [contradiction|]. simpl.
    rewrite perm_swap. apply perm_skip. apply IH; assumption.
Qed.

Lemma without_length j l : NoDup l -> In j l -> length l = S (length (without j l)).
Proof. intros Hnd Hin. apply (Permutation_length (without_perm j l Hnd Hin)). Qed.

Lemma perfect_matching_cons i j rest m :
  NoDup rest -> In j rest ->
  perfect_matching (without j rest) m -> perfect_matching (i :: rest) ((i, j) :: m).
Proof.
  unfold perfect_matching. intros Hnd Hin Hpm. simpl.
  apply perm_skip. rewrite (without_perm j rest Hnd Hin). apply perm_skip. exact Hpm.
Qed.

(** The pair of the first student can be taken out of any perfect matching. *)
Lemma perfect_matching_split comp n i rest m :
  symmetric n comp -> (forall k, In k (i :: rest) -> (k < n)%nat) ->
  NoDup (i :: rest) -> perfect_matching (i :: rest) m ->
  exists j m', In j rest /\ perfect_matching (without j rest) m'
               /\ score comp m == comp i j + score comp m'.
Proof.
  unfold perfect_matching. intros Hsym Hlt Hnd Hpm.
  assert (Hi : In i (flatten m)).
  { eapply Permutation_in; [symmetry; exact Hpm|simpl; auto]. }
  unfold flatten in Hi. apply in_flat_map in Hi. destruct Hi as ([a b] & Hp & Hi).
  apply in_split in Hp. destruct Hp as (m1 & m2 & ->).
  assert (Hfl : Permutation (flatten (m1 ++ (a, b) :: m2)) (a :: b :: flatten (m1 ++ m2))).
  { unfold flatten. rewrite !flat_map_app. simpl.
    rewrite <- Permutation_middle. apply perm_skip.
    rewrite <- Permutation_middle. reflexivity. }
  assert (Hsc : score comp (m1 ++ (a, b) :: m2) == comp a b + score comp (m1 ++ m2)).
  { rewrite !score_app. simpl. lra. }
  rewrite Hfl in Hpm. inversion Hnd as [|? ? Hni Hnd']; subst.
  assert (Hrest : forall j, Permutation (j :: flatten (m1 ++ m2)) rest ->
            In j rest /\ Permutation (flatten (m1 ++ m2)) (without j rest)).
  { intros j Hj. assert (Hin : In j rest).
    { eapply Permutation_in; [exact Hj|simpl; auto]. }
    split; [assumption|].
    rewrite (without_perm j rest Hnd' Hin) in Hj.
    eapply Permutation_cons_inv. exact Hj. }
  simpl in Hi. destruct Hi as [Ha|[Hb|[]]].
  - subst a. apply Permutation_cons_inv in Hpm.
    destruct (Hrest b Hpm) as [Hin Hp']. exists b, (m1 ++ m2). auto.
  - subst b. rewrite perm_swap in Hpm. apply Permutation_cons_inv in Hpm.
    destruct (Hrest a Hpm) as [Hin Hp']. exists a, (m1 ++ m2).
    repeat split; [assumption|assumption|].
    rewrite Hsc. rewrite (Hsym a i); [reflexivity| |]; apply Hlt; simpl; auto.
Qed.

(** ** Typed lists and the tracker *)

Lemma pop_push {A : Type} (l : list A) (x : A) : pop (l ++ [x]) = l.
Proof. apply removelast_last. Qed.

Lemma clear_typed_list_nil {A : Type} (l : list A) : clear_typed_list l = [].
Proof.
  unfold clear_typed_list. generalize 0%nat as a.
  induction l as [|x l IH] using rev_ind; intros a; [reflexivity|].
  rewrite length_app, Nat.add_1_r. simpl. rewrite pop_push. apply IH.
Qed.

Lemma copy_by_index {A : Type} (d : A) (cp pre acc : list A) :
  fold_left (fun bp idx => bp ++ [nth idx (pre ++ cp) d])
    (seq (length pre) (length cp)) acc = acc ++ cp.
Proof.
  revert pre acc. induction cp as [|x cp IH]; intros pre acc; simpl.
  - symmetry. apply app_nil_r.
  - rewrite nth_middle.
    replace (pre ++ x :: cp) with ((pre ++ [x]) ++ cp) by (rewrite <- app_assoc; reflexivity).
    replace (S (length pre)) with (length (pre ++ [x])) by (rewrite length_app; simpl; lia).
    rewrite IH. rewrite <- app_assoc. reflexivity.
Qed.

Lemma record_best_pairs cur st : best_pairs (record_best cur st) = current_pairs st.
Proof.
  unfold record_best, append_all. simpl. rewrite clear_typed_list_nil.
  apply (copy_by_index (0%nat, 0%nat) (current_pairs st) [] []).
Qed.

Lemma pop_while_nonempty_nil {A : Type} (l : list A) :
  pop_while_nonempty (length l) l = [].
Proof.
  induction l as [|x l IH] using rev_ind; [reflexivity|].
  rewrite length_app, Nat.add_1_r. cbn [pop_while_nonempty].
  destruct (l ++ [x]) eqn:E; [reflexivity|]. rewrite <- E, pop_push. exact IH.
Qed.

Lemma base_case_exhaustive_eq cur st : base_case_exhaustive cur st = base_case cur st.
Proof.
  unfold base_case_exhaustive, base_case, record_best_exhaustive, record_best.
  rewrite pop_while_nonempty_nil, clear_typed_list_nil. reflexivity.
Qed.

(** ** Loops *)

Lemma for_each_invariant {A S : Type} (Inv : list A -> S -> Prop)
    (body : A -> S -> res S) (l : list A) (s : S) :
  Inv [] s ->
  (forall done x s, In x l -> Inv done s -> exists s', body x s = Ok s' /\ Inv (done ++ [x]) s') ->
  exists s', for_each l body s = Ok s' /\ Inv l s'.
Proof.
  intros H0 Hstep.
  assert (Hgen : forall pre s, Inv pre s ->
            (forall done x s, In x l -> Inv done s ->
               exists s', body x s = Ok s' /\ Inv (done ++ [x]) s') ->
            exists s', for_each l body s = Ok s' /\ Inv (pre ++ l) s').
  { clear H0 Hstep s. induction l as [|x l IH]; intros pre s Hpre Hstep; simpl.
    - exists s. rewrite app_nil_r. auto.
    - destruct (Hstep pre x s (or_introl eq_refl) Hpre) as (s1 & -> & H1). simpl.
      destruct (IH (pre ++ [x]) s1 H1) as (s2 & Hs2 & H2).
      + intros done y s' Hy. apply Hstep. right. exact Hy.
      + exists s2. rewrite <- app_assoc in H2. auto. }
  apply (Hgen [] s H0 Hstep).
Qed.

(** ** The size of the enumeration tree *)

Lemma enum_count_S k : enum_count (S k) = (Z.of_nat k * (1 + enum_count (k - 1)))%Z.
Proof. destruct k as [|k]; [reflexivity|]. cbn [enum_count]. rewrite Nat.sub_1_r. reflexivity. Qed.

Lemma enum_count_nonneg k : (0 <= enum_count k)%Z.
Proof.
  induction k as [k IH] using lt_wf_ind. destruct k as [|[|k]]; simpl; try lia.
  assert (0 <= enum_count k)%Z by (apply IH; lia). lia.
Qed.

(** ** What a call of either search leaves in the tracker *)

Section Post.
Variables (comp : matrix) (n : nat).

Lemma alloc_unchanged (exact : bool) (l : list nat) (st : tracker) :
  (exact = true -> enum_count (length l) = 0%Z) ->
  exists k, (0 <= k <= enum_count (length l))%Z
            /\ Int64.wrap (allocations st) = Int64.wrap (allocations st + k)
            /\ (exact = true -> k = enum_count (length l)).
Proof.
  intros He. exists 0%Z. pose proof (enum_count_nonneg (length l)).
  rewrite Z.add_0_r. repeat split; try lia; try reflexivity.
  intros Hex. symmetry. auto.
Qed.

Lemma base_case_post exact cur st : post comp n exact [] cur st (base_case cur st).
Proof.
  unfold base_case. destruct (Qlt_le_dec (best_score st) cur) as [Hlt|Hle].
  - constructor; simpl.
    + reflexivity.
    + lra.
    + right. exists []. rewrite record_best_pairs, app_nil_r. simpl.
      split; [apply Permutation_refl|split; [reflexivity|lra]].
    + apply (alloc_unchanged exact [] st). reflexivity.
    + auto.
    + intros _ m Hm. apply perfect_matching_nil in Hm. subst m. simpl. lra.
    + intros; lra.
  - constructor; simpl.
    + reflexivity.
    + lra.
    + left. split; reflexivity.
    + apply (alloc_unchanged exact [] st). reflexivity.
    + auto.
    + intros _ m Hm. apply perfect_matching_nil in Hm. subst m. simpl. lra.
    + intros; lra.
Qed.

Lemma prune_post mask cur st :
  cur + compute_upper_bound mask comp n <= best_score st ->
  post comp n false (members n mask) cur st st.
Proof.
  intros Hle. constructor.
  - reflexivity.
  - lra.
  - left. split; reflexivity.
  - apply alloc_unchanged. discriminate.
  - auto.
  - intros Hsym m Hm.
    pose proof (compute_upper_bound_dominates comp n mask m Hsym Hm). lra.
  - intros _ _ Hcur. pose proof (compute_upper_bound_nonneg comp n mask). lra.
Qed.

(** The loop over the partners of the first student [i]: every partner [j]
    of [rest] is tried once, in any order, by a call that satisfies [post]
    on the remaining students. *)
Lemma children_post {S : Type} (exact : bool) (proj : S -> tracker) (P : S -> Prop)
    (body : nat -> S -> res S) (i : nat) (rest : list nat) (cur : Q)
    (cs : list nat) (s : S) :
  NoDup (i :: rest) -> (forall k, In k (i :: rest) -> (k < n)%nat) ->
  Permutation cs rest -> P s ->
  (forall j sk, In j rest -> P sk ->
     exists st2 s', body j sk = Ok s' /\ P s' /\ proj s' = pop_pair st2
       /\ post comp n exact (without j rest) (cur + comp i j)
            (count_allocation (push_pair (i, j) (proj sk))) st2) ->
  exists s', for_each cs body s = Ok s' /\ P s'
             /\ post comp n exact (i :: rest) cur (proj s) (proj s').
Proof.
  intros Hnd Hlt Hperm HP Hbody.
  inversion Hnd as [|? ? Hni Hnd']; subst.
  set (E := enum_count (length rest - 1)).
  set (Inv := fun (done : list nat) (sk : S) =>
    P sk /\ current_pairs (proj sk) = current_pairs (proj s)
    /\ best_score (proj s) <= best_score (proj sk)
    /\ (unchanged (proj s) (proj sk) \/ recorded comp (i :: rest) cur (proj s) (proj sk))
    /\ (exists k, (0 <= k <= Z.of_nat (length done) * (1 + E))%Z
          /\ Int64.wrap (allocations (proj sk)) = Int64.wrap (allocations (proj s) + k)
          /\ (exact = true -> k = (Z.of_nat (length done) * (1 + E))%Z))
    /\ (Int64.in_range (allocations (proj s)) -> Int64.in_range (allocations (proj sk)))
    /\ (symmetric n comp -> forall j, In j done ->
        forall m', perfect_matching (without j rest) m' ->
        cur + comp i j + score comp m' <= best_score (proj sk))
    /\ (non_negative n comp -> Nat.even (length (i :: rest)) = true -> 0 <= cur ->
        done <> [] -> 0 <= best_score (proj sk))).
  assert (HE : (0 <= E)%Z) by apply enum_count_nonneg.
  destruct (for_each_invariant Inv body cs s) as (s' & Hrun & Hinv).
  - unfold Inv. split; [exact HP|]. split; [reflexivity|]. split; [lra|].
    split; [left; split; reflexivity|].
    split; [exists 0%Z; rewrite Z.add_0_r; simpl; repeat split; try lia; reflexivity|].
    split; [auto|]. split; [intros _ j []|]. intros _ _ _ Hne. contradiction.
  - intros done j sk Hj (HPk & Hcp & Hmono & Hbest & Halloc & Hrange & Hdom & Hnn).
    assert (Hjr : In j rest) by (eapply Permutation_in; eassumption).
    destruct (Hbody j sk Hjr HPk) as (st2 & s2 & Hrun & HP2 & Hproj & Hpost).
    destruct Hpost as [Pcur Pmono Pbest Palloc Prange Pdom Pnn].
    simpl in Pcur, Pmono, Pbest, Palloc, Prange.
    assert (Hlen : length (without j rest) = (length rest - 1)%nat).
    { pose proof (without_length j rest Hnd' Hjr). lia. }
    rewrite Hlen in Palloc, Pnn. fold E in Palloc.
    exists s2. split; [exact Hrun|]. unfold Inv. rewrite Hproj. simpl.
    split; [exact HP2|]. split; [rewrite Pcur, pop_push; exact Hcp|].
    split; [lra|]. split; [|split; [|split; [|split]]].
    + unfold unchanged, recorded in *. simpl in *.
      destruct Pbest as [[Hb1 Hb2]|(m' & Hm' & Hbp & Hbs)].
      * destruct Hbest as [[Hu1 Hu2]|(m & Hm & Hbp & Hbs)].
        -- left. split; congruence.
        -- right. exists m. rewrite Hb1, Hb2. auto.
      * right. exists ((i, j) :: m').
        split; [apply perfect_matching_cons; assumption|].
        split; [rewrite Hbp, Hcp, <- app_assoc; reflexivity|].
        simpl. rewrite Hbs. lra.
    + destruct Halloc as (k & Hk & Hwk & Hek).
      destruct Palloc as (k2 & Hk2 & Hwk2 & Hek2).
      exists (k + 1 + k2)%Z. rewrite length_app. simpl length.
      split; [nia|]. split.
      * rewrite Hwk2, wrap_add_l.
        replace (allocations (proj sk) + 1 + k2)%Z
          with (allocations (proj sk) + (1 + k2))%Z by lia.
        rewrite (wrap_congr _ _ (1 + k2) Hwk). f_equal. lia.
      * intros He. rewrite (Hek He), (Hek2 He). nia.
    + intros _. apply Prange. apply wrap_in_range.
    + intros Hsym k Hk m' Hm'. apply in_app_or in Hk. destruct Hk as [Hk|[<-|[]]].
      * specialize (Hdom Hsym k Hk m' Hm'). lra.
      * apply (Pdom Hsym m' Hm').
    + intros Hnneg Hev Hcur _. apply Pnn; [assumption| |].
      * simpl in Hev. destruct (length rest) as [|r]; [discriminate|].
        replace (Datatypes.S r - 1)%nat with r by lia. exact Hev.
      * assert (0 <= comp i j); [|lra].
        apply Hnneg; [apply Hlt; simpl; auto|apply Hlt; simpl; auto|].
        intros ->. contradiction.
  - destruct Hinv as (HP' & Hcp & Hmono & Hbest & Halloc & Hrange & Hdom & Hnn).
    exists s'. split; [exact Hrun|]. split; [exact HP'|].
    assert (Hcount : (Z.of_nat (length cs) * (1 + E))%Z = enum_count (length (i :: rest))).
    { rewrite (Permutation_length Hperm). simpl length. rewrite enum_count_S. reflexivity. }
    rewrite Hcount in Halloc.
    constructor; try assumption.
    + intros Hsym m Hm.
      destruct (perfect_matching_split comp n i rest m Hsym Hlt Hnd Hm)
        as (j & m' & Hj & Hm' & Hsc).
      assert (Hjc : In j cs) by (eapply Permutation_in; [symmetry|]; eassumption).
      specialize (Hdom Hsym j Hjc m' Hm'). rewrite Hsc. lra.
    + intros Hnneg Hev Hcur. apply Hnn; try assumption.
      intros ->. apply Permutation_nil in Hperm. subst rest. discriminate.
Qed.

End Post.

(** ** The branch-and-bound search *)

Lemma map_nth_seq {A : Type} (d : A) (l : list A) :
  map (fun k => nth k l d) (seq 0 (length l)) = l.
Proof.
  apply (nth_ext _ _ (nth 0 l d) d).
  - rewrite length_map, length_seq. reflexivity.
  - intros k Hk. rewrite length_map, length_seq in Hk.
    rewrite (map_nth (fun k => nth k l d)), seq_nth by assumption. reflexivity.
Qed.

Lemma reversed_by_index {A : Type} (d : A) (l : list A) :
  map (fun k => nth (length l - 1 - k) l d) (seq 0 (length l)) = rev l.
Proof.
  apply (nth_ext _ _ (nth (length l - 1 - 0) l d) d).
  - rewrite length_map, length_seq, length_rev. reflexivity.
  - intros k Hk. rewrite length_map, length_seq in Hk.
    rewrite (map_nth (fun k => nth (length l - 1 - k) l d)), seq_nth by assumption.
    rewrite rev_nth by assumption. f_equal. lia.
Qed.

Section BranchAndBound.
Variable argsort : list Q -> list nat.
Hypothesis argsort_perm : forall a, Permutation (argsort a) (seq 0 (length a)).

Lemma sorted_candidates_perm comp n i new_mask :
  Permutation (sorted_candidates argsort comp n i new_mask) (members n new_mask).
Proof.
  unfold sorted_candidates, members. cbv zeta.
  set (cands := candidate_arr new_mask n).
  rewrite reversed_by_index.
  rewrite <- (map_nth_seq 0%nat cands) at 2.
  apply Permutation_map. rewrite <- Permutation_rev.
  rewrite argsort_perm, length_map. reflexivity.
Qed.

Lemma search_post comp n fuel :
  (n <= 63)%nat ->
  forall mask cur st memo,
    wf_mask n mask -> (length (members n mask) < fuel)%nat -> memo_sound comp n memo ->
    exists st' memo',
      search argsort fuel mask cur comp n (st, memo) = Ok (st', memo')
      /\ memo_sound comp n memo'
      /\ post comp n false (members n mask) cur st st'.
Proof.
  intros Hn. induction fuel as [|fuel IH]; intros mask cur st memo Hwf Hfuel Hmemo; [lia|].
  cbn [search]. destruct (Z.eqb_spec mask 0) as [->|Hne].
  { exists (base_case cur st), memo. rewrite members_zero.
    split; [reflexivity|]. split; [assumption|]. apply base_case_post. }
  destruct (members n mask) as [|i rest] eqn:Hmem.
  { exfalso. apply Hne. apply (members_nil n); assumption. }
  assert (Hexpand : forall memo0, memo_sound comp n memo0 ->
    exists st' memo',
      for_each (sorted_candidates argsort comp n (first_unmatched mask n)
                  (clear mask (first_unmatched mask n)))
        (fun j '(st, memo) =>
           s' <- search argsort fuel (clear (clear mask (first_unmatched mask n)) j)
                   (cur + comp (first_unmatched mask n) j) comp n
                   (count_allocation (push_pair (first_unmatched mask n, j) st), memo) ;;
           Ok (pop_pair (fst s'), snd s'))
        (st, memo0) = Ok (st', memo')
      /\ memo_sound comp n memo' /\ post comp n false (i :: rest) cur st st').
  { intros memo0 Hmemo0.
    rewrite (first_unmatched_members n mask i rest Hmem).
    assert (Hnd : NoDup (i :: rest)) by (rewrite <- Hmem; apply members_NoDup).
    assert (Hlt : forall k, In k (i :: rest) -> (k < n)%nat).
    { intros k Hk. rewrite <- Hmem in Hk. eapply members_lt; eassumption. }
    assert (Hi : (i <= 62)%nat) by (specialize (Hlt i (or_introl eq_refl)); lia).
    assert (Hrest : members n (clear mask i) = rest).
    { rewrite members_clear, Hmem by assumption. apply without_head; assumption. }
    destruct (children_post comp n false fst (fun s => memo_sound comp n (snd s))
                (fun j '(st, memo) =>
                   s' <- search argsort fuel (clear (clear mask i) j)
                           (cur + comp i j) comp n
                           (count_allocation (push_pair (i, j) st), memo) ;;
                   Ok (pop_pair (fst s'), snd s'))
                i rest cur (sorted_candidates argsort comp n i (clear mask i))
                (st, memo0) Hnd Hlt)
      as ([st' memo'] & Hrun & Hm' & Hpost).
    - rewrite <- Hrest. apply sorted_candidates_perm.
    - exact Hmemo0.
    - intros j [stk memok] Hj Hmk. simpl in Hmk.
      assert (Hj62 : (j <= 62)%nat) by (specialize (Hlt j (or_intror Hj)); lia).
      destruct (IH (clear (clear mask i) j) (cur + comp i j)
                  (count_allocation (push_pair (i, j) stk)) memok)
        as (st2 & memo2 & Hcall & Hm2 & Hpost2).
      + apply wf_mask_clear; [assumption|]. apply wf_mask_clear; assumption.
      + rewrite members_clear, Hrest by assumption.
        pose proof (proj2 (proj1 (NoDup_cons_iff i rest) Hnd)) as Hnd'.
        pose proof (without_length j rest Hnd' Hj).
        simpl in Hfuel. lia.
      + exact Hmk.
      + exists st2, (pop_pair st2, memo2). rewrite Hcall. simpl.
        split; [reflexivity|]. split; [exact Hm2|]. split; [reflexivity|].
        rewrite members_clear, Hrest in Hpost2 by assumption. exact Hpost2.
    - exists st', memo'. auto. }
  destruct (memo !! mask) as [ub_val|] eqn:Hlook.
  - destruct (Qle_bool (cur + ub_val) (best_score st)) eqn:Hcmp.
    + exists st, memo. split; [reflexivity|]. split; [assumption|].
      rewrite <- Hmem. apply prune_post. apply Qle_bool_iff in Hcmp.
      rewrite <- (Hmemo mask ub_val Hlook). exact Hcmp.
    + apply Hexpand. assumption.
  - assert (Hmemo' : memo_sound comp n (<[mask := compute_upper_bound mask comp n]> memo)).
    { intros mask' v Hv. destruct (decide (mask = mask')) as [<-|Hneq].
      - rewrite lookup_insert_eq in Hv. congruence.
      - rewrite lookup_insert_ne in Hv by assumption. apply Hmemo. exact Hv. }
    destruct (Qle_bool (cur + compute_upper_bound mask comp n) (best_score st)) eqn:Hcmp.
    + eexists st, _. split; [reflexivity|]. split; [exact Hmemo'|].
      rewrite <- Hmem. apply prune_post. apply Qle_bool_iff in Hcmp. exact Hcmp.
    + apply Hexpand. exact Hmemo'.
Qed.

End BranchAndBound.

(** ** The lowest set bit, as the exhaustive oracle finds it *)

Local Open Scope Z_scope.

Lemma land_opp_odd a : Z.land (2 * a + 1) (- (2 * a + 1)) = 1.
Proof.
  replace (- (2 * a + 1)) with (2 * Z.lnot a + 1) by (unfold Z.lnot; lia).
  apply Z.bits_inj'. intros k Hk. rewrite Z.land_spec.
  change 1 with (2 ^ 0) at 3. rewrite Z.pow2_bits_eqb by lia.
  destruct (Z.eqb_spec 0 k) as [<-|Hne].
  - rewrite !Z.testbit_odd_0. reflexivity.
  - replace k with (Z.succ (k - 1)) by lia.
    rewrite !Z.testbit_odd_succ, Z.lnot_spec by lia.
    destruct (Z.testbit a (k - 1)); reflexivity.
Qed.

Lemma land_opp_even a : Z.land (2 * a) (- (2 * a)) = 2 * Z.land a (- a).
Proof.
  replace (- (2 * a)) with (2 * - a) by lia.
  apply Z.bits_inj'. intros k Hk. rewrite Z.land_spec.
  destruct (Z.eq_dec k 0) as [->|Hne].
  - rewrite !Z.testbit_even_0. reflexivity.
  - replace k with (Z.succ (k - 1)) by lia.
    rewrite !Z.testbit_even_succ, Z.land_spec by lia. reflexivity.
Qed.

Lemma lowest_bit_isolated (i : nat) :
  forall m, Z.testbit m (Z.of_nat i) = true ->
            (forall k, 0 <= k < Z.of_nat i -> Z.testbit m k = false) ->
            Z.land m (- m) = 2 ^ Z.of_nat i.
Proof.
  induction i as [|i IH]; intros m Hbit Hlow.
  - change (Z.of_nat 0) with 0 in Hbit. rewrite Z.bit0_odd in Hbit.
    rewrite (Zodd_bool_iff m) in Hbit. apply Zodd_ex in Hbit.
    destruct Hbit as [a ->]. apply land_opp_odd.
  - assert (Hev : Z.even m = true).
    { specialize (Hlow 0 ltac:(lia)). rewrite Z.bit0_odd in Hlow.
      rewrite <- Z.negb_odd, Hlow. reflexivity. }
    rewrite (Zeven_bool_iff m) in Hev. apply Zeven_ex in Hev. destruct Hev as [a ->].
    rewrite land_opp_even, (IH a).
    + rewrite Nat2Z.inj_succ, Z.pow_succ_r by lia. reflexivity.
    + rewrite Nat2Z.inj_succ, Z.testbit_even_succ in Hbit by lia. exact Hbit.
    + intros k Hk. rewrite <- (Z.testbit_even_succ a k) by lia. apply Hlow. lia.
Qed.

Lemma get_bit_length_loop_pow2 (i : nat) :
  forall fuel len, (i + 1 < fuel)%nat ->
    get_bit_length_loop fuel (2 ^ Z.of_nat i) len = Ok (len + Z.of_nat i + 1).
Proof.
  induction i as [|i IH]; intros fuel len Hfuel.
  - destruct fuel as [|[|fuel]]; try lia. simpl. f_equal. lia.
  - destruct fuel as [|fuel]; [lia|]. cbn [get_bit_length_loop].
    assert (Hpos : 0 < 2 ^ Z.of_nat (S i)) by (apply Z.pow_pos_nonneg; lia).
    destruct (Z.eqb_spec (2 ^ Z.of_nat (S i)) 0) as [H0|_]; [lia|].
    rewrite Z.shiftr_div_pow2, Nat2Z.inj_succ, Z.pow_succ_r, Z.pow_1_r by lia.
    replace (2 * 2 ^ Z.of_nat i / 2) with (2 ^ Z.of_nat i)
      by (rewrite Z.mul_comm, Z.div_mul; lia).
    rewrite IH by lia. f_equal. lia.
Qed.

Lemma filter_head_lowest mask n :
  forall a i rest, filter (has mask) (seq a n) = i :: rest ->
    (a <= i)%nat /\ forall k, (a <= k < i)%nat -> has mask k = false.
Proof.
  induction n as [|n IH]; intros a i rest H; [discriminate|].
  simpl in H. destruct (has mask a) eqn:Ha.
  - injection H as <- _. split; [lia|]. intros k Hk. lia.
  - destruct (IH _ _ _ H) as [Hle Hlow]. split; [lia|].
    intros k Hk. destruct (Nat.eq_dec k a) as [->|]; [assumption|]. apply Hlow. lia.
Qed.

Lemma lowest_student_members n mask i rest :
  (n <= 63)%nat -> wf_mask n mask -> members n mask = i :: rest ->
  lowest_student mask = Ok i.
Proof.
  intros Hn Hwf Hmem.
  assert (Hin : In i (members n mask)) by (rewrite Hmem; simpl; auto).
  apply members_In in Hin; [|assumption]. destruct Hin as [Hi Hbit].
  destruct (filter_head_lowest mask n 0 i rest Hmem) as [_ Hlow].
  unfold lowest_student, get_bit_length, Int64.neg.
  assert (Hpow : 2 ^ Z.of_nat n <= 2 ^ 63) by (apply Z.pow_le_mono_r; lia).
  rewrite wrap_small
    by (unfold Int64.in_range, Int64.half_modulus; unfold wf_mask in Hwf; lia).
  rewrite (lowest_bit_isolated i mask Hbit).
  - rewrite get_bit_length_loop_pow2 by lia. simpl. f_equal. lia.
  - intros k Hk. specialize (Hlow (Z.to_nat k) ltac:(lia)).
    rewrite has_testbit, Z2Nat.id in Hlow by lia. exact Hlow.
Qed.

Lemma members_length n mask : (length (members n mask) <= n)%nat.
Proof.
  unfold members, candidate_arr.
  pose proof (filter_length_le (has mask) (seq 0 n)) as H.
  rewrite length_seq in H. exact H.
Qed.



Lemma while_candidate_for_each {S : Type} (body : nat -> S -> res S) n :
  (n <= 63)%nat ->
  forall fuel candidate s,
    wf_mask n candidate -> (length (members n candidate) < fuel)%nat ->
    while_candidate fuel candidate body s = for_each (members n candidate) body s.
Proof.
  intros Hn. induction fuel as [|fuel IH]; intros candidate s Hwf Hfuel; [lia|].
  cbn [while_candidate]. destruct (Z.eqb_spec candidate 0) as [->|Hne].
  { rewrite members_zero. reflexivity. }
  destruct (members n candidate) as [|j rest] eqn:Hmem.
  { exfalso. apply Hne. apply (members_nil n); assumption. }
  rewrite (lowest_student_members n candidate j rest Hn Hwf Hmem). cbn [bind].
  assert (Hj : (j < n)%nat) by (apply (members_lt n candidate); rewrite Hmem; simpl; auto).
  assert (Hrest : members n (clear candidate j) = rest).
  { rewrite members_clear, Hmem by lia. apply without_head.
    rewrite <- Hmem. apply members_NoDup. }
  cbn [for_each]. destruct (body j s) as [s'| |]; cbn [bind]; try reflexivity.
  rewrite IH.
  - rewrite Hrest. reflexivity.
  - apply wf_mask_clear; [lia|assumption].
  - rewrite Hrest. simpl in Hfuel. lia.
Qed.

Lemma exhaustive_post comp n fuel :
  (n <= 63)%nat ->
  forall mask cur st,
    wf_mask n mask -> (length (members n mask) < fuel)%nat ->
    exists st',
      exhaustive_search_njit fuel mask cur comp n st = Ok st'
      /\ post comp n true (members n mask) cur st st'.
Proof.
  intros Hn. induction fuel as [|fuel IH]; intros mask cur st Hwf Hfuel; [lia|].
  cbn [exhaustive_search_njit]. destruct (Z.eqb_spec mask 0) as [->|Hne].
  { exists (base_case cur st). rewrite members_zero, base_case_exhaustive_eq.
    split; [reflexivity|]. apply base_case_post. }
  destruct (members n mask) as [|i rest] eqn:Hmem.
  { exfalso. apply Hne. apply (members_nil n); assumption. }
  rewrite (lowest_student_members n mask i rest Hn Hwf Hmem). cbn [bind].
  assert (Hnd : NoDup (i :: rest)) by (rewrite <- Hmem; apply members_NoDup).
  assert (Hlt : forall k, In k (i :: rest) -> (k < n)%nat).
  { intros k Hk. rewrite <- Hmem in Hk. eapply members_lt; eassumption. }
  assert (Hi : (i <= 62)%nat) by (specialize (Hlt i (or_introl eq_refl)); lia).
  assert (Hrest : members n (clear mask i) = rest).
  { rewrite members_clear, Hmem by assumption. apply without_head; assumption. }
  rewrite (while_candidate_for_each _ n Hn).
  2:{ apply wf_mask_clear; assumption. }
  2:{ pose proof (members_length n (clear mask i)). lia. }
  rewrite Hrest.
  destruct (children_post comp n true (fun s => s) (fun _ => True)
              (fun j st =>
                 st <- exhaustive_search_njit fuel (clear (clear mask i) j)
                         (cur + comp i j)%Q comp n
                         (push_pair (i, j) (count_allocation st)) ;;
                 Ok (pop_pair st))
              i rest cur rest st Hnd Hlt (Permutation_refl _) I)
    as (st' & Hrun & _ & Hpost).
  - intros j stk Hj _.
    assert (Hj62 : (j <= 62)%nat) by (specialize (Hlt j (or_intror Hj)); lia).
    destruct (IH (clear (clear mask i) j) (cur + comp i j)%Q
                (push_pair (i, j) (count_allocation stk)))
      as (st2 & Hcall & Hpost2).
    + apply wf_mask_clear; [assumption|]. apply wf_mask_clear; assumption.
    + rewrite members_clear, Hrest by assumption.
      pose proof (proj2 (proj1 (NoDup_cons_iff i rest) Hnd)) as Hnd'.
      pose proof (without_length j rest Hnd' Hj).
      simpl in Hfuel. lia.
    + exists st2, (pop_pair st2). rewrite Hcall. simpl.
      split; [reflexivity|]. split; [exact I|]. split; [reflexivity|].
      rewrite members_clear, Hrest in Hpost2 by assumption. exact Hpost2.
  - exists st'. auto.
Qed.

(** ** The full mask *)

Lemma full_mask_small n : (n <= 63)%nat -> full_mask n = 2 ^ Z.of_nat n - 1.
Proof.
  intros Hn. unfold full_mask, Int64.sub, Int64.shl. rewrite Z.mod_small by lia.
  rewrite (wrap_small (Int64.wrap _)) by apply wrap_in_range.
  rewrite Z.shiftl_1_l.
  replace (Int64.wrap (2 ^ Z.of_nat n) - 1) with (Int64.wrap (2 ^ Z.of_nat n) + -1) by lia.
  rewrite wrap_add_l. apply wrap_small.
  unfold Int64.in_range, Int64.half_modulus.
  assert (0 < 2 ^ Z.of_nat n) by (apply Z.pow_pos_nonneg; lia).
  assert (2 ^ Z.of_nat n <= 2 ^ 63) by (apply Z.pow_le_mono_r; lia).
  lia.
Qed.

Lemma full_mask_wf n : (n <= 63)%nat -> wf_mask n (full_mask n).
Proof.
  intros Hn. rewrite full_mask_small by assumption. unfold wf_mask.
  assert (0 < 2 ^ Z.of_nat n) by (apply Z.pow_pos_nonneg; lia). lia.
Qed.

Lemma full_mask_members n : (n <= 63)%nat -> members n (full_mask n) = seq 0 n.
Proof.
  intros Hn. unfold members, candidate_arr.
  apply forallb_filter_id, forallb_forall. intros k Hk. apply in_seq in Hk.
  rewrite has_testbit, full_mask_small by lia.
  replace (2 ^ Z.of_nat n - 1) with (Z.ones (Z.of_nat n)) by (rewrite Z.ones_equiv; lia).
  apply Z.ones_spec_low. lia.
Qed.

(** ** The two entry points *)

Lemma exhaustive_search_wrapper_post comp n :
  (n <= 63)%nat ->
  exists st',
    exhaustive_search_wrapper comp n
    = Ok (best_score st', best_pairs st', allocations st')
    /\ post comp n true (seq 0 n) 0%Q initial_tracker st'.
Proof.
  intros Hn. unfold exhaustive_search_wrapper.
  destruct (exhaustive_post comp n (S n) Hn (full_mask n) 0%Q initial_tracker)
    as (st' & Hrun & Hpost).
  - apply full_mask_wf. assumption.
  - pose proof (members_length n (full_mask n)). lia.
  - exists st'. rewrite Hrun. rewrite full_mask_members in Hpost by assumption. auto.
Qed.

Section EntryPoint.
Variable argsort : list Q -> list nat.
Hypothesis argsort_perm : forall a, Permutation (argsort a) (seq 0 (length a)).

Lemma branch_and_bound_numba_post comp n :
  (n <= 63)%nat ->
  exists st',
    branch_and_bound_numba argsort comp n
    = Ok (best_score st', best_pairs st', allocations st')
    /\ post comp n false (seq 0 n) 0%Q initial_tracker st'.
Proof.
  intros Hn. unfold branch_and_bound_numba.
  destruct (search_post argsort argsort_perm comp n (S n) Hn (full_mask n) 0%Q
              initial_tracker ∅)
    as (st' & memo' & Hrun & _ & Hpost).
  - apply full_mask_wf. assumption.
  - pose proof (members_length n (full_mask n)). lia.
  - intros mask v Hv. rewrite lookup_empty in Hv. discriminate.
  - exists st'. rewrite Hrun. rewrite full_mask_members in Hpost by assumption. auto.
Qed.

(** In exact arithmetic the returned score dominates every perfect matching,
    and is the score of the returned pairing unless nothing was recorded. *)
Lemma branch_and_bound_optimal comp n :
  (n <= 63)%nat -> symmetric n comp ->
  exists s p a,
    branch_and_bound_numba argsort comp n = Ok (s, p, a)
    /\ (forall m, perfect_matching (seq 0 n) m -> (score comp m <= s)%Q)
    /\ ((s = sentinel /\ p = [])
        \/ (perfect_matching (seq 0 n) p /\ (s == score comp p)%Q)).
Proof.
  intros Hn Hsym.
  destruct (branch_and_bound_numba_post comp n Hn) as (st & Hrun & Hpost).
  exists (best_score st), (best_pairs st), (allocations st).
  split; [exact Hrun|]. destruct Hpost as [_ _ Hbest _ _ Hdom _]. split.
  - intros m Hm. specialize (Hdom Hsym m Hm). lra.
  - destruct Hbest as [[Hs Hp]|(m & Hm & Hbp & Hs)].
    + left. split; assumption.
    + right. simpl in Hbp. rewrite Hbp. split; [exact Hm|]. rewrite Hs. lra.
Qed.

(** In exact arithmetic both searches end with the same best score, whatever
    the sign of the weights and the parity of [n]. *)
Lemma best_scores_agree comp n :
  (n <= 63)%nat -> symmetric n comp ->
  exists s1 p1 a1 s2 p2 a2,
    branch_and_bound_numba argsort comp n = Ok (s1, p1, a1)
    /\ exhaustive_search_wrapper comp n = Ok (s2, p2, a2)
    /\ (s1 == s2)%Q.
Proof.
  intros Hn Hsym.
  destruct (branch_and_bound_numba_post comp n Hn) as (st1 & Hr1 & H1).
  destruct (exhaustive_search_wrapper_post comp n Hn) as (st2 & Hr2 & H2).
  exists (best_score st1), (best_pairs st1), (allocations st1),
         (best_score st2), (best_pairs st2), (allocations st2).
  split; [exact Hr1|]. split; [exact Hr2|].
  destruct H1 as [_ M1 B1 _ _ D1 _]. destruct H2 as [_ M2 B2 _ _ D2 _].
  apply Qle_antisym.
  - destruct B1 as [[Hu _]|(m & Hm & _ & Hs)].
    + rewrite Hu. exact M2.
    + rewrite Hs. apply D2; assumption.
  - destruct B2 as [[Hu _]|(m & Hm & _ & Hs)].
    + rewrite Hu. exact M1.
    + rewrite Hs. apply D1; assumption.
Qed.

End EntryPoint.

(** ** The bound oracle as a closed formula *)

Local Open Scope Q_scope.

Lemma fold_right_Qmax2_nonneg xs : 0 <= fold_right Qmax2 0 xs.
Proof.
  induction xs as [|x xs IH]; simpl; [lra|].
  unfold Qmax2 at 1. destruct (Qlt_le_dec x (fold_right Qmax2 0 xs)); lra.
Qed.

Lemma fold_left_Qmax2 xs :
  forall a, 0 <= a ->
    fold_left (fun acc x => Qmax2 acc x) xs a == Qmax2 a (fold_right Qmax2 0 xs).
Proof.
  induction xs as [|x xs IH]; intros a Ha; simpl.
  - unfold Qmax2. destruct (Qlt_le_dec a 0); lra.
  - assert (Hax : 0 <= Qmax2 a x) by (unfold Qmax2; destruct (Qlt_le_dec a x); lra).
    specialize (IH (Qmax2 a x) Hax). revert IH.
    generalize (fold_left (fun acc x0 => Qmax2 acc x0) xs (Qmax2 a x)).
    generalize (fold_right Qmax2 0 xs). intros R L.
    unfold Qmax2.
    destruct (Qlt_le_dec a x), (Qlt_le_dec x R);
      repeat match goal with |- context [Qlt_le_dec ?u ?v] => destruct (Qlt_le_dec u v) end;
      intros; lra.
Qed.

Lemma best_val_of_filtered mask comp n i :
  best_val_of mask comp n i
  = fold_left (fun acc x => Qmax2 acc x) (map (comp i) (without i (members n mask))) 0.
Proof.
  unfold best_val_of, members, candidate_arr, without.
  generalize 0 as acc. induction (seq 0 n) as [|j l IH]; intros acc; [reflexivity|].
  cbn [fold_left filter]. rewrite IH. unfold best_val_step.
  destruct (has mask j); simpl; [|reflexivity].
  rewrite (Nat.eqb_sym j i). destruct (Nat.eqb i j); reflexivity.
Qed.

Lemma best_val_of_formula mask comp n i :
  best_val_of mask comp n i == best_partner_score comp (members n mask) i.
Proof.
  rewrite best_val_of_filtered, fold_left_Qmax2 by lra.
  unfold best_partner_score.
  pose proof (fold_right_Qmax2_nonneg (map (comp i) (without i (members n mask)))) as H.
  unfold Qmax2 at 1.
  destruct (Qlt_le_dec 0 (fold_right Qmax2 0 (map (comp i) (without i (members n mask)))));
    lra.
Qed.

Lemma sumQ_map_ext {A : Type} (f g : A -> Q) (l : list A) :
  (forall x, f x == g x) -> sumQ (map f l) == sumQ (map g l).
Proof.
  intros H. induction l as [|x l IH]; simpl; [lra|]. rewrite IH, (H x). lra.
Qed.

Lemma compute_upper_bound_formula mask comp n :
  compute_upper_bound mask comp n == upper_bound_formula comp (members n mask).
Proof.
  rewrite compute_upper_bound_sum. unfold upper_bound_formula.
  rewrite (sumQ_map_ext _ _ _ (best_val_of_formula mask comp n)). reflexivity.
Qed.

(** ** Reading a perfect matching pair by pair *)

Lemma mentions_absent i m : ~ In i (flatten m) -> filter (mentions i) m = [].
Proof.
  induction m as [|p m IH]; intros Hni; [reflexivity|].
  simpl in *. unfold mentions at 1.
  destruct (Nat.eqb_spec (fst p) i); [tauto|].
  destruct (Nat.eqb_spec (snd p) i); [tauto|]. simpl. apply IH. tauto.
Qed.

Lemma mentioned_once i m :
  NoDup (flatten m) -> In i (flatten m) -> length (filter (mentions i) m) = 1%nat.
Proof.
  induction m as [|p m IH]; intros Hnd Hin; [destruct Hin|].
  simpl in Hnd, Hin. inversion Hnd as [|? ? Hn1 Hnd1]; subst.
  inversion Hnd1 as [|? ? Hn2 Hnd2]; subst.
  cbn [filter]. unfold mentions at 1.
  destruct (Nat.eqb_spec (fst p) i) as [<-|Hf].
  - simpl. rewrite mentions_absent; [reflexivity|]. intros H. apply Hn1. simpl. auto.
  - destruct (Nat.eqb_spec (snd p) i) as [<-|Hs].
    + simpl. rewrite mentions_absent; [reflexivity|assumption].
    + simpl. apply IH; [assumption|]. destruct Hin as [|[|]]; [contradiction..|assumption].
Qed.

Lemma matching_pairs_distinct m p : NoDup (flatten m) -> In p m -> fst p <> snd p.
Proof.
  intros Hnd Hp. apply in_split in Hp. destruct Hp as (m1 & m2 & ->).
  unfold flatten in Hnd. rewrite flat_map_app in Hnd. simpl in Hnd.
  apply NoDup_remove_2 in Hnd. intros Heq. apply Hnd.
  apply in_or_app. right. simpl. auto.
Qed.

(** ** The search reads the matrix only inside the [n] x [n] array *)

Lemma for_each_ext {A S : Type} (body body' : A -> S -> res S) (l : list A) (s : S) :
  (forall x s, In x l -> body x s = body' x s) ->
  for_each l body s = for_each l body' s.
Proof.
  revert s. induction l as [|x l IH]; intros s H; [reflexivity|].
  cbn [for_each]. rewrite (H x s) by (simpl; auto).
  destruct (body' x s); cbn [bind]; try reflexivity.
  apply IH. intros y s' Hy. apply H. simpl. auto.
Qed.

Lemma fold_left_ext_in {A B : Type} (f g : B -> A -> B) (l : list A) (b : B) :
  (forall x acc, In x l -> f acc x = g acc x) -> fold_left f l b = fold_left g l b.
Proof.
  revert b. induction l as [|x l IH]; intros b H; [reflexivity|].
  simpl. rewrite (H x b) by (simpl; auto). apply IH.
  intros y acc Hy. apply H. simpl. auto.
Qed.

Lemma best_val_of_ext mask comp comp' n i :
  same_entries n comp comp' -> (i < n)%nat ->
  best_val_of mask comp n i = best_val_of mask comp' n i.
Proof.
  intros Hsame Hi. unfold best_val_of. apply fold_left_ext_in.
  intros j acc Hj. apply in_seq in Hj. unfold best_val_step.
  rewrite (Hsame i j) by lia. reflexivity.
Qed.

Lemma compute_upper_bound_ext mask comp comp' n :
  same_entries n comp comp' ->
  compute_upper_bound mask comp n = compute_upper_bound mask comp' n.
Proof.
  intros Hsame. unfold compute_upper_bound. f_equal. apply fold_left_ext_in.
  intros i acc Hi. apply in_seq in Hi.
  rewrite (best_val_of_ext mask comp comp' n i) by (assumption || lia). reflexivity.
Qed.

Lemma has_clear mask i j : has (clear mask i) j = true -> has mask j = true.
Proof.
  unfold has, clear. intros H.
  destruct (Z.eqb_spec (Z.land mask (bit j)) 0) as [H0|]; [|reflexivity].
  rewrite <- Z.land_assoc, (Z.land_comm (Z.lnot (bit i))), Z.land_assoc, H0 in H.
  rewrite Z.land_0_l in H. discriminate.
Qed.

Lemma first_unmatched_loop_lt mask k :
  forall a j, (a <= j < a + k)%nat -> has mask j = true ->
    (first_unmatched_loop k mask a < a + k)%nat.
Proof.
  induction k as [|k IH]; intros a j Hj Hh; [lia|].
  simpl. destruct (has mask a) eqn:Ha; [lia|].
  assert (j <> a) by (intros ->; congruence).
  specialize (IH (a + 1)%nat j ltac:(lia) Hh). lia.
Qed.

Lemma first_unmatched_lt mask n j :
  (j < n)%nat -> has mask j = true -> (first_unmatched mask n < n)%nat.
Proof.
  intros Hj Hh. apply (first_unmatched_loop_lt mask n 0%nat j); [lia|assumption].
Qed.

Section Extensionality.
Variable argsort : list Q -> list nat.
Hypothesis argsort_perm : forall a, Permutation (argsort a) (seq 0 (length a)).

Lemma candidates_in_range comp n mask j :
  In j (sorted_candidates argsort comp n (first_unmatched mask n)
          (clear mask (first_unmatched mask n))) ->
  (first_unmatched mask n < n)%nat /\ (j < n)%nat.
Proof.
  intros Hj. eapply Permutation_in in Hj; [|apply sorted_candidates_perm, argsort_perm].
  unfold members, candidate_arr in Hj. apply filter_In in Hj. destruct Hj as [Hseq Hh].
  apply in_seq in Hseq. split; [|lia].
  apply (first_unmatched_lt mask n j); [lia|]. eapply has_clear. exact Hh.
Qed.

Lemma sorted_candidates_ext comp comp' n mask :
  same_entries n comp comp' ->
  sorted_candidates argsort comp n (first_unmatched mask n)
    (clear mask (first_unmatched mask n))
  = sorted_candidates argsort comp' n (first_unmatched mask n)
      (clear mask (first_unmatched mask n)).
Proof.
  intros Hsame. unfold sorted_candidates.
  set (i := first_unmatched mask n). set (cands := candidate_arr (clear mask i) n).
  assert (Hmap : map (comp i) cands = map (comp' i) cands).
  { apply map_ext_in. intros j Hj. unfold cands, candidate_arr in Hj.
    apply filter_In in Hj. destruct Hj as [Hseq Hh]. apply in_seq in Hseq.
    apply Hsame; [|lia]. apply (first_unmatched_lt mask n j); [lia|].
    eapply has_clear. exact Hh. }
  rewrite Hmap. reflexivity.
Qed.

Lemma search_ext comp comp' n :
  same_entries n comp comp' ->
  forall fuel mask cur s,
    search argsort fuel mask cur comp n s = search argsort fuel mask cur comp' n s.
Proof.
  intros Hsame. induction fuel as [|fuel IH]; intros mask cur [st memo]; [reflexivity|].
  cbn [search]. destruct (mask =? 0)%Z; [reflexivity|].
  rewrite (compute_upper_bound_ext mask comp comp' n Hsame).
  rewrite (sorted_candidates_ext comp comp' n mask Hsame).
  assert (Hbody : forall memo0,
    for_each (sorted_candidates argsort comp' n (first_unmatched mask n)
                (clear mask (first_unmatched mask n)))
      (fun j '(st, memo) =>
         s' <- search argsort fuel (clear (clear mask (first_unmatched mask n)) j)
                 (cur + comp (first_unmatched mask n) j) comp n
                 (count_allocation (push_pair (first_unmatched mask n, j) st), memo) ;;
         Ok (pop_pair (fst s'), snd s'))
      (st, memo0)
    = for_each (sorted_candidates argsort comp' n (first_unmatched mask n)
                (clear mask (first_unmatched mask n)))
      (fun j '(st, memo) =>
         s' <- search argsort fuel (clear (clear mask (first_unmatched mask n)) j)
                 (cur + comp' (first_unmatched mask n) j) comp' n
                 (count_allocation (push_pair (first_unmatched mask n, j) st), memo) ;;
         Ok (pop_pair (fst s'), snd s'))
      (st, memo0)).
  { intros memo0. apply for_each_ext. intros j [st1 memo1] Hj.
    destruct (candidates_in_range comp' n mask j Hj) as [Hi Hjn].
    rewrite (Hsame _ _ Hi Hjn), IH. reflexivity. }
  destruct (memo !! mask) as [ub_val|].
  - destruct (Qle_bool (cur + ub_val) (best_score st)); [reflexivity|apply Hbody].
  - destruct (Qle_bool (cur + compute_upper_bound mask comp' n) (best_score st));
      [reflexivity|apply Hbody].
Qed.

End Extensionality.

(** ** An instance of [np.argsort] and concrete inputs *)

Lemma insert_position_perm a k l : Permutation (insert_position a k l) (k :: l).
Proof.
  induction l as [|h t IH]; simpl; [reflexivity|].
  destruct (Qlt_le_dec (nth k a 0) (nth h a 0)); [reflexivity|].
  rewrite IH. apply perm_swap.
Qed.

Lemma insertion_argsort_perm a : Permutation (insertion_argsort a) (seq 0 (length a)).
Proof.
  unfold insertion_argsort.
  assert (H : forall ks acc,
            Permutation (fold_left (fun sorted k => insert_position a k sorted) ks acc)
              (ks ++ acc)).
  { induction ks as [|k ks IH]; intros acc; simpl; [reflexivity|].
    rewrite IH, insert_position_perm. symmetry. apply Permutation_middle. }
  rewrite H, app_nil_r. reflexivity.
Qed.

Lemma insert_position_ascending a k l :
  ascending a l -> ascending a (insert_position a k l).
Proof.
  unfold ascending. induction l as [|h t IH]; intros Hs; simpl.
  - repeat constructor.
  - destruct (Qlt_le_dec (nth k a 0) (nth h a 0)) as [Hlt|Hle].
    + constructor; [assumption|]. constructor. lra.
    + inversion Hs as [|? ? Ht Hhd]; subst. constructor; [apply IH; assumption|].
      destruct t as [|h' t']; simpl.
      * constructor. assumption.
      * destruct (Qlt_le_dec (nth k a 0) (nth h' a 0)).
        -- constructor. assumption.
        -- inversion Hhd; subst. constructor. assumption.
Qed.

Lemma insertion_argsort_ascending a : ascending a (insertion_argsort a).
Proof.
  unfold insertion_argsort.
  assert (H : forall ks acc, ascending a acc ->
            ascending a (fold_left (fun sorted k => insert_position a k sorted) ks acc)).
  { induction ks as [|k ks IH]; intros acc Hacc; simpl; [assumption|].
    apply IH, insert_position_ascending, Hacc. }
  apply H. constructor.
Qed.

Lemma scenario_A_symmetric : symmetric 4 scenario_A.
Proof.
  intros i j Hi Hj.
  destruct i as [|[|[|[|i]]]]; try lia; destruct j as [|[|[|[|j]]]]; try lia; reflexivity.
Qed.

Lemma scenario_A_non_negative : non_negative 4 scenario_A.
Proof.
  intros i j Hi Hj _.
  destruct i as [|[|[|[|i]]]]; try lia; destruct j as [|[|[|[|j]]]]; try lia;
    cbn; lra.
Qed.

Lemma scenario_A_padded_same : same_entries 4 scenario_A scenario_A_padded.
Proof.
  intros i j Hi Hj. unfold scenario_A_padded.
  destruct (Nat.ltb_spec i 4); [|lia]. destruct (Nat.ltb_spec j 4); [|lia]. reflexivity.
Qed.

Lemma zero_matrix_symmetric n : symmetric n zero_matrix.
Proof. intros i j _ _. reflexivity. Qed.

Lemma zero_matrix_non_negative n : non_negative n zero_matrix.
Proof. intros i j _ _ _. unfold zero_matrix. lra. Qed.

(** ** No function of the solver raises *)




(** ** The recorded runs of the notebooks and scenario A *)

(** The allocation counts printed for 6, 10 and 20 students. *)
Example enum_count_recorded :
  enum_count 6 = 35%Z /\ enum_count 10 = 2277%Z /\ enum_count 20 = 1578346302%Z.
Proof. repeat split; reflexivity. Qed.

Example scenario_A_branch_and_bound :
  branch_and_bound_numba insertion_argsort scenario_A 4
  = Ok (10, [(0, 1); (2, 3)]%nat, 4%Z).
Proof. vm_compute. reflexivity. Qed.

Example scenario_A_exhaustive :
  exhaustive_search_wrapper scenario_A 4 = Ok (10, [(0, 1); (2, 3)]%nat, 6%Z).
Proof. vm_compute. reflexivity. Qed.

(** The states logged on scenario A: the full mask, [{2, 3}], the empty state,
    and the two pruned states [{1, 2}] and [{1, 3}]. *)
Example scenario_A_log :
  exists st memo,
    search_log insertion_argsort 5 (full_mask 4) 0 scenario_A 4 (initial_tracker, ∅, [])
    = Ok (st, memo, [15; 12; 0; 6; 10]%Z).
Proof. eexists. eexists. vm_compute. reflexivity. Qed.

(** ** The states the search is invoked on *)

Section Calls.
Variable argsort : list Q -> list nat.
Hypothesis argsort_perm : forall a, Permutation (argsort a) (seq 0 (length a)).

(** A call on a non-empty state either returns at the pruning test or runs
    the loop whose recursive calls are on the [child] states. *)
Lemma search_recursive_calls fuel mask cur comp n st memo :
  mask <> 0%Z ->
  exists memo',
    search argsort (S fuel) mask cur comp n (st, memo) = Ok (st, memo')
    \/ search argsort (S fuel) mask cur comp n (st, memo)
       = for_each (sorted_candidates argsort comp n (first_unmatched mask n)
                     (clear mask (first_unmatched mask n)))
           (fun j '(st, memo) =>
              s' <- search argsort fuel (child n mask j)
                      (cur + comp (first_unmatched mask n) j) comp n
                      (count_allocation (push_pair (first_unmatched mask n, j) st), memo) ;;
              Ok (pop_pair (fst s'), snd s'))
           (st, memo').
Proof.
  intros Hne. cbn [search]. destruct (Z.eqb_spec mask 0) as [|_]; [contradiction|].
  destruct (memo !! mask) as [ub_val|].
  - exists memo. destruct (Qle_bool (cur + ub_val) (best_score st));
      [left|right]; reflexivity.
  - exists (<[mask := compute_upper_bound mask comp n]> memo).
    destruct (Qle_bool (cur + compute_upper_bound mask comp n) (best_score st));
      [left|right]; reflexivity.
Qed.


(** Erasing the log of [search_log] gives [search]. *)
Lemma for_each_erases {A S L : Type} (body : A -> S * L -> res (S * L))
    (body' : A -> S -> res S) (l : list A) :
  (forall x s log, erases (body x (s, log)) (body' x s)) ->
  forall s log, erases (for_each l body (s, log)) (for_each l body' s).
Proof.
  intros Hbody. induction l as [|x l IH]; intros s log; [reflexivity|].
  cbn [for_each]. specialize (Hbody x s log).
  destruct (body x (s, log)) as [[s1 log1]|e|], (body' x s) as [s1'|e'|];
    cbn [bind erases] in *; try contradiction; try assumption.
  subst s1'. apply IH.
Qed.

Lemma search_log_erase fuel :
  forall mask cur comp n st memo log,
    erases (search_log argsort fuel mask cur comp n (st, memo, log))
           (search argsort fuel mask cur comp n (st, memo)).
Proof.
  induction fuel as [|fuel IH]; intros mask cur comp n st memo log; [exact I|].
  cbn [search_log search]. destruct (mask =? 0)%Z; [reflexivity|].
  assert (Hloop : forall memo0,
    erases
      (for_each (sorted_candidates argsort comp n (first_unmatched mask n)
                   (clear mask (first_unmatched mask n)))
         (fun j '(st, memo, log) =>
            s' <- search_log argsort fuel (clear (clear mask (first_unmatched mask n)) j)
                    (cur + comp (first_unmatched mask n) j) comp n
                    (count_allocation (push_pair (first_unmatched mask n, j) st), memo, log) ;;
            Ok (pop_pair (fst (fst s')), snd (fst s'), snd s'))
         (st, memo0, log ++ [mask]))
      (for_each (sorted_candidates argsort comp n (first_unmatched mask n)
                   (clear mask (first_unmatched mask n)))
         (fun j '(st, memo) =>
            s' <- search argsort fuel (clear (clear mask (first_unmatched mask n)) j)
                    (cur + comp (first_unmatched mask n) j) comp n
                    (count_allocation (push_pair (first_unmatched mask n, j) st), memo) ;;
            Ok (pop_pair (fst s'), snd s'))
         (st, memo0))).
  { intros memo0. apply for_each_erases. intros j [st1 memo1] log1.
    specialize (IH (clear (clear mask (first_unmatched mask n)) j)
                  (cur + comp (first_unmatched mask n) j) comp n
                  (count_allocation (push_pair (first_unmatched mask n, j) st1))
                  memo1 log1).
    destruct (search_log argsort fuel _ _ comp n _) as [[[st2 memo2] log2]|e|],
             (search argsort fuel _ _ comp n _) as [s2|e'|];
      cbn [bind erases] in *; try contradiction; try assumption.
    subst s2. reflexivity. }
  destruct (memo !! mask) as [ub_val|].
  - destruct (Qle_bool (cur + ub_val) (best_score st)); [reflexivity|apply Hloop].
  - destruct (Qle_bool (cur + compute_upper_bound mask comp n) (best_score st));
      [reflexivity|apply Hloop].
Qed.

Lemma for_each_preserves {A S : Type} (Inv : S -> Prop) (body : A -> S -> res S)
    (l : list A) :
  (forall x s s', In x l -> Inv s -> body x s = Ok s' -> Inv s') ->
  forall s s', Inv s -> for_each l body s = Ok s' -> Inv s'.
Proof.
  induction l as [|x l IH]; intros Hbody s s' Hs Hrun.
  - injection Hrun as <-. exact Hs.
  - cbn [for_each] in Hrun. destruct (body x s) as [s1|e|] eqn:E; try discriminate.
    cbn [bind] in Hrun. apply (IH (fun y t t' Hy => Hbody y t t' (or_intror Hy)) s1 s').
    + apply (Hbody x s s1); simpl; auto.
    + exact Hrun.
Qed.


End Calls.

(** ** The allocation counters *)

Lemma enum_count_fits n : (n <= 32)%nat -> (enum_count n < 2 ^ 63)%Z.
Proof.
  intros Hn. do 33 (destruct n as [|n]; [vm_compute; reflexivity|]). lia.
Qed.

(** The oracle's counter depends on [n] alone: it is the size of the
    enumeration tree, reduced to 64 bits. *)
Lemma exhaustive_counter comp n :
  (n <= 63)%nat ->
  exists s p, exhaustive_search_wrapper comp n = Ok (s, p, Int64.wrap (enum_count n)).
Proof.
  intros Hn. destruct (exhaustive_search_wrapper_post comp n Hn) as (st & Hrun & Hpost).
  exists (best_score st), (best_pairs st). rewrite Hrun.
  destruct Hpost as [_ _ _ (k & _ & Hw & Hk) Hr _ _].
  rewrite length_seq in Hk. rewrite (Hk eq_refl) in Hw.
  change (allocations initial_tracker) with 0%Z in Hw. rewrite Z.add_0_l in Hw.
  rewrite <- Hw. rewrite wrap_small; [reflexivity|].
  apply Hr. simpl. unfold Int64.in_range, Int64.half_modulus. lia.
Qed.

Lemma branch_and_bound_counter (argsort : list Q -> list nat) comp n :
  (forall a, Permutation (argsort a) (seq 0 (length a))) ->
  (n <= 63)%nat ->
  exists s p k,
    branch_and_bound_numba argsort comp n = Ok (s, p, Int64.wrap k)
    /\ (0 <= k <= enum_count n)%Z.
Proof.
  intros Hperm Hn.
  destruct (branch_and_bound_numba_post argsort Hperm comp n Hn) as (st & Hrun & Hpost).
  destruct Hpost as [_ _ _ (k & Hk & Hw & _) Hr _ _].
  exists (best_score st), (best_pairs st), k. rewrite Hrun.
  rewrite length_seq in Hk. split; [|exact Hk].
  change (allocations initial_tracker) with 0%Z in Hw. rewrite Z.add_0_l in Hw.
  rewrite <- Hw. rewrite wrap_small; [reflexivity|].
  apply Hr. simpl. unfold Int64.in_range, Int64.half_modulus. lia.
Qed.

(** ** The pairing decisions of a run *)

Local Open Scope Z_scope.

Section Decisions.
Variable argsort : list Q -> list nat.
Hypothesis argsort_perm : forall a, Permutation (argsort a) (seq 0 (length a)).

(** The log grows by the state of the call and by one state for every
    pairing decision below it; the counter grows by the number of these
    decisions, which is at most the size of the enumeration tree. *)
Lemma search_log_decisions comp n fuel :
  (n <= 63)%nat ->
  forall mask cur st memo log,
    wf_mask n mask -> (length (members n mask) < fuel)%nat ->
    exists st' memo' calls,
      search_log argsort fuel mask cur comp n (st, memo, log)
      = Ok (st', memo', log ++ mask :: calls)
      /\ Z.of_nat (length calls) <= enum_count (length (members n mask))
      /\ Int64.wrap (allocations st')
         = Int64.wrap (allocations st + Z.of_nat (length calls)).
Proof.
  intros Hn. induction fuel as [|fuel IH]; intros mask cur st memo log Hwf Hfuel; [lia|].
  cbn [search_log]. destruct (Z.eqb_spec mask 0) as [->|Hne].
  { exists (base_case cur st), memo, []. split; [reflexivity|].
    split; [apply enum_count_nonneg|].
    unfold base_case. destruct (Qlt_le_dec (best_score st) cur); simpl;
      rewrite Z.add_0_r; reflexivity. }
  assert (Hstay : exists calls : list Z,
            log ++ [mask] = log ++ mask :: calls
            /\ Z.of_nat (length calls) <= enum_count (length (members n mask))
            /\ Int64.wrap (allocations st)
               = Int64.wrap (allocations st + Z.of_nat (length calls))).
  { exists []. split; [reflexivity|]. split; [apply enum_count_nonneg|].
    simpl. rewrite Z.add_0_r. reflexivity. }
  destruct (members n mask) as [|i rest] eqn:Hmem.
  { exfalso. apply Hne. apply (members_nil n); assumption. }
  assert (Hexpand : forall memo0,
    exists st' memo' calls,
      for_each (sorted_candidates argsort comp n (first_unmatched mask n)
                  (clear mask (first_unmatched mask n)))
        (fun j '(st, memo, log) =>
           s' <- search_log argsort fuel (clear (clear mask (first_unmatched mask n)) j)
                   (cur + comp (first_unmatched mask n) j)%Q comp n
                   (count_allocation (push_pair (first_unmatched mask n, j) st), memo, log) ;;
           Ok (pop_pair (fst (fst s')), snd (fst s'), snd s'))
        (st, memo0, log ++ [mask]) = Ok (st', memo', log ++ mask :: calls)
      /\ Z.of_nat (length calls) <= enum_count (length (i :: rest))
      /\ Int64.wrap (allocations st')
         = Int64.wrap (allocations st + Z.of_nat (length calls))).
  { intros memo0.
    rewrite (first_unmatched_members n mask i rest Hmem).
    assert (Hnd : NoDup (i :: rest)) by (rewrite <- Hmem; apply members_NoDup).
    assert (Hlt : forall k, In k (i :: rest) -> (k < n)%nat).
    { intros k Hk. rewrite <- Hmem in Hk. eapply members_lt; eassumption. }
    assert (Hi : (i <= 62)%nat) by (specialize (Hlt i (or_introl eq_refl)); lia).
    assert (Hrest : members n (clear mask i) = rest).
    { rewrite members_clear, Hmem by assumption. apply without_head; assumption. }
    assert (Hcs : Permutation (sorted_candidates argsort comp n i (clear mask i)) rest).
    { rewrite <- Hrest. apply sorted_candidates_perm. exact argsort_perm. }
    destruct (for_each_invariant
                (fun done (s : tracker * gmap Z Q * list Z) =>
                   exists calls,
                     snd s = log ++ mask :: calls
                     /\ Z.of_nat (length calls)
                        <= Z.of_nat (length done) * (1 + enum_count (length rest - 1))
                     /\ Int64.wrap (allocations (fst (fst s)))
                        = Int64.wrap (allocations st + Z.of_nat (length calls)))
                (fun j '(st, memo, log) =>
                   s' <- search_log argsort fuel (clear (clear mask i) j)
                           (cur + comp i j)%Q comp n
                           (count_allocation (push_pair (i, j) st), memo, log) ;;
                   Ok (pop_pair (fst (fst s')), snd (fst s'), snd s'))
                (sorted_candidates argsort comp n i (clear mask i))
                (st, memo0, log ++ [mask]))
      as ([[st' memo'] log'] & Hrun & calls & Hlog & Hlen & Halloc).
    - exists []. split; [reflexivity|]. split; [simpl; lia|].
      simpl. rewrite Z.add_0_r. reflexivity.
    - intros done j [[stk memok] logk] Hj (callsk & Hlogk & Hlenk & Hallock).
      simpl in Hlogk, Hallock. subst logk.
      apply (Permutation_in _ Hcs) in Hj.
      assert (Hj62 : (j <= 62)%nat) by (specialize (Hlt j (or_intror Hj)); lia).
      pose proof (proj2 (proj1 (NoDup_cons_iff i rest) Hnd)) as Hnd'.
      pose proof (without_length j rest Hnd' Hj) as Hwl.
      destruct (IH (clear (clear mask i) j) (cur + comp i j)%Q
                  (count_allocation (push_pair (i, j) stk)) memok
                  (log ++ mask :: callsk))
        as (st2 & memo2 & calls2 & Hcall & Hlen2 & Halloc2).
      + apply wf_mask_clear; [assumption|]. apply wf_mask_clear; assumption.
      + rewrite members_clear, Hrest by assumption. simpl in Hfuel. lia.
      + rewrite members_clear, Hrest in Hlen2 by assumption.
        exists (pop_pair st2, memo2, (log ++ mask :: callsk) ++ clear (clear mask i) j :: calls2).
        rewrite Hcall. split; [reflexivity|].
        exists (callsk ++ clear (clear mask i) j :: calls2). split; [|split].
        * simpl. rewrite <- app_assoc. reflexivity.
        * rewrite !length_app. cbn [length].
          replace (length rest - 1)%nat with (length (without j rest)) by lia.
          replace (length (without j rest) + 0)%nat with (length (without j rest)) in * by lia.
          rewrite !Nat2Z.inj_add, Nat2Z.inj_succ.
          replace (length rest - 1)%nat with (length (without j rest)) in Hlenk by lia.
          change (Z.of_nat 1) with 1. change (Z.of_nat 0) with 0. nia.
        * simpl. simpl in Halloc2. rewrite Halloc2. rewrite wrap_add_l.
          rewrite length_app. cbn [length]. rewrite Nat2Z.inj_add, Nat2Z.inj_succ.
          replace (allocations stk + 1 + Z.of_nat (length calls2))
            with (allocations stk + (1 + Z.of_nat (length calls2))) by lia.
          replace (allocations st + (Z.of_nat (length callsk) + Z.succ (Z.of_nat (length calls2))))
            with (allocations st + Z.of_nat (length callsk) + (1 + Z.of_nat (length calls2)))
            by lia.
          apply wrap_congr. exact Hallock.
    - simpl in Hlog, Halloc. subst log'. exists st', memo', calls.
      split; [exact Hrun|]. split; [|exact Halloc].
      rewrite (Permutation_length Hcs) in Hlen.
      change (length (i :: rest)) with (S (length rest)). rewrite enum_count_S.
      exact Hlen. }
  destruct (memo !! mask) as [ub_val|].
  - destruct (Qle_bool (cur + ub_val) (best_score st)).
    + destruct Hstay as (calls & Hl & Hc & Ha). exists st, memo, calls.
      rewrite <- Hl. auto.
    + apply Hexpand.
  - destruct (Qle_bool (cur + compute_upper_bound mask comp n) (best_score st)).
    + destruct Hstay as (calls & Hl & Hc & Ha).
      exists st, (<[mask := compute_upper_bound mask comp n]> memo), calls.
      rewrite <- Hl. auto.
    + apply Hexpand.
Qed.

End Decisions.

(** ** The full mask beyond 63 students *)

Lemma full_mask_mod n : full_mask n = full_mask (n mod 64).
Proof.
  unfold full_mask, Int64.shl. rewrite Nat2Z.inj_mod. change (Z.of_nat 64) with 64.
  rewrite Z.mod_mod by lia. reflexivity.
Qed.

Lemma full_mask_value n : full_mask n = 2 ^ (Z.of_nat n mod 64) - 1.
Proof.
  rewrite full_mask_mod, full_mask_small.
  - rewrite Nat2Z.inj_mod. reflexivity.
  - pose proof (Nat.mod_upper_bound n 64). lia.
Qed.

Lemma full_mask_misses n : (64 <= n)%nat -> has (full_mask n) (n mod 64) = false.
Proof.
  intros Hn. pose proof (Nat.mod_upper_bound n 64 ltac:(lia)) as Hr.
  rewrite full_mask_mod.
  destruct (Nat.eq_dec (n mod 64) 63) as [->|Hne]; [vm_compute; reflexivity|].
  rewrite has_testbit, full_mask_small by lia.
  replace (2 ^ Z.of_nat (n mod 64) - 1) with (Z.ones (Z.of_nat (n mod 64)))
    by (rewrite Z.ones_equiv; lia).
  apply Z.ones_spec_high. lia.
Qed.

Local Open Scope Q_scope.

(** * The claims *)

(** C1: the claim is right and the code misses it by rounding.  On
    [rounding_matrix], six students, symmetric and without negative weights,
    [branch_and_bound_numba] returns [0.7] with the pairing
    [(0,1), (2,4), (3,5)], while [exhaustive_search_wrapper] returns
    [0.7000000000000001] with [(0,3), (1,5), (2,4)]: at the state
    [{1, 2, 4, 5}] the test [0.1 + 0.6 <= 0.7] holds in binary64 and prunes
    the branch of the better pairing. *)
Theorem binary64_branch_and_bound_below_oracle :
  Nat.even 6 = true
  /\ (forall i j, rounding_matrix i j = rounding_matrix j i)
  /\ (forall i j, PrimFloat.leb 0 (rounding_matrix i j) = true)
  /\ (exists a,
        Binary64.branch_and_bound_numba Binary64.insertion_argsort rounding_matrix 6
        = Ok (0x1.6666666666666p-1%float, [(0, 1); (2, 4); (3, 5)]%nat, a))
  /\ Binary64.exhaustive_search_wrapper rounding_matrix 6
     = Ok (0x1.6666666666667p-1%float, [(0, 3); (1, 5); (2, 4)]%nat, 35%Z)
  /\ PrimFloat.ltb 0x1.6666666666666p-1 0x1.6666666666667p-1 = true
  /\ PrimFloat.leb
       (0x1.999999999999ap-4 + Binary64.compute_upper_bound 54 rounding_matrix 6)
       0x1.6666666666666p-1 = true.
Proof.
  split; [reflexivity|]. split.
  { intros i j.
    destruct i as [|[|[|[|[|[|i]]]]]]; destruct j as [|[|[|[|[|[|j]]]]]]; reflexivity. }
  split.
  { intros i j.
    destruct i as [|[|[|[|[|[|i]]]]]]; destruct j as [|[|[|[|[|[|j]]]]]]; reflexivity. }
  split; [eexists; vm_compute; reflexivity|].
  split; [vm_compute; reflexivity|].
  split; vm_compute; reflexivity.
Qed.

(** C2: the claim is right and the code misses it by rounding.  On the state
    [{1, 2, 4, 5}] of [rounding_matrix] the bound is
    [((((0.0 + 0.2) + 0.4) + 0.4) + 0.2) / 2.0 = 0.6], below the score
    [0.2 + 0.4 = 0.6000000000000001] of the perfect matching
    [(1,5), (2,4)] of that state. *)
Theorem binary64_bound_below_matching :
  members 6 54 = [1; 2; 4; 5]%nat
  /\ perfect_matching (members 6 54) [(1, 5); (2, 4)]%nat
  /\ Binary64.compute_upper_bound 54 rounding_matrix 6 = 0x1.3333333333333p-1%float
  /\ Binary64.score rounding_matrix [(1, 5); (2, 4)]%nat = 0x1.3333333333334p-1%float
  /\ PrimFloat.ltb (Binary64.compute_upper_bound 54 rounding_matrix 6)
       (Binary64.score rounding_matrix [(1, 5); (2, 4)]%nat) = true.
Proof.
  split; [reflexivity|]. split.
  { change (members 6 54) with [1; 2; 4; 5]%nat. unfold perfect_matching, flatten. simpl.
    apply perm_skip. apply Permutation_trans with [2; 5; 4]%nat.
    - apply perm_swap.
    - apply perm_skip. apply perm_swap. }
  split; [vm_compute; reflexivity|]. split; vm_compute; reflexivity.
Qed.




(** C4, as stated, fails: the initial best score is the finite [-1e9], and
    with two students whose pair scores [-2e9] the only complete pairing is
    reached (one allocation) and not recorded. *)
Lemma sentinel_misses_first_pairing :
  best_score initial_tracker = (- 1000000000 # 1)
  /\ Qle_bool (0 + compute_upper_bound (full_mask 2) very_negative 2) sentinel = false
  /\ branch_and_bound_numba insertion_argsort very_negative 2 = Ok (sentinel, [], 1%Z).
Proof. repeat split; vm_compute; reflexivity. Qed.

(** C4, amended: the initial best score is [-1e9]; a complete pairing reached
    while the tracker still holds it is recorded when its score is above
    [-1e9], and for every even [n <= 63] and non-negative weights the call
    returns a score above [-1e9] together with a complete pairing. *)
Theorem sentinel_records_first_pairing (argsort : list Q -> list nat)
    (comp : matrix) (n : nat) :
  (forall a, Permutation (argsort a) (seq 0 (length a))) ->
  (n <= 63)%nat -> Nat.even n = true -> non_negative n comp ->
  best_score initial_tracker = sentinel
  /\ (forall fuel cur st memo,
        best_score st = sentinel -> sentinel < cur ->
        search argsort (S fuel) 0 cur comp n (st, memo) = Ok (record_best cur st, memo)
        /\ best_score (record_best cur st) = cur
        /\ best_pairs (record_best cur st) = current_pairs st)
  /\ exists s p a,
       branch_and_bound_numba argsort comp n = Ok (s, p, a)
       /\ sentinel < s /\ perfect_matching (seq 0 n) p.
Proof.
  intros Hperm Hn Hev Hnneg. split; [reflexivity|]. split.
  - intros fuel cur st memo Hs Hcur. cbn [search]. simpl (0 =? 0)%Z. cbv iota.
    unfold base_case. rewrite Hs.
    destruct (Qlt_le_dec sentinel cur) as [_|Hle]; [|lra].
    split; [reflexivity|]. split; [reflexivity|apply record_best_pairs].
  - destruct (branch_and_bound_numba_post argsort Hperm comp n Hn) as (st & Hrun & Hpost).
    exists (best_score st), (best_pairs st), (allocations st). split; [exact Hrun|].
    destruct Hpost as [_ _ Hbest _ _ _ Hnn].
    assert (H0 : 0 <= best_score st).
    { apply Hnn; [assumption|rewrite length_seq; assumption|lra]. }
    split; [unfold sentinel; lra|].
    destruct Hbest as [[Hu _]|(m & Hm & Hbp & _)].
    + exfalso. rewrite Hu in H0. simpl in H0. unfold sentinel in H0. lra.
    + simpl in Hbp. rewrite Hbp. exact Hm.
Qed.

Lemma sentinel_records_first_pairing_witness :
  exists s p a,
    branch_and_bound_numba insertion_argsort scenario_A 4 = Ok (s, p, a)
    /\ sentinel < s /\ perfect_matching (seq 0 4) p.
Proof.
  apply (sentinel_records_first_pairing insertion_argsort scenario_A 4
           insertion_argsort_perm);
    [lia | reflexivity | exact scenario_A_non_negative].
Defined.

(** C5, as stated, fails: with 64 students [1 << 64] is [1], the full mask is
    [0], the search stops in its base case at once and returns the empty
    pairing, in which no student appears. *)
Lemma sixty_four_students_left_unpaired :
  Nat.even 64 = true
  /\ full_mask 64 = 0%Z
  /\ branch_and_bound_numba insertion_argsort zero_matrix 64 = Ok (0%Q, [], 0%Z)
  /\ length (filter (mentions 0) ([] : list pair_type)) = 0%nat.
Proof. repeat split; vm_compute; reflexivity. Qed.

(** C5, amended: for every even [n] with [2 <= n <= 63] and every symmetric
    matrix of non-negative weights, the pairing [branch_and_bound_numba]
    returns is a perfect matching of the students [0 .. n-1]: every student
    is in exactly one returned pair, and no pair holds the same student
    twice. *)
Theorem best_pairing_is_perfect_matching (argsort : list Q -> list nat)
    (comp : matrix) (n : nat) :
  (forall a, Permutation (argsort a) (seq 0 (length a))) ->
  (2 <= n <= 63)%nat -> Nat.even n = true ->
  symmetric n comp -> non_negative n comp ->
  exists s p a,
    branch_and_bound_numba argsort comp n = Ok (s, p, a)
    /\ perfect_matching (seq 0 n) p
    /\ (forall i, (i < n)%nat -> length (filter (mentions i) p) = 1%nat)
    /\ (forall pr, In pr p -> fst pr <> snd pr).
Proof.
  intros Hperm Hn Hev _ Hnneg.
  destruct (branch_and_bound_numba_post argsort Hperm comp n) as (st & Hrun & Hpost);
    [lia|].
  exists (best_score st), (best_pairs st), (allocations st). split; [exact Hrun|].
  destruct Hpost as [_ _ Hbest _ _ _ Hnn].
  assert (H0 : 0 <= best_score st).
  { apply Hnn; [assumption|rewrite length_seq; assumption|lra]. }
  destruct Hbest as [[Hu _]|(m & Hm & Hbp & _)].
  - exfalso. rewrite Hu in H0. simpl in H0. unfold sentinel in H0. lra.
  - simpl in Hbp. rewrite Hbp.
    assert (Hnd : NoDup (flatten m)).
    { eapply Permutation_NoDup; [symmetry; exact Hm|apply seq_NoDup]. }
    split; [exact Hm|]. split.
    + intros i Hi. apply mentioned_once; [assumption|].
      eapply Permutation_in; [symmetry; exact Hm|]. apply in_seq. lia.
    + intros pr Hpr. eapply matching_pairs_distinct; eassumption.
Qed.

Lemma best_pairing_is_perfect_matching_witness :
  exists s p a,
    branch_and_bound_numba insertion_argsort scenario_A 4 = Ok (s, p, a)
    /\ perfect_matching (seq 0 4) p
    /\ (forall i, (i < 4)%nat -> length (filter (mentions i) p) = 1%nat)
    /\ (forall pr, In pr p -> fst pr <> snd pr).
Proof.
  apply (best_pairing_is_perfect_matching insertion_argsort scenario_A 4
           insertion_argsort_perm);
    [lia | reflexivity | exact scenario_A_symmetric | exact scenario_A_non_negative].
Defined.

(** C6: two invocations of [branch_and_bound_numba] on the same [n] and on
    arrays with the same [n] x [n] entries have the same outcome: the same
    best score, the same pairs in the same order, the same counter. *)
Theorem branch_and_bound_deterministic (argsort : list Q -> list nat)
    (comp comp' : matrix) (n : nat) :
  (forall a, Permutation (argsort a) (seq 0 (length a))) ->
  same_entries n comp comp' ->
  branch_and_bound_numba argsort comp n = branch_and_bound_numba argsort comp' n.
Proof.
  intros Hperm Hsame. unfold branch_and_bound_numba.
  rewrite (search_ext argsort Hperm comp comp' n Hsame). reflexivity.
Qed.

Lemma branch_and_bound_deterministic_witness :
  branch_and_bound_numba insertion_argsort scenario_A 4
  = branch_and_bound_numba insertion_argsort scenario_A_padded 4.
Proof.
  apply (branch_and_bound_deterministic insertion_argsort scenario_A scenario_A_padded 4
           insertion_argsort_perm scenario_A_padded_same).
Defined.



(** C8, as stated, fails: with 34 students the enumeration tree has
    15266055345854640657 edges, more than an [int64] holds; the oracle's
    counter wraps to a negative number, below the 289 allocations of the
    branch and bound on the all-zero matrix. *)
Lemma oracle_counter_wraps :
  (exists s p, branch_and_bound_numba insertion_argsort zero_matrix 34
               = Ok (s, p, 289%Z))
  /\ (exists s p, exhaustive_search_wrapper zero_matrix 34
                  = Ok (s, p, (-3180688727854910959)%Z))
  /\ ~ (289 <= -3180688727854910959)%Z.
Proof.
  split; [|split].
  - eexists. eexists. vm_compute. reflexivity.
  - destruct (exhaustive_counter zero_matrix 34) as (s & p & H); [lia|].
    exists s, p. rewrite H. reflexivity.
  - lia.
Qed.

(** C8, amended: for every matrix and every even [n <= 63] the branch and
    bound makes at most as many pairing decisions as the oracle.  The
    decisions of the branch and bound are the recursive calls of its run,
    which [search_log] lists after the full mask; the oracle makes as many
    as the enumeration tree has edges.  The counters returned are these two
    numbers reduced to 64 bits, and the returned counter of the branch and
    bound is at most the oracle's whenever [n <= 32], where the size of the
    enumeration tree fits an [int64]. *)
Theorem node_count_bounded_by_oracle (argsort : list Q -> list nat)
    (comp : matrix) (n : nat) :
  (forall a, Permutation (argsort a) (seq 0 (length a))) ->
  (n <= 63)%nat -> Nat.even n = true ->
  exists st memo calls s2 p2,
    search_log argsort (S n) (full_mask n) 0 comp n (initial_tracker, ∅, [])
    = Ok (st, memo, full_mask n :: calls)
    /\ branch_and_bound_numba argsort comp n
       = Ok (best_score st, best_pairs st, Int64.wrap (Z.of_nat (length calls)))
    /\ exhaustive_search_wrapper comp n = Ok (s2, p2, Int64.wrap (enum_count n))
    /\ (Z.of_nat (length calls) <= enum_count n)%Z
    /\ ((n <= 32)%nat ->
        (Int64.wrap (Z.of_nat (length calls)) <= Int64.wrap (enum_count n))%Z).
Proof.
  intros Hperm Hn _.
  destruct (search_log_decisions argsort Hperm comp n (S n) Hn (full_mask n) 0%Q
              initial_tracker ∅ [])
    as (st & memo & calls & Hlog & Hlen & Halloc).
  { apply full_mask_wf. exact Hn. }
  { pose proof (members_length n (full_mask n)). lia. }
  rewrite full_mask_members, length_seq in Hlen by exact Hn.
  destruct (branch_and_bound_numba_post argsort Hperm comp n Hn) as (st1 & Hrun & Hpost).
  destruct (exhaustive_counter comp n Hn) as (s2 & p2 & Horacle).
  pose proof (search_log_erase argsort (S n) (full_mask n) 0%Q comp n initial_tracker ∅ [])
    as Herase.
  rewrite Hlog in Herase. unfold branch_and_bound_numba in Hrun.
  destruct (search argsort (S n) (full_mask n) 0 comp n (initial_tracker, ∅))
    as [[st0 memo0]|e|]; cbn [erases bind] in Herase, Hrun; try contradiction.
  injection Herase as <- <-. simpl in Hrun.
  assert (Hst : allocations st = allocations st1) by congruence.
  assert (Hrange : Int64.in_range (allocations st)).
  { rewrite Hst. apply (post_range _ _ _ _ _ _ _ Hpost).
    simpl. unfold Int64.in_range, Int64.half_modulus. lia. }
  change (allocations initial_tracker) with 0%Z in Halloc. rewrite Z.add_0_l in Halloc.
  rewrite wrap_small in Halloc by exact Hrange.
  exists st, memo, calls, s2, p2.
  split; [exact Hlog|]. split.
  { unfold branch_and_bound_numba.
    pose proof (search_log_erase argsort (S n) (full_mask n) 0%Q comp n initial_tracker ∅ [])
      as Herase.
    rewrite Hlog in Herase.
    destruct (search argsort (S n) (full_mask n) 0 comp n (initial_tracker, ∅))
      as [[st0 memo0]|e|]; cbn [erases bind] in Herase |- *; try contradiction.
    injection Herase as <- <-. simpl. rewrite Halloc. reflexivity. }
  split; [exact Horacle|]. split; [exact Hlen|].
  intros Hn32. pose proof (enum_count_fits n Hn32).
  pose proof (Nat2Z.is_nonneg (length calls)).
  rewrite !wrap_small; unfold Int64.in_range, Int64.half_modulus; lia.
Qed.

Lemma node_count_bounded_by_oracle_witness :
  exists st memo calls s2 p2,
    search_log insertion_argsort 5 (full_mask 4) 0 scenario_A 4 (initial_tracker, ∅, [])
    = Ok (st, memo, full_mask 4 :: calls)
    /\ branch_and_bound_numba insertion_argsort scenario_A 4
       = Ok (best_score st, best_pairs st, Int64.wrap (Z.of_nat (length calls)))
    /\ exhaustive_search_wrapper scenario_A 4 = Ok (s2, p2, Int64.wrap (enum_count 4))
    /\ (Z.of_nat (length calls) <= enum_count 4)%Z
    /\ ((4 <= 32)%nat ->
        (Int64.wrap (Z.of_nat (length calls)) <= Int64.wrap (enum_count 4))%Z).
Proof.
  apply (node_count_bounded_by_oracle insertion_argsort scenario_A 4
           insertion_argsort_perm); [lia|reflexivity].
Defined.

(** C9: for [n = 0] the solver returns score [0] and an empty pairing, and
    raises nothing. *)
Theorem n_zero_returns_empty_pairing (argsort : list Q -> list nat) (comp : matrix) :
  branch_and_bound_numba argsort comp 0 = Ok (0, [], 0%Z).
Proof. reflexivity. Qed.

(** C10, as stated, fails: with 64 students the mask is not [2^64 - 1]
    reduced modulo [2^64], which is [-1] with all 64 bits set; the shift
    reads its count modulo 64, so that [1 << 64] is [1] and the mask is [0],
    the state without students.  With 65 students the mask is [1] and holds
    the students 0 and 64. *)
Lemma full_mask_shift_count_wraps :
  Int64.wrap (2 ^ 64 - 1) = (-1)%Z
  /\ members 64 (-1) = seq 0 64
  /\ Int64.shl 1 64 = 1%Z
  /\ full_mask 64 = 0%Z
  /\ members 64 (full_mask 64) = []
  /\ full_mask 65 = 1%Z
  /\ members 65 (full_mask 65) = [0; 64]%nat.
Proof. repeat split; vm_compute; reflexivity. Qed.

(** C10, amended: the full mask [np.int64((1 << n) - 1)] is an [int64] for
    every [n], with the value [2^(n mod 64) - 1], because the shift reads its
    count modulo 64.  Its students are all the [n] students exactly when
    [n <= 63]; then it is [2^n - 1], with exactly the bits [0 .. n-1] set.
    From [n = 64] on student [n mod 64] is not in it. *)
Theorem full_mask_int64_range (n : nat) :
  Int64.in_range (full_mask n)
  /\ full_mask n = (2 ^ (Z.of_nat n mod 64) - 1)%Z
  /\ (members n (full_mask n) = seq 0 n <-> (n <= 63)%nat)
  /\ ((n <= 63)%nat ->
      full_mask n = (2 ^ Z.of_nat n - 1)%Z
      /\ forall k, (0 <= k)%Z -> Z.testbit (full_mask n) k = (k <? Z.of_nat n)%Z)
  /\ ((64 <= n)%nat ->
      (n mod 64 < n)%nat /\ has (full_mask n) (n mod 64) = false
      /\ ~ In (n mod 64)%nat (members n (full_mask n))).
Proof.
  assert (Hmiss : (64 <= n)%nat ->
            (n mod 64 < n)%nat /\ has (full_mask n) (n mod 64) = false
            /\ ~ In (n mod 64)%nat (members n (full_mask n))).
  { intros Hn. pose proof (Nat.mod_upper_bound n 64 ltac:(lia)) as Hr.
    split; [lia|]. split; [apply full_mask_misses; exact Hn|].
    intros Hin. apply filter_In in Hin as [_ Hin].
    rewrite full_mask_misses in Hin by exact Hn. discriminate. }
  split; [|split; [|split; [|split]]].
  - unfold full_mask. apply wrap_in_range.
  - apply full_mask_value.
  - split.
    + intros Hall. destruct (le_lt_dec n 63) as [|Hn]; [assumption|].
      exfalso. destruct (Hmiss ltac:(lia)) as (Hlt & _ & Hnot).
      apply Hnot. rewrite Hall. apply in_seq. lia.
    + apply full_mask_members.
  - intros Hn. split; [apply full_mask_small; assumption|].
    intros k Hk. rewrite full_mask_small by assumption.
    replace (2 ^ Z.of_nat n - 1)%Z with (Z.ones (Z.of_nat n))
      by (rewrite Z.ones_equiv; lia).
    destruct (Z.ltb_spec k (Z.of_nat n)).
    + apply Z.ones_spec_low. lia.
    + apply Z.ones_spec_high. lia.
  - exact Hmiss.
Qed.

(** * Further properties of the drivers and of the kernels *)

Local Open Scope nat_scope.

(** ** Names and indices *)

Lemma sorted_insert_perm s l : Permutation (sorted_insert s l) (s :: l).
Proof.
  induction l as [|h t IH]; simpl; [reflexivity|].
  destruct (String.leb s h); [reflexivity|]. rewrite IH. apply perm_swap.
Qed.

Lemma sorted_perm l : Permutation (sorted l) l.
Proof.
  induction l as [|s l IH]; simpl; [reflexivity|].
  rewrite sorted_insert_perm, IH. reflexivity.
Qed.

Lemma sorted_insert_Sorted s l :
  Sorted (fun a b => String.leb a b = true) l ->
  Sorted (fun a b => String.leb a b = true) (sorted_insert s l).
Proof.
  induction l as [|h t IH]; intros Hs; simpl.
  - repeat constructor.
  - destruct (String.leb s h) eqn:E.
    + constructor; [assumption|]. constructor. exact E.
    + assert (Hhs : String.leb h s = true).
      { destruct (String.leb_total s h) as [H|H]; [congruence|exact H]. }
      inversion Hs as [|? ? Ht Hhd]; subst. constructor; [apply IH; assumption|].
      destruct t as [|h' t']; simpl.
      * constructor. exact Hhs.
      * destruct (String.leb s h'); constructor; [exact Hhs|].
        inversion Hhd; subst. assumption.
Qed.

Lemma sorted_Sorted l : Sorted (fun a b => String.leb a b = true) (sorted l).
Proof.
  induction l as [|s l IH]; simpl; [constructor|]. apply sorted_insert_Sorted, IH.
Qed.

Lemma student_names_In df name :
  In name (student_names df)
  <-> exists r, In r df /\ (name = student_1 r \/ name = student_2 r).
Proof.
  unfold student_names, py_set.
  split.
  - intros H. apply (Permutation_in _ (sorted_perm _)) in H.
    apply nodup_In in H. apply in_app_or in H.
    destruct H as [H|H]; apply in_map_iff in H; destruct H as (r & <- & Hr); eauto.
  - intros (r & Hr & Hn). apply (Permutation_in _ (Permutation_sym (sorted_perm _))).
    apply nodup_In. apply in_or_app.
    destruct Hn as [->| ->]; [left|right]; apply in_map; assumption.
Qed.

Lemma student_names_NoDup df : NoDup (student_names df).
Proof.
  unfold student_names, py_set.
  eapply Permutation_NoDup; [symmetry; apply sorted_perm|]. apply NoDup_nodup.
Qed.

Lemma index_to_student_from (l : list string) :
  forall k (d : gmap nat string) i,
    fold_left (fun d p => <[fst p := snd p]> d) (combine (seq k (length l)) l) d !! i
    = if (k <=? i) && (i <? k + length l) then nth_error l (i - k) else d !! i.
Proof.
  induction l as [|x l IH]; intros k d i; simpl.
  - destruct (k <=? i) eqn:E1; simpl; [|reflexivity].
    destruct (Nat.ltb_spec i (k + 0)); [|reflexivity]. apply Nat.leb_le in E1. lia.
  - rewrite IH.
    destruct (Nat.leb_spec (S k) i), (Nat.leb_spec k i), (Nat.ltb_spec i (S k + length l)),
      (Nat.ltb_spec i (k + S (length l))); simpl; try lia.
    + replace (i - k) with (S (i - S k)) by lia. reflexivity.
    + rewrite lookup_insert_ne by lia. reflexivity.
    + assert (i = k) by lia. subst i. rewrite lookup_insert_eq, Nat.sub_diag. reflexivity.
    + rewrite lookup_insert_ne by lia. reflexivity.
Qed.

Lemma index_to_student_lookup names i :
  index_to_student names !! i = nth_error names i.
Proof.
  unfold index_to_student, enumerate. rewrite index_to_student_from.
  rewrite Nat.sub_0_r. simpl.
  destruct (Nat.ltb_spec i (length names)); [reflexivity|].
  rewrite lookup_empty. symmetry. apply nth_error_None. lia.
Qed.

Lemma student_to_index_from (l : list string) :
  NoDup l ->
  forall k (d : gmap string nat) name,
    (forall p, nth_error l p = Some name ->
       fold_left (fun d p => <[snd p := fst p]> d) (combine (seq k (length l)) l) d !! name
       = Some (k + p))
    /\ (~ In name l ->
        fold_left (fun d p => <[snd p := fst p]> d) (combine (seq k (length l)) l) d !! name
        = d !! name).
Proof.
  induction l as [|x l IH]; intros Hnd k d name; simpl.
  - split; [intros [|p]; discriminate|reflexivity].
  - inversion Hnd as [|? ? Hx Hnd']; subst.
    destruct (IH Hnd' (S k) (<[x := k]> d) name) as [IH1 IH2]. split.
    + intros [|p] Hp; simpl in Hp.
      * injection Hp as ->. rewrite IH2 by assumption.
        rewrite lookup_insert_eq. f_equal. lia.
      * rewrite (IH1 p Hp). f_equal. lia.
    + intros Hni. rewrite IH2 by tauto. apply lookup_insert_ne. tauto.
Qed.

Lemma student_to_index_lookup names name i :
  NoDup names ->
  student_to_index names !! name = Some i <-> nth_error names i = Some name.
Proof.
  intros Hnd. unfold student_to_index, enumerate.
  destruct (student_to_index_from names Hnd 0 ∅ name) as [H1 H2]. split.
  - intros H. destruct (in_dec String.string_dec name names) as [Hin|Hni].
    + apply In_nth_error in Hin. destruct Hin as [p Hp].
      rewrite (H1 p Hp) in H. injection H as <-. exact Hp.
    + rewrite (H2 Hni), lookup_empty in H. discriminate.
  - intros H. rewrite (H1 i H). reflexivity.
Qed.

(** ** Filling the matrix *)

Lemma set_entry_pair comp i j v a b :
  set_entry (set_entry comp i j v) j i v a b
  = if ((a =? i) && (b =? j)) || ((a =? j) && (b =? i)) then v else comp a b.
Proof.
  unfold set_entry.
  destruct (a =? j), (b =? i), (a =? i), (b =? j); reflexivity.
Qed.

Lemma fill_matrix_app d df1 df2 comp :
  fill_matrix d (df1 ++ df2) comp
  = match fill_matrix d df1 comp with
    | Returned c => fill_matrix d df2 c
    | PyRaise e => PyRaise e
    | KernelRaise e => KernelRaise e
    | KernelOutOfFuel => KernelOutOfFuel
    end.
Proof.
  revert comp. induction df1 as [|r df1 IH]; intros comp; [reflexivity|].
  simpl. destruct (d !! student_1 r); [|reflexivity].
  destruct (d !! student_2 r); [|reflexivity]. apply IH.
Qed.

Lemma fill_matrix_returns d df comp :
  (forall r, In r df -> is_Some (d !! student_1 r) /\ is_Some (d !! student_2 r)) ->
  exists comp', fill_matrix d df comp = Returned comp'.
Proof.
  revert comp. induction df as [|r df IH]; intros comp H; simpl; [eauto|].
  destruct (H r (or_introl eq_refl)) as [[i ->] [j ->]].
  apply IH. intros r' Hr'. apply H. right. exact Hr'.
Qed.

Lemma fill_matrix_invariant (P : matrix -> Prop) d df :
  (forall comp i j v, P comp -> (exists r, In r df /\ d !! student_1 r = Some i
                                   /\ d !! student_2 r = Some j
                                   /\ compatibility_score r = v) ->
                      P (set_entry (set_entry comp i j v) j i v)) ->
  forall comp comp', P comp -> fill_matrix d df comp = Returned comp' -> P comp'.
Proof.
  induction df as [|r df IH]; intros Hstep comp comp' HP Hrun; simpl in Hrun.
  - injection Hrun as <-. exact HP.
  - destruct (d !! student_1 r) as [i|] eqn:Ei; [|discriminate].
    destruct (d !! student_2 r) as [j|] eqn:Ej; [|discriminate].
    apply (IH (fun c i' j' v HPc Hex => Hstep c i' j' v HPc
                 (match Hex with
                  | ex_intro _ r' (conj Hin Hrest) => ex_intro _ r' (conj (or_intror Hin) Hrest)
                  end))
              _ comp' (Hstep comp i j _ HP
                         (ex_intro _ r (conj (or_introl eq_refl)
                                          (conj Ei (conj Ej eq_refl))))) Hrun).
Qed.

Lemma fill_matrix_symmetric d df comp comp' :
  (forall a b, comp a b = comp b a) ->
  fill_matrix d df comp = Returned comp' ->
  forall a b, comp' a b = comp' b a.
Proof.
  apply (fill_matrix_invariant (fun c => forall a b, c a b = c b a)).
  intros c i j v Hc _ a b. rewrite !set_entry_pair, (Hc a b).
  destruct (a =? i), (b =? j), (a =? j), (b =? i); reflexivity.
Qed.

Lemma fill_matrix_untouched d df comp comp' a b :
  fill_matrix d df comp = Returned comp' ->
  (forall r i j, In r df -> d !! student_1 r = Some i -> d !! student_2 r = Some j ->
     ~ ((i = a /\ j = b) \/ (i = b /\ j = a))) ->
  comp' a b = comp a b.
Proof.
  revert comp. induction df as [|r df IH]; intros comp Hrun Hno; simpl in Hrun.
  - injection Hrun as <-. reflexivity.
  - destruct (d !! student_1 r) as [i|] eqn:Ei; [|discriminate].
    destruct (d !! student_2 r) as [j|] eqn:Ej; [|discriminate].
    rewrite (IH _ Hrun) by (intros r' i' j' Hin; apply Hno; right; exact Hin).
    rewrite set_entry_pair.
    pose proof (Hno r i j (or_introl eq_refl) Ei Ej) as Hn.
    destruct (Nat.eqb_spec a i), (Nat.eqb_spec b j), (Nat.eqb_spec a j), (Nat.eqb_spec b i);
      simpl; try reflexivity; exfalso; apply Hn; auto.
Qed.

Lemma student_to_index_inj names x y i :
  NoDup names ->
  student_to_index names !! x = Some i ->
  student_to_index names !! y = Some i -> x = y.
Proof.
  intros Hnd Hx Hy.
  apply (student_to_index_lookup names x i Hnd) in Hx.
  apply (student_to_index_lookup names y i Hnd) in Hy.
  congruence.
Qed.

Lemma student_to_index_lt names x i :
  NoDup names -> student_to_index names !! x = Some i -> i < length names.
Proof.
  intros Hnd Hx. apply (student_to_index_lookup names x i Hnd) in Hx.
  apply nth_error_Some. congruence.
Qed.

Lemma student_to_index_is_Some names x :
  NoDup names -> In x names -> is_Some (student_to_index names !! x).
Proof.
  intros Hnd Hin. apply In_nth_error in Hin as [i Hi].
  exists i. apply (student_to_index_lookup names x i Hnd). exact Hi.
Qed.

Lemma compatibility_matrix_returns df :
  exists comp, compatibility_matrix df = Returned comp.
Proof.
  apply fill_matrix_returns. intros r Hr.
  split; apply student_to_index_is_Some; try apply student_names_NoDup;
    apply student_names_In; exists r; auto.
Qed.

Lemma compatibility_matrix_symmetric df comp :
  compatibility_matrix df = Returned comp -> forall a b, comp a b = comp b a.
Proof. apply fill_matrix_symmetric. reflexivity. Qed.

Lemma compatibility_matrix_last_row df1 r df2 comp :
  compatibility_matrix (df1 ++ r :: df2) = Returned comp ->
  (forall r', In r' df2 -> ~ same_pair r r') ->
  exists i j,
    nth_error (student_names (df1 ++ r :: df2)) i = Some (student_1 r)
    /\ nth_error (student_names (df1 ++ r :: df2)) j = Some (student_2 r)
    /\ comp i j = compatibility_score r /\ comp j i = compatibility_score r.
Proof.
  unfold compatibility_matrix. set (names := student_names _).
  assert (Hnd : NoDup names) by apply student_names_NoDup.
  intros Hrun Hlast. rewrite fill_matrix_app in Hrun.
  destruct (fill_matrix _ df1 zeros) as [c1| | |]; try discriminate.
  simpl in Hrun.
  destruct (student_to_index names !! student_1 r) as [i|] eqn:Ei; [|discriminate].
  destruct (student_to_index names !! student_2 r) as [j|] eqn:Ej; [|discriminate].
  exists i, j.
  split; [apply (student_to_index_lookup names _ i Hnd); exact Ei|].
  split; [apply (student_to_index_lookup names _ j Hnd); exact Ej|].
  assert (Hun : forall r' i' j', In r' df2 ->
            student_to_index names !! student_1 r' = Some i' ->
            student_to_index names !! student_2 r' = Some j' ->
            ~ ((i' = i /\ j' = j) \/ (i' = j /\ j' = i))).
  { intros r' i' j' Hin Hi' Hj' [[-> ->]|[-> ->]]; apply (Hlast r' Hin); [left|right];
      split; eapply student_to_index_inj; eauto. }
  split.
  - rewrite (fill_matrix_untouched _ _ _ _ i j Hrun Hun), set_entry_pair.
    rewrite !Nat.eqb_refl. reflexivity.
  - rewrite (fill_matrix_untouched _ _ _ _ j i Hrun); [|intros r' i' j' Hin Hi' Hj' H;
      apply (Hun r' i' j' Hin Hi' Hj'); tauto].
    rewrite set_entry_pair, !Nat.eqb_refl. simpl. rewrite orb_true_r. reflexivity.
Qed.

Lemma compatibility_matrix_default df comp i j :
  compatibility_matrix df = Returned comp ->
  (forall r, In r df ->
     ~ (nth_error (student_names df) i = Some (student_1 r)
        /\ nth_error (student_names df) j = Some (student_2 r)) /\
     ~ (nth_error (student_names df) j = Some (student_1 r)
        /\ nth_error (student_names df) i = Some (student_2 r))) ->
  comp i j = 0%Q.
Proof.
  unfold compatibility_matrix. intros Hrun Hno.
  pose proof (student_names_NoDup df) as Hnd.
  rewrite (fill_matrix_untouched _ _ _ _ i j Hrun); [reflexivity|].
  intros r i' j' Hin Hi' Hj'.
  apply (student_to_index_lookup _ _ _ Hnd) in Hi', Hj'.
  destruct (Hno r Hin) as [H1 H2].
  intros [[-> ->]|[-> ->]]; tauto.
Qed.

Lemma compatibility_matrix_non_negative df comp :
  (forall r, In r df -> (0 <= compatibility_score r)%Q) ->
  compatibility_matrix df = Returned comp ->
  forall a b, (0 <= comp a b)%Q.
Proof.
  intros Hpos. unfold compatibility_matrix.
  apply (fill_matrix_invariant (fun c => forall a b, (0 <= c a b)%Q)).
  - intros c i j v Hc (r & Hin & _ & _ & <-) a b. rewrite set_entry_pair.
    destruct (_ || _); [apply Hpos; exact Hin|apply Hc].
  - intros a b. unfold zeros. apply Qle_refl.
Qed.

(** ** The bit length *)

Lemma get_bit_length_loop_value (fuel : nat) :
  forall x len, (0 <= x < 2 ^ (Z.of_nat fuel - 1))%Z ->
    get_bit_length_loop fuel x len
    = Ok (len + (if (x =? 0)%Z then 0 else Z.log2 x + 1))%Z.
Proof.
  induction fuel as [|fuel IH]; intros x len Hx.
  - exfalso. change (Z.of_nat 0 - 1)%Z with (-1)%Z in Hx.
    rewrite Z.pow_neg_r in Hx by lia. lia.
  - cbn [get_bit_length_loop]. destruct (Z.eqb_spec x 0) as [Hz|Hz].
    + rewrite Z.add_0_r. reflexivity.
    + assert (Hf : (1 <= Z.of_nat fuel)%Z).
      { destruct fuel; [|lia]. simpl in Hx. lia. }
      rewrite IH.
      * f_equal. rewrite Z.shiftr_div_pow2 by lia. change (2 ^ 1)%Z with 2%Z.
        destruct (Z.eqb_spec (x / 2) 0) as [Hh|Hh].
        -- assert (x = 1)%Z as -> by (pose proof (Z.div_mod x 2); pose proof (Z.mod_pos_bound x 2); lia).
           change (Z.log2 1) with 0%Z. lia.
        -- assert (2 <= x)%Z.
           { destruct (Z_lt_le_dec x 2) as [Hlt|]; [|assumption].
             exfalso. apply Hh. apply Z.div_small. lia. }
           change 2%Z with (2 ^ 1)%Z at 1. rewrite <- (Z.shiftr_div_pow2 x 1) by lia.
           rewrite Z.log2_shiftr by lia.
           pose proof (Z.log2_le_mono 2 x ltac:(lia)) as Hl. change (Z.log2 2) with 1%Z in Hl.
           lia.
      * rewrite Z.shiftr_div_pow2 by lia. change (2 ^ 1)%Z with 2%Z. split.
        -- apply Z.div_pos; lia.
        -- apply Z.div_lt_upper_bound; [lia|].
           replace (2 * 2 ^ (Z.of_nat fuel - 1))%Z with (2 ^ (Z.of_nat (S fuel) - 1))%Z; [lia|].
           replace (Z.of_nat (S fuel) - 1)%Z with (Z.succ (Z.of_nat fuel - 1)) by lia.
           rewrite Z.pow_succ_r by lia. reflexivity.
Qed.

(** X1: on an [int64] that is not negative [get_bit_length] returns the number
    of bits of its argument: [0] for [0], and [floor(log2 x) + 1] otherwise. *)
Theorem get_bit_length_value (x : Z) :
  (0 <= x < 2 ^ 63)%Z ->
  get_bit_length x = Ok (if (x =? 0)%Z then 0 else Z.log2 x + 1)%Z.
Proof.
  intros Hx. unfold get_bit_length. rewrite get_bit_length_loop_value.
  - reflexivity.
  - change (Z.of_nat 65 - 1)%Z with 64%Z. split; [lia|].
    apply Z.lt_trans with (2 ^ 63)%Z; [lia|reflexivity].
Qed.

Lemma get_bit_length_value_witness : get_bit_length 12 = Ok 4%Z.
Proof. apply (get_bit_length_value 12). split; [lia|reflexivity]. Defined.

(** X2: on a negative argument the loop of [get_bit_length] never ends: the
    arithmetic shift keeps the sign, so [x] never becomes [0]. *)
Theorem get_bit_length_negative_never_returns (fuel : nat) (x len : Z) :
  (x < 0)%Z -> get_bit_length_loop fuel x len = OutOfFuel.
Proof.
  revert x len. induction fuel as [|fuel IH]; intros x len Hx; [reflexivity|].
  cbn [get_bit_length_loop]. destruct (Z.eqb_spec x 0) as [Hz|_]; [lia|].
  apply IH. apply Z.shiftr_neg. exact Hx.
Qed.

Lemma get_bit_length_negative_never_returns_witness :
  get_bit_length_loop 1000 (-1) 0 = OutOfFuel.
Proof. apply (get_bit_length_negative_never_returns 1000 (-1) 0). lia. Defined.

(** ** The pivot *)

(** X3: on a state that is not empty the two kernels pick the same student:
    the lowest set bit that [exhaustive_search_njit] isolates with
    [mask & -mask] is the first index the loop of [search] finds. *)
Theorem pivot_rules_agree (n : nat) (mask : Z) :
  (n <= 63)%nat -> wf_mask n mask -> mask <> 0%Z ->
  lowest_student mask = Ok (first_unmatched mask n)
  /\ has mask (first_unmatched mask n) = true
  /\ forall k, (k < first_unmatched mask n)%nat -> has mask k = false.
Proof.
  intros Hn Hwf Hz.
  destruct (members n mask) as [|i rest] eqn:E.
  - exfalso. apply Hz. apply (members_nil n mask Hn Hwf E).
  - rewrite (first_unmatched_members n mask i rest E).
    split; [apply (lowest_student_members n mask i rest Hn Hwf E)|].
    pose proof (filter_head_lowest mask n 0 i rest E) as [_ Hlow].
    split.
    + assert (Hin : In i (members n mask)) by (rewrite E; left; reflexivity).
      apply filter_In in Hin. apply Hin.
    + intros k Hk. apply Hlow. lia.
Qed.

Lemma pivot_rules_agree_witness :
  lowest_student 12 = Ok (first_unmatched 12 4)
  /\ has 12 (first_unmatched 12 4) = true
  /\ forall k, (k < first_unmatched 12 4)%nat -> has 12 k = false.
Proof.
  apply (pivot_rules_agree 4 12); [lia | split; [lia|reflexivity] | discriminate].
Defined.

(** ** The base case *)

(** X4: the base cases of the two kernels have the same effect, although one
    empties [best_pairs] with [clear_typed_list] and the other with a [while]
    loop: a score strictly above the best one replaces the best pairing by a
    copy of the current one, whatever [best_pairs] held; a score that only
    ties with the best one changes nothing. *)
Theorem base_case_records_strict_improvement (cur : Q) (st : tracker) :
  base_case_exhaustive cur st = base_case cur st
  /\ ((best_score st < cur)%Q ->
      base_case cur st
      = mkTracker cur (current_pairs st) (current_pairs st) (allocations st))
  /\ ((cur <= best_score st)%Q -> base_case cur st = st).
Proof.
  split; [apply base_case_exhaustive_eq|]. unfold base_case. split; intros H.
  - destruct (Qlt_le_dec (best_score st) cur) as [_|Hle]; [|lra].
    unfold record_best. f_equal.
    rewrite clear_typed_list_nil. unfold append_all.
    apply (copy_by_index (0, 0) (current_pairs st) [] []).
  - destruct (Qlt_le_dec (best_score st) cur) as [Hlt|_]; [lra|reflexivity].
Qed.

Lemma base_case_records_strict_improvement_witness :
  base_case 1 initial_tracker = mkTracker 1 [] [] 0%Z
  /\ base_case sentinel initial_tracker = initial_tracker.
Proof.
  destruct (base_case_records_strict_improvement 1 initial_tracker) as (_ & Hrec & _).
  destruct (base_case_records_strict_improvement sentinel initial_tracker) as (_ & _ & Htie).
  split.
  - apply Hrec. reflexivity.
  - apply Htie. apply Qle_refl.
Defined.

(** X27: [clear_typed_list] leaves any typed list empty, and so does the
    [while] loop of [exhaustive_search_njit]; appending the current pairs by
    index to the emptied list gives a copy of them. *)
Theorem typed_list_emptied_then_copied (best current : list pair_type) :
  clear_typed_list best = []
  /\ pop_while_nonempty (length best) best = []
  /\ append_all (clear_typed_list best) current = current.
Proof.
  split; [apply clear_typed_list_nil|]. split; [apply pop_while_nonempty_nil|].
  rewrite clear_typed_list_nil. unfold append_all.
  apply (copy_by_index (0, 0) current [] []).
Qed.

(** ** The bound *)

(** X5: [compute_upper_bound] is never negative, whatever the signs of the
    weights: every best partner score starts at [0.0] and is only raised. *)
Theorem compute_upper_bound_never_negative (comp : matrix) (n : nat) (mask : Z) :
  (0 <= compute_upper_bound mask comp n)%Q.
Proof. apply compute_upper_bound_nonneg. Qed.

Lemma fold_right_Qmax2_nonpositive xs :
  (forall x, In x xs -> (x <= 0)%Q) -> (fold_right Qmax2 0%Q xs == 0)%Q.
Proof.
  induction xs as [|x xs IH]; intros H; simpl; [reflexivity|].
  assert (Hx : (x <= 0)%Q) by (apply H; left; reflexivity).
  assert (Hr : (fold_right Qmax2 0%Q xs == 0)%Q) by (apply IH; intros y Hy; apply H; right; exact Hy).
  unfold Qmax2 at 1. destruct (Qlt_le_dec x (fold_right Qmax2 0%Q xs)); [exact Hr|].
  apply Qle_antisym; [exact Hx|]. rewrite <- Hr. assumption.
Qed.

Lemma sumQ_zero (l : list Q) : (forall x, In x l -> (x == 0)%Q) -> (sumQ l == 0)%Q.
Proof.
  induction l as [|x l IH]; intros H; simpl; [reflexivity|].
  rewrite (H x (or_introl eq_refl)), IH; [lra|]. intros y Hy. apply H. right. exact Hy.
Qed.

(** X6: when no weight is positive the bound is [0] for every state: the
    floor at [0.0] of each best partner score hides the weights. *)
Theorem compute_upper_bound_floor (comp : matrix) (n : nat) (mask : Z) :
  (forall i j, (i < n)%nat -> (j < n)%nat -> (comp i j <= 0)%Q) ->
  (compute_upper_bound mask comp n == 0)%Q.
Proof.
  intros Hneg. rewrite compute_upper_bound_formula. unfold upper_bound_formula.
  rewrite sumQ_zero; [reflexivity|].
  intros x Hx. apply in_map_iff in Hx as (i & <- & Hi).
  apply fold_right_Qmax2_nonpositive. intros y Hy.
  apply in_map_iff in Hy as (j & <- & Hj).
  apply Hneg; [exact (members_lt n mask i Hi)|].
  apply filter_In in Hj as [Hj _]. exact (members_lt n mask j Hj).
Qed.

Lemma compute_upper_bound_floor_witness :
  (compute_upper_bound 3 very_negative 2 == 0)%Q.
Proof.
  apply (compute_upper_bound_floor very_negative 2 3).
  intros i j _ _. unfold very_negative. apply Qle_bool_imp_le. reflexivity.
Defined.

(** ** The two searches *)



Lemma exhaustive_odd (comp : matrix) (n : nat) :
  (n <= 63)%nat -> Nat.odd n = true ->
  exhaustive_search_wrapper comp n = Ok (sentinel, [], Int64.wrap (enum_count n)).
Proof.
  intros Hn Hodd.
  destruct (exhaustive_counter comp n Hn) as (s & p & Hrun).
  destruct (exhaustive_search_wrapper_post comp n Hn) as (st & Hrun' & Hpost).
  rewrite Hrun' in Hrun. injection Hrun as Hs Hp Ha. rewrite Hrun', Ha.
  destruct Hpost as [_ _ [[Hus Hup]|(m & Hm & _)] _ _ _ _].
  - simpl in Hus, Hup. rewrite Hus, Hup. reflexivity.
  - exfalso. apply perfect_matching_length in Hm. rewrite length_seq in Hm.
    rewrite Hm, Nat.odd_mul in Hodd. discriminate.
Qed.

(** X9: on an odd number of students the exhaustive oracle raises nothing
    either: it tries every pair, never reaches a complete pairing, and
    returns [-1e9], the empty pairing and the full count of its tree. *)
Theorem exhaustive_odd_n_returns_sentinel (comp : matrix) (n : nat) :
  (n <= 63)%nat -> Nat.odd n = true ->
  exhaustive_search_wrapper comp n = Ok (sentinel, [], Int64.wrap (enum_count n)).
Proof. apply exhaustive_odd. Qed.

Lemma exhaustive_odd_n_returns_sentinel_witness :
  exhaustive_search_wrapper scenario_A 3 = Ok (sentinel, [], Int64.wrap (enum_count 3)).
Proof. apply (exhaustive_odd_n_returns_sentinel scenario_A 3); [lia|reflexivity]. Defined.

(** X10: the allocation count of the exhaustive oracle does not depend on the
    weights: for [n] students it is the size of the enumeration tree,
    [(n - 1) * (1 + count (n - 2))], in [int64] arithmetic. *)
Theorem exhaustive_allocations_by_size (comp comp' : matrix) (n : nat) :
  (n <= 63)%nat ->
  exists s p s' p',
    exhaustive_search_wrapper comp n = Ok (s, p, Int64.wrap (enum_count n))
    /\ exhaustive_search_wrapper comp' n = Ok (s', p', Int64.wrap (enum_count n))
    /\ enum_count (S (S n)) = (Z.of_nat (S n) * (1 + enum_count n))%Z.
Proof.
  intros Hn.
  destruct (exhaustive_counter comp n Hn) as (s & p & Hrun).
  destruct (exhaustive_counter comp' n Hn) as (s' & p' & Hrun').
  exists s, p, s', p'. repeat split; assumption || reflexivity.
Qed.

Lemma exhaustive_allocations_by_size_witness :
  exists s p s' p',
    exhaustive_search_wrapper scenario_A 4 = Ok (s, p, Int64.wrap (enum_count 4))
    /\ exhaustive_search_wrapper zero_matrix 4 = Ok (s', p', Int64.wrap (enum_count 4))
    /\ enum_count 6 = (Z.of_nat 5 * (1 + enum_count 4))%Z.
Proof. apply (exhaustive_allocations_by_size scenario_A zero_matrix 4). lia. Defined.

(** ** The tracker and the memo across a call of [search] *)

Lemma search_memo_kept (argsort : list Q -> list nat) (fuel : nat) :
  forall mask cur comp n st memo st' memo',
    search argsort fuel mask cur comp n (st, memo) = Ok (st', memo') ->
    (forall k v, memo !! k = Some v -> memo' !! k = Some v)
    /\ (mask <> 0%Z -> is_Some (memo' !! mask)).
Proof.
  induction fuel as [|fuel IH]; intros mask cur comp n st memo st' memo' Hrun;
    [discriminate|].
  cbn [search] in Hrun. destruct (Z.eqb_spec mask 0) as [Hz|Hne].
  { injection Hrun as _ <-. split; [auto|contradiction]. }
  assert (Hloop : forall memo0,
    for_each (sorted_candidates argsort comp n (first_unmatched mask n)
                (clear mask (first_unmatched mask n)))
      (fun j '(st, memo) =>
         s' <- search argsort fuel (clear (clear mask (first_unmatched mask n)) j)
                 (cur + comp (first_unmatched mask n) j) comp n
                 (count_allocation (push_pair (first_unmatched mask n, j) st), memo) ;;
         Ok (pop_pair (fst s'), snd s'))
      (st, memo0) = Ok (st', memo') ->
    forall k v, memo0 !! k = Some v -> snd (st', memo') !! k = Some v).
  { intros memo0.
    apply (for_each_preserves
             (fun s => forall k v, memo0 !! k = Some v -> snd s !! k = Some v));
      [|auto].
    intros j [st1 memo1] s' _ Hinv Hbody. simpl in Hinv.
    destruct (search argsort fuel (clear (clear mask (first_unmatched mask n)) j)
                (cur + comp (first_unmatched mask n) j) comp n
                (count_allocation (push_pair (first_unmatched mask n, j) st1), memo1))
      as [[st2 memo2]|e|] eqn:E; try discriminate.
    cbn [bind] in Hbody. injection Hbody as <-. simpl.
    intros k v Hk. apply (proj1 (IH _ _ _ _ _ _ _ _ E)). apply Hinv. exact Hk. }
  simpl in Hloop.
  destruct (memo !! mask) as [ub_val|] eqn:Em.
  - assert (Hkept : forall k v, memo !! k = Some v -> memo' !! k = Some v).
    { destruct (Qle_bool (cur + ub_val) (best_score st));
        [injection Hrun as _ <-; auto|exact (Hloop _ Hrun)]. }
    split; [exact Hkept|]. intros _. exists ub_val. apply Hkept. exact Em.
  - assert (Hkept : forall k v, <[mask:=compute_upper_bound mask comp n]> memo !! k = Some v
                                -> memo' !! k = Some v).
    { destruct (Qle_bool (cur + compute_upper_bound mask comp n) (best_score st));
        [injection Hrun as _ <-; auto|exact (Hloop _ Hrun)]. }
    split.
    + intros k v Hk. apply Hkept. rewrite lookup_insert_ne; [exact Hk|].
      intros <-. rewrite Em in Hk. discriminate.
    + intros _. exists (compute_upper_bound mask comp n). apply Hkept.
      apply lookup_insert_eq.
Qed.

(** X11: a call of [search] that starts with a sound memo returns with the
    stack of current pairs as it found it and a best score that is not lower;
    every entry of the memo is kept with its value, the state of the call
    has an entry when it is not the empty state, and every entry is the
    bound [compute_upper_bound] gives for its state. *)
Theorem search_keeps_stack_and_memo (argsort : list Q -> list nat) (comp : matrix)
    (n fuel : nat) (mask : Z) (cur : Q) (st : tracker) (memo : gmap Z Q) :
  (forall a, Permutation (argsort a) (seq 0 (length a))) ->
  (n <= 63)%nat -> wf_mask n mask -> (length (members n mask) < fuel)%nat ->
  memo_sound comp n memo ->
  exists st' memo',
    search argsort fuel mask cur comp n (st, memo) = Ok (st', memo')
    /\ current_pairs st' = current_pairs st
    /\ (best_score st <= best_score st')%Q
    /\ (forall k v, memo !! k = Some v -> memo' !! k = Some v)
    /\ (mask <> 0%Z -> memo' !! mask = Some (compute_upper_bound mask comp n))
    /\ memo_sound comp n memo'.
Proof.
  intros Hperm Hn Hwf Hfuel Hsound.
  destruct (search_post argsort Hperm comp n fuel Hn mask cur st memo Hwf Hfuel Hsound)
    as (st' & memo' & Hrun & Hsound' & Hpost).
  destruct (search_memo_kept argsort fuel _ _ _ _ _ _ _ _ Hrun) as [Hkept Hset].
  exists st', memo'. split; [exact Hrun|].
  split; [apply (post_current _ _ _ _ _ _ _ Hpost)|].
  split; [apply (post_mono _ _ _ _ _ _ _ Hpost)|].
  split; [exact Hkept|]. split; [|exact Hsound'].
  intros Hne. destruct (Hset Hne) as [v Hv]. rewrite Hv. f_equal.
  apply Hsound'. exact Hv.
Qed.

Lemma search_keeps_stack_and_memo_witness :
  exists st' memo',
    search insertion_argsort 5 15 0 scenario_A 4 (initial_tracker, ∅) = Ok (st', memo')
    /\ current_pairs st' = current_pairs initial_tracker
    /\ (best_score initial_tracker <= best_score st')%Q
    /\ (forall k v, (∅ : gmap Z Q) !! k = Some v -> memo' !! k = Some v)
    /\ (15%Z <> 0%Z -> memo' !! 15%Z = Some (compute_upper_bound 15 scenario_A 4))
    /\ memo_sound scenario_A 4 memo'.
Proof.
  apply (search_keeps_stack_and_memo insertion_argsort scenario_A 4 5 15 0
           initial_tracker ∅ insertion_argsort_perm).
  - lia.
  - split; [lia|reflexivity].
  - vm_compute. lia.
  - intros k v Hk. rewrite lookup_empty in Hk. discriminate.
Defined.

(** ** The order of the candidates *)

Lemma Sorted_snoc {A : Type} (R : A -> A -> Prop) (l : list A) (a : A) :
  Sorted R l -> (forall b, last l a = b -> l <> [] -> R b a) -> Sorted R (l ++ [a]).
Proof.
  induction l as [|x l IH]; intros Hs Hlast; simpl.
  - constructor; constructor.
  - inversion Hs as [|? ? Hs' Hhd]; subst. constructor.
    + apply IH; [exact Hs'|]. intros b Hb Hne. apply Hlast; [|discriminate].
      destruct l; [contradiction|exact Hb].
    + destruct l as [|y l]; simpl.
      * constructor. apply Hlast; [reflexivity|discriminate].
      * constructor. inversion Hhd; assumption.
Qed.

Lemma Sorted_rev {A : Type} (R : A -> A -> Prop) (l : list A) :
  Sorted R l -> Sorted (fun a b => R b a) (rev l).
Proof.
  induction l as [|x l IH]; intros Hs; simpl; [constructor|].
  inversion Hs as [|? ? Hs' Hhd]; subst.
  apply Sorted_snoc; [apply IH; exact Hs'|].
  intros b Hb Hne. destruct l as [|y l]; [contradiction|].
  inversion Hhd as [|? ? Hxy]; subst.
  simpl. rewrite last_last. exact Hxy.
Qed.

Lemma Sorted_map {A B : Type} (R : B -> B -> Prop) (f : A -> B) (l : list A) :
  Sorted (fun a b => R (f a) (f b)) l -> Sorted R (map f l).
Proof.
  induction l as [|x l IH]; intros Hs; simpl; [constructor|].
  inversion Hs as [|? ? Hs' Hhd]; subst. constructor; [apply IH; exact Hs'|].
  destruct l; simpl; constructor. inversion Hhd; assumption.
Qed.

Lemma Sorted_ext_in {A : Type} (R R' : A -> A -> Prop) (l : list A) :
  (forall a b, In a l -> In b l -> R a b -> R' a b) -> Sorted R l -> Sorted R' l.
Proof.
  induction l as [|x l IH]; intros Himp Hs; [constructor|].
  inversion Hs as [|? ? Hs' Hhd]; subst. constructor.
  - apply IH; [|exact Hs']. intros a b Ha Hb. apply Himp; right; assumption.
  - destruct l; constructor. inversion Hhd; subst.
    apply Himp; [left; reflexivity|right; left; reflexivity|assumption].
Qed.

(** X12: the partners [search] tries are the unmatched students other than
    the pivot, each one once; when [argsort] sorts in ascending order they
    are tried in the order of non-increasing pair score. *)
Theorem sorted_candidates_descending (argsort : list Q -> list nat) (comp : matrix)
    (n i : nat) (new_mask : Z) :
  (forall a, Permutation (argsort a) (seq 0 (length a))) ->
  (forall a, ascending a (argsort a)) ->
  Permutation (sorted_candidates argsort comp n i new_mask) (members n new_mask)
  /\ Sorted (fun j k => (comp i k <= comp i j)%Q)
       (sorted_candidates argsort comp n i new_mask).
Proof.
  intros Hperm Hasc. split; [apply sorted_candidates_perm; exact Hperm|].
  unfold sorted_candidates. cbv zeta.
  set (cands := candidate_arr new_mask n).
  set (a := map (comp i) cands).
  rewrite reversed_by_index.
  apply (Sorted_map (fun x y => (comp i y <= comp i x)%Q) (fun k => nth k cands 0%nat)).
  apply (Sorted_rev (fun h k => (comp i (nth h cands 0%nat) <= comp i (nth k cands 0%nat))%Q)).
  apply (Sorted_ext_in (fun h k => (nth h a 0%Q <= nth k a 0%Q)%Q)); [|apply Hasc].
  assert (Hin : forall h, In h (argsort a) -> nth h a 0%Q = comp i (nth h cands 0%nat)).
  { intros h Hh. apply (Permutation_in _ (Hperm a)) in Hh. apply in_seq in Hh.
    unfold a in *. rewrite length_map in Hh.
    rewrite (nth_indep _ 0%Q (comp i 0)) by (rewrite length_map; lia).
    apply map_nth. }
  intros h k Hh Hk Hle. rewrite <- (Hin h Hh), <- (Hin k Hk). exact Hle.
Qed.

Lemma sorted_candidates_descending_witness :
  Permutation (sorted_candidates insertion_argsort scenario_A 4 0 14) (members 4 14)
  /\ Sorted (fun j k => (scenario_A 0%nat k <= scenario_A 0%nat j)%Q)
       (sorted_candidates insertion_argsort scenario_A 4 0 14).
Proof.
  apply (sorted_candidates_descending insertion_argsort scenario_A 4 0 14
           insertion_argsort_perm insertion_argsort_ascending).
Defined.

Lemma filter_seq_increasing (f : nat -> bool) (n a : nat) :
  StronglySorted lt (filter f (seq a n)).
Proof.
  revert a. induction n as [|n IH]; intros a; simpl; [constructor|].
  destruct (f a); [|apply IH]. constructor; [apply IH|].
  apply Forall_forall. intros k Hk. apply filter_In in Hk as [Hk _].
  apply in_seq in Hk. lia.
Qed.

(** X13: the bit-scanning loop of [exhaustive_search_njit] runs its body once
    for each student of the candidate mask, in the order of increasing
    index. *)
Theorem while_candidate_increasing {S : Type} (body : nat -> S -> res S) (n fuel : nat)
    (candidate : Z) (s : S) :
  (n <= 63)%nat -> wf_mask n candidate -> (length (members n candidate) < fuel)%nat ->
  while_candidate fuel candidate body s = for_each (members n candidate) body s
  /\ StronglySorted lt (members n candidate)
  /\ forall j, In j (members n candidate) <-> (j < n)%nat /\ has candidate j = true.
Proof.
  intros Hn Hwf Hfuel. split; [apply while_candidate_for_each; assumption|].
  split; [apply filter_seq_increasing|].
  intros j. unfold members, candidate_arr. rewrite filter_In, in_seq. intuition lia.
Qed.

Lemma while_candidate_increasing_witness :
  while_candidate 65 14 (fun j l => Ok (l ++ [j])) [] = for_each (members 4 14) (fun j l => Ok (l ++ [j])) []
  /\ StronglySorted lt (members 4 14)
  /\ forall j, In j (members 4 14) <-> (j < 4)%nat /\ has 14 j = true.
Proof.
  apply (while_candidate_increasing (fun j l => Ok (l ++ [j])) 4 65 14 []).
  - lia.
  - split; [lia|reflexivity].
  - vm_compute. lia.
Defined.

(** ** The shape of the recorded pairing *)

Lemma first_unmatched_loop_least mask k :
  forall a j, a <= j < a + k -> has mask j = true ->
    a <= first_unmatched_loop k mask a <= j
    /\ has mask (first_unmatched_loop k mask a) = true.
Proof.
  induction k as [|k IH]; intros a j Hj Hhas; [lia|].
  cbn [first_unmatched_loop]. destruct (has mask a) eqn:Ea.
  - split; [lia|exact Ea].
  - assert (a <> j) by (intros ->; congruence).
    destruct (IH (a + 1) j ltac:(lia) Hhas) as [Hle Hh]. split; [lia|exact Hh].
Qed.

Lemma first_unmatched_least mask n j :
  j < n -> has mask j = true ->
  first_unmatched mask n <= j /\ has mask (first_unmatched mask n) = true.
Proof.
  intros Hj Hhas. unfold first_unmatched.
  destruct (first_unmatched_loop_least mask n 0 j ltac:(lia) Hhas) as [Hle Hh].
  split; [lia|exact Hh].
Qed.

Lemma has_clear_self mask i : i <= 62 -> has (clear mask i) i = false.
Proof.
  intros Hi. rewrite has_testbit by exact Hi. rewrite clear_spec by lia.
  rewrite Z.eqb_refl. apply andb_false_r.
Qed.

Lemma candidate_above_pivot n mask k :
  n <= 63 -> k < n -> has (clear mask (first_unmatched mask n)) k = true ->
  first_unmatched mask n < k.
Proof.
  intros Hn Hk Hhas.
  pose proof (has_clear _ _ _ Hhas) as Hm.
  destruct (first_unmatched_least mask n k Hk Hm) as [Hle _].
  destruct (Nat.eq_dec (first_unmatched mask n) k) as [Heq|]; [|lia].
  rewrite Heq in Hhas. rewrite has_clear_self in Hhas by lia. discriminate.
Qed.

Lemma StronglySorted_snoc (l : list nat) (a : nat) :
  StronglySorted lt l -> (forall x, In x l -> x < a) -> StronglySorted lt (l ++ [a]).
Proof.
  induction l as [|x l IH]; intros Hs Hlt; simpl.
  - constructor; constructor.
  - inversion Hs as [|? ? Hs' Hall]; subst. constructor.
    + apply IH; [exact Hs'|]. intros y Hy. apply Hlt. right. exact Hy.
    + apply Forall_app. split; [exact Hall|]. constructor; [|constructor].
      apply Hlt. left. reflexivity.
Qed.

Lemma canonical_push (cp : list pair_type) (i j : nat) :
  canonical cp -> i < j -> (forall p, In p cp -> fst p < i) -> canonical (cp ++ [(i, j)]).
Proof.
  intros [Hord Hinc] Hij Hlt. split.
  - apply Forall_app. split; [exact Hord|]. constructor; [exact Hij|constructor].
  - rewrite map_app. apply StronglySorted_snoc; [exact Hinc|].
    intros x Hx. apply in_map_iff in Hx as (p & <- & Hp). apply Hlt. exact Hp.
Qed.

Lemma base_case_canonical cur st :
  canonical (best_pairs st) -> canonical (current_pairs st) ->
  canonical (best_pairs (base_case cur st))
  /\ current_pairs (base_case cur st) = current_pairs st.
Proof.
  intros Hb Hc. unfold base_case. destruct (Qlt_le_dec (best_score st) cur); [|auto].
  rewrite record_best_pairs. auto.
Qed.

Section Canonical.
Variable argsort : list Q -> list nat.
Hypothesis argsort_perm : forall a, Permutation (argsort a) (seq 0 (length a)).
Variables (comp : matrix) (n : nat).
Hypothesis n_small : n <= 63.

Lemma search_canonical fuel :
  forall mask cur st memo st' memo',
    search argsort fuel mask cur comp n (st, memo) = Ok (st', memo') ->
    canonical (best_pairs st) -> canonical (current_pairs st) ->
    (forall p k, In p (current_pairs st) -> k < n -> has mask k = true -> fst p < k) ->
    canonical (best_pairs st') /\ current_pairs st' = current_pairs st.
Proof.
  induction fuel as [|fuel IH]; intros mask cur st memo st' memo' Hrun Hb Hc Hbelow;
    [discriminate|].
  cbn [search] in Hrun. destruct (Z.eqb_spec mask 0) as [Hz|Hne].
  { injection Hrun as <- _. apply base_case_canonical; assumption. }
  assert (Hloop : forall memo0,
    for_each (sorted_candidates argsort comp n (first_unmatched mask n)
                (clear mask (first_unmatched mask n)))
      (fun j '(st, memo) =>
         s' <- search argsort fuel (clear (clear mask (first_unmatched mask n)) j)
                 (cur + comp (first_unmatched mask n) j) comp n
                 (count_allocation (push_pair (first_unmatched mask n, j) st), memo) ;;
         Ok (pop_pair (fst s'), snd s'))
      (st, memo0) = Ok (st', memo') ->
    canonical (best_pairs (fst (st', memo')))
    /\ current_pairs (fst (st', memo')) = current_pairs st).
  { intros memo0.
    apply (for_each_preserves
             (fun s => canonical (best_pairs (fst s))
                       /\ current_pairs (fst s) = current_pairs st)); [|auto].
    intros j [st1 memo1] s' Hj [Hb1 Hc1] Hbody. simpl in Hb1, Hc1.
    destruct (search argsort fuel (clear (clear mask (first_unmatched mask n)) j)
                (cur + comp (first_unmatched mask n) j) comp n
                (count_allocation (push_pair (first_unmatched mask n, j) st1), memo1))
      as [[st2 memo2]|e|] eqn:E; try discriminate.
    cbn [bind] in Hbody. injection Hbody as <-. simpl.
    apply (Permutation_in _ (sorted_candidates_perm argsort argsort_perm comp n _ _)) in Hj.
    apply filter_In in Hj as [Hjn Hjh]. apply in_seq in Hjn.
    assert (Hij : first_unmatched mask n < j)
      by (apply candidate_above_pivot; [exact n_small|lia|exact Hjh]).
    destruct (IH _ _ _ _ _ _ E) as [Hb2 Hc2].
    - exact Hb1.
    - simpl. rewrite Hc1. apply canonical_push; [exact Hc|exact Hij|].
      intros p Hp.
      destruct (first_unmatched_least mask n j ltac:(lia) (has_clear _ _ _ Hjh)) as [_ Hh].
      apply (Hbelow p _ Hp); [lia|exact Hh].
    - simpl. rewrite Hc1. intros p k Hp Hk Hhas.
      apply has_clear in Hhas.
      apply in_app_or in Hp as [Hp|[<-|[]]].
      + apply (Hbelow p k Hp Hk). apply (has_clear _ _ _ Hhas).
      + simpl. apply candidate_above_pivot; [exact n_small|exact Hk|exact Hhas].
    - split; [exact Hb2|]. rewrite Hc2. simpl. rewrite Hc1.
      unfold pop. apply removelast_last. }
  simpl in Hloop.
  destruct (memo !! mask) as [ub_val|].
  - destruct (Qle_bool (cur + ub_val) (best_score st));
      [injection Hrun as <- _; auto|exact (Hloop _ Hrun)].
  - destruct (Qle_bool (cur + compute_upper_bound mask comp n) (best_score st));
      [injection Hrun as <- _; auto|exact (Hloop _ Hrun)].
Qed.

Lemma exhaustive_canonical fuel :
  forall mask cur st st',
    wf_mask n mask -> length (members n mask) < fuel ->
    exhaustive_search_njit fuel mask cur comp n st = Ok st' ->
    canonical (best_pairs st) -> canonical (current_pairs st) ->
    (forall p k, In p (current_pairs st) -> k < n -> has mask k = true -> fst p < k) ->
    canonical (best_pairs st') /\ current_pairs st' = current_pairs st.
Proof.
  induction fuel as [|fuel IH]; intros mask cur st st' Hwf Hfuel Hrun Hb Hc Hbelow;
    [discriminate|].
  cbn [exhaustive_search_njit] in Hrun. destruct (Z.eqb_spec mask 0) as [Hz|Hne].
  { injection Hrun as <-. rewrite base_case_exhaustive_eq.
    apply base_case_canonical; assumption. }
  destruct (members n mask) as [|i rest] eqn:Hmem.
  { exfalso. apply Hne. apply (members_nil n); assumption. }
  rewrite (lowest_student_members n mask i rest n_small Hwf Hmem) in Hrun.
  cbn [bind] in Hrun.
  pose proof (first_unmatched_members n mask i rest Hmem) as Hpivot.
  assert (Hnd : NoDup (i :: rest)) by (rewrite <- Hmem; apply members_NoDup).
  assert (Hin : (i < n)%nat)
    by (apply (members_lt n mask); rewrite Hmem; left; reflexivity).
  assert (Hrest : members n (clear mask i) = rest).
  { rewrite members_clear, Hmem by lia. apply without_head; assumption. }
  rewrite (while_candidate_for_each _ n n_small) in Hrun.
  2:{ apply wf_mask_clear; [lia|assumption]. }
  2:{ pose proof (members_length n (clear mask i)). lia. }
  revert Hrun.
  change (canonical (best_pairs st') /\ current_pairs st' = current_pairs st)
    with ((fun s => canonical (best_pairs s) /\ current_pairs s = current_pairs st) st').
  apply for_each_preserves; [|auto].
  intros j st1 s' Hj [Hb1 Hc1] Hbody.
  destruct (exhaustive_search_njit fuel (clear (clear mask i) j) (cur + comp i j) comp n
              (push_pair (i, j) (count_allocation st1))) as [st2|e|] eqn:E;
    try discriminate.
  cbn [bind] in Hbody. injection Hbody as <-. simpl.
  pose proof Hj as Hj'. rewrite Hrest in Hj'.
  apply filter_In in Hj as [Hjn Hjh]. apply in_seq in Hjn.
  assert (Hij : i < j).
  { rewrite <- Hpivot. apply candidate_above_pivot; [exact n_small|lia|].
    rewrite Hpivot. exact Hjh. }
  assert (Hhi : has mask i = true).
  { assert (H : In i (members n mask)) by (rewrite Hmem; left; reflexivity).
    apply filter_In in H. apply H. }
  assert (Hwf' : wf_mask n (clear (clear mask i) j)).
  { apply wf_mask_clear; [lia|]. apply wf_mask_clear; [lia|assumption]. }
  assert (Hfuel' : length (members n (clear (clear mask i) j)) < fuel).
  { rewrite members_clear, Hrest by lia.
    pose proof (proj2 (proj1 (NoDup_cons_iff i rest) Hnd)) as Hnd'.
    pose proof (without_length j rest Hnd' Hj').
    simpl in Hfuel. lia. }
  destruct (IH _ _ _ _ Hwf' Hfuel' E) as [Hb2 Hc2].
  - exact Hb1.
  - simpl. rewrite Hc1. apply canonical_push; [exact Hc|exact Hij|].
    intros p Hp. apply (Hbelow p i Hp Hin Hhi).
  - simpl. rewrite Hc1. intros p k Hp Hk Hhas.
    apply has_clear in Hhas.
    apply in_app_or in Hp as [Hp|[<-|[]]].
    + apply (Hbelow p k Hp Hk). apply (has_clear _ _ _ Hhas).
    + simpl. rewrite <- Hpivot. apply candidate_above_pivot; [exact n_small|exact Hk|].
      rewrite Hpivot. exact Hhas.
  - split; [exact Hb2|]. rewrite Hc2. simpl. rewrite Hc1.
    unfold pop. apply removelast_last.
Qed.

End Canonical.

Lemma canonical_nil : canonical [].
Proof. split; constructor. Qed.

(** X14: the pairing [branch_and_bound_numba] returns is in canonical form:
    each pair has its lower index first, and the pairs come in the order of
    their first students. *)
Theorem branch_and_bound_pairing_canonical (argsort : list Q -> list nat)
    (comp : matrix) (n : nat) :
  (forall a, Permutation (argsort a) (seq 0 (length a))) -> n <= 63 ->
  exists s p a,
    branch_and_bound_numba argsort comp n = Ok (s, p, a)
    /\ Forall (fun pr => fst pr < snd pr) p
    /\ StronglySorted lt (map fst p).
Proof.
  intros Hperm Hn.
  destruct (branch_and_bound_numba_post argsort Hperm comp n Hn) as (st & Hrun & _).
  exists (best_score st), (best_pairs st), (allocations st). split; [exact Hrun|].
  unfold branch_and_bound_numba in Hrun.
  destruct (search argsort (S n) (full_mask n) 0 comp n (initial_tracker, ∅))
    as [[st' memo']|e|] eqn:E; try discriminate.
  cbn [bind] in Hrun. simpl in Hrun.
  assert (Hst : best_pairs st' = best_pairs st) by congruence.
  rewrite <- Hst.
  apply (search_canonical argsort Hperm comp n Hn _ _ _ _ _ _ _ E);
    [apply canonical_nil|apply canonical_nil|intros p k []].
Qed.

Lemma branch_and_bound_pairing_canonical_witness :
  exists s p a,
    branch_and_bound_numba insertion_argsort scenario_A 4 = Ok (s, p, a)
    /\ Forall (fun pr => fst pr < snd pr) p
    /\ StronglySorted lt (map fst p).
Proof.
  apply (branch_and_bound_pairing_canonical insertion_argsort scenario_A 4
           insertion_argsort_perm).
  lia.
Defined.

(** X15: the pairing [exhaustive_search_wrapper] returns is in the same
    canonical form. *)
Theorem exhaustive_pairing_canonical (comp : matrix) (n : nat) :
  n <= 63 ->
  exists s p a,
    exhaustive_search_wrapper comp n = Ok (s, p, a)
    /\ Forall (fun pr => fst pr < snd pr) p
    /\ StronglySorted lt (map fst p).
Proof.
  intros Hn.
  destruct (exhaustive_search_wrapper_post comp n Hn) as (st & Hrun & _).
  exists (best_score st), (best_pairs st), (allocations st). split; [exact Hrun|].
  unfold exhaustive_search_wrapper in Hrun.
  destruct (exhaustive_search_njit (S n) (full_mask n) 0 comp n initial_tracker)
    as [st'|e|] eqn:E; try discriminate.
  cbn [bind] in Hrun.
  assert (Hst : best_pairs st' = best_pairs st) by congruence.
  rewrite <- Hst.
  assert (Hfuel : length (members n (full_mask n)) < S n)
    by (pose proof (members_length n (full_mask n)); lia).
  apply (exhaustive_canonical comp n Hn _ _ _ _ _ (full_mask_wf n Hn) Hfuel E);
    [apply canonical_nil|apply canonical_nil|intros p k []].
Qed.

Lemma exhaustive_pairing_canonical_witness :
  exists s p a,
    exhaustive_search_wrapper scenario_A 4 = Ok (s, p, a)
    /\ Forall (fun pr => fst pr < snd pr) p
    /\ StronglySorted lt (map fst p).
Proof. apply (exhaustive_pairing_canonical scenario_A 4). lia. Defined.

(** ** The drivers from the data frame to the report *)

Lemma name_pairs_returns names (p : list pair_type) :
  Forall (fun pr => fst pr < length names /\ snd pr < length names) p ->
  name_pairs (index_to_student names) p
  = Returned (map (fun pr => (nth (fst pr) names EmptyString, nth (snd pr) names EmptyString)) p).
Proof.
  induction p as [|pr p IH]; intros Hall; [reflexivity|].
  inversion Hall as [|? ? [Hf Hs] Hall']; subst. cbn [name_pairs map].
  rewrite !index_to_student_lookup.
  rewrite (nth_error_nth' names EmptyString Hf), (nth_error_nth' names EmptyString Hs).
  rewrite (IH Hall'). reflexivity.
Qed.

Lemma flatten_names_map names (p : list pair_type) :
  flatten_names (map (fun pr => (nth (fst pr) names EmptyString, nth (snd pr) names EmptyString)) p)
  = map (fun k => nth k names EmptyString) (flatten p).
Proof.
  induction p as [|pr p IH]; [reflexivity|].
  cbn [map flatten_names flatten flat_map app fst snd]. f_equal. f_equal. exact IH.
Qed.

Lemma perfect_matching_in_range n (p : list pair_type) :
  perfect_matching (seq 0 n) p -> Forall (fun pr => fst pr < n /\ snd pr < n) p.
Proof.
  intros Hpm. apply Forall_forall. intros pr Hpr.
  assert (H : forall k, In k (flatten p) -> k < n).
  { intros k Hk. apply (Permutation_in _ Hpm) in Hk. apply in_seq in Hk. lia. }
  split; apply H; unfold flatten; apply in_flat_map; exists pr; simpl; auto.
Qed.

Lemma named_matching names (p : list pair_type) :
  perfect_matching (seq 0 (length names)) p ->
  Permutation
    (flatten_names (map (fun pr => (nth (fst pr) names EmptyString, nth (snd pr) names EmptyString)) p))
    names.
Proof.
  intros Hpm. rewrite flatten_names_map.
  apply Permutation_trans
    with (map (fun k => nth k names EmptyString) (seq 0 (length names))).
  - apply Permutation_map. exact Hpm.
  - rewrite map_nth_seq. apply Permutation_refl.
Qed.

Lemma compatibility_matrix_symmetric_n df comp n :
  compatibility_matrix df = Returned comp -> symmetric n comp.
Proof.
  intros Hc i j _ _. rewrite (compatibility_matrix_symmetric df comp Hc i j). reflexivity.
Qed.

(** What [report] gives for a kernel that ends in the way [post] says. *)
Lemma report_post names comp exact st (t0 t1 peak : Q) :
  post comp (length names) exact (seq 0 (length names)) 0%Q initial_tracker st ->
  symmetric (length names) comp ->
  exists named,
    report names (Ok (best_score st, best_pairs st, allocations st)) t0 t1 peak
    = Returned (named, best_score st, allocations st, (t1 - t0)%Q, (peak / 1000000)%Q)
    /\ (forall m, perfect_matching (seq 0 (length names)) m ->
                  (score comp m <= best_score st)%Q)
    /\ ((best_score st = sentinel /\ best_pairs st = [] /\ named = [])
        \/ (perfect_matching (seq 0 (length names)) (best_pairs st)
            /\ (best_score st == score comp (best_pairs st))%Q
            /\ Permutation (flatten_names named) names)).
Proof.
  intros Hpost Hsym.
  exists (map (fun pr => (nth (fst pr) names EmptyString, nth (snd pr) names EmptyString))
            (best_pairs st)).
  destruct Hpost as [_ _ Hbest _ _ Hdom _].
  assert (Hcase : (best_score st = sentinel /\ best_pairs st = [])
                  \/ (perfect_matching (seq 0 (length names)) (best_pairs st)
                      /\ (best_score st == score comp (best_pairs st))%Q)).
  { destruct Hbest as [[Hs Hp]|(m & Hm & Hbp & Hs)].
    - left. split; assumption.
    - right. simpl in Hbp. rewrite Hbp. split; [exact Hm|]. rewrite Hs. lra. }
  assert (Hrange : Forall (fun pr => fst pr < length names /\ snd pr < length names)
                     (best_pairs st)).
  { destruct Hcase as [[_ ->]|[Hm _]]; [constructor|].
    apply perfect_matching_in_range. exact Hm. }
  split; [|split].
  - unfold report. rewrite (name_pairs_returns names _ Hrange). reflexivity.
  - intros m Hm. specialize (Hdom Hsym m Hm). lra.
  - destruct Hcase as [[Hs Hp]|[Hm Hs]].
    + left. rewrite Hp. auto.
    + right. split; [exact Hm|]. split; [exact Hs|]. apply named_matching. exact Hm.
Qed.

Section Drivers.
Variable argsort : list Q -> list nat.
Hypothesis argsort_perm : forall a, Permutation (argsort a) (seq 0 (length a)).
Variables (df : list row) (t0 t1 peak : Q).
Hypothesis students_fit : length (student_names df) <= 63.

Lemma improved_run :
  exists comp st,
    compatibility_matrix df = Returned comp
    /\ post comp (length (student_names df)) false (seq 0 (length (student_names df)))
         0%Q initial_tracker st
    /\ solve_roommate_matching_improved argsort df t0 t1 peak
       = report (student_names df) (Ok (best_score st, best_pairs st, allocations st))
           t0 t1 peak.
Proof.
  destruct (compatibility_matrix_returns df) as [comp Hc].
  destruct (branch_and_bound_numba_post argsort argsort_perm comp _ students_fit)
    as (st & Hrun & Hpost).
  exists comp, st. split; [exact Hc|]. split; [exact Hpost|].
  unfold solve_roommate_matching_improved. cbv zeta. rewrite Hc, Hrun. reflexivity.
Qed.

Lemma exhaustive_run :
  exists comp st,
    compatibility_matrix df = Returned comp
    /\ post comp (length (student_names df)) true (seq 0 (length (student_names df)))
         0%Q initial_tracker st
    /\ solve_roommate_exhaustive df t0 t1 peak
       = report (student_names df) (Ok (best_score st, best_pairs st, allocations st))
           t0 t1 peak.
Proof.
  destruct (compatibility_matrix_returns df) as [comp Hc].
  destruct (exhaustive_search_wrapper_post comp _ students_fit) as (st & Hrun & Hpost).
  exists comp, st. split; [exact Hc|]. split; [exact Hpost|].
  unfold solve_roommate_exhaustive. cbv zeta. rewrite Hc, Hrun. reflexivity.
Qed.

End Drivers.

(** X16: the list of students is sorted, holds no name twice, and holds
    exactly the names found in one of the two name columns. *)
Theorem student_names_sorted_distinct (df : list row) :
  Sorted (fun a b => String.leb a b = true) (student_names df)
  /\ NoDup (student_names df)
  /\ forall name, In name (student_names df)
                  <-> exists r, In r df /\ (name = student_1 r \/ name = student_2 r).
Proof.
  split; [apply sorted_Sorted|]. split; [apply student_names_NoDup|].
  intros name. apply student_names_In.
Qed.

(** X17: the two dictionaries are inverse to each other: a name has index
    [i] exactly when index [i] has that name, and the indices are the
    positions [0 .. n-1] of the sorted list. *)
Theorem name_index_round_trip (df : list row) (name : string) (i : nat) :
  (student_to_index (student_names df) !! name = Some i
   <-> index_to_student (student_names df) !! i = Some name)
  /\ (index_to_student (student_names df) !! i = Some name
      <-> nth_error (student_names df) i = Some name)
  /\ (is_Some (index_to_student (student_names df) !! i)
      <-> i < length (student_names df)).
Proof.
  rewrite index_to_student_lookup. split; [|split].
  - apply student_to_index_lookup. apply student_names_NoDup.
  - reflexivity.
  - rewrite <- nth_error_Some. split.
    + intros [x Hx]. congruence.
    + intros H. destruct (nth_error (student_names df) i); [eauto|congruence].
Qed.

(** X18: filling the matrix raises no [KeyError], whatever the rows (none at
    all included), and the matrix it gives is symmetric, also when rows
    repeat a pair with different scores. *)
Theorem compatibility_matrix_built_symmetric (df : list row) :
  exists comp,
    compatibility_matrix df = Returned comp
    /\ forall a b, comp a b = comp b a.
Proof.
  destruct (compatibility_matrix_returns df) as [comp Hc].
  exists comp. split; [exact Hc|]. apply (compatibility_matrix_symmetric df comp Hc).
Qed.

(** X19: when rows repeat a pair of students, in either order, the last of
    them gives the matrix its two entries. *)
Theorem compatibility_matrix_last_row_wins (df1 df2 : list row) (r : row) :
  Forall (fun r' => ~ same_pair r r') df2 ->
  exists comp i j,
    compatibility_matrix (df1 ++ r :: df2) = Returned comp
    /\ nth_error (student_names (df1 ++ r :: df2)) i = Some (student_1 r)
    /\ nth_error (student_names (df1 ++ r :: df2)) j = Some (student_2 r)
    /\ comp i j = compatibility_score r /\ comp j i = compatibility_score r.
Proof.
  intros Hlast.
  destruct (compatibility_matrix_returns (df1 ++ r :: df2)) as [comp Hc].
  destruct (compatibility_matrix_last_row df1 r df2 comp Hc) as (i & j & H).
  - apply Forall_forall. exact Hlast.
  - exists comp, i, j. split; [exact Hc|exact H].
Qed.

Lemma compatibility_matrix_last_row_wins_witness :
  exists comp i j,
    compatibility_matrix
      ([mkRow "Ann" "Bob" 5] ++ mkRow "Bob" "Ann" 2 :: [mkRow "Ann" "Cat" 1]) = Returned comp
    /\ nth_error (student_names
                    ([mkRow "Ann" "Bob" 5] ++ mkRow "Bob" "Ann" 2 :: [mkRow "Ann" "Cat" 1])) i
       = Some "Bob"%string
    /\ nth_error (student_names
                    ([mkRow "Ann" "Bob" 5] ++ mkRow "Bob" "Ann" 2 :: [mkRow "Ann" "Cat" 1])) j
       = Some "Ann"%string
    /\ comp i j = 2%Q /\ comp j i = 2%Q.
Proof.
  apply (compatibility_matrix_last_row_wins
           [mkRow "Ann" "Bob" 5] [mkRow "Ann" "Cat" 1] (mkRow "Bob" "Ann" 2)).
  constructor; [|constructor].
  intros [[H _]|[_ H]]; discriminate H.
Defined.

(** X20: a pair of students that no row lists, in either order, keeps the
    [0.0] of [np.zeros]. *)
Theorem compatibility_matrix_unlisted_pair (df : list row) (a b : string) (i j : nat) :
  nth_error (student_names df) i = Some a ->
  nth_error (student_names df) j = Some b ->
  Forall (fun r => ~ same_pair (mkRow a b 0) r) df ->
  exists comp,
    compatibility_matrix df = Returned comp /\ comp i j = 0%Q /\ comp j i = 0%Q.
Proof.
  intros Hi Hj Hno. destruct (compatibility_matrix_returns df) as [comp Hc].
  exists comp. split; [exact Hc|].
  assert (H0 : comp i j = 0%Q).
  { apply (compatibility_matrix_default df comp i j Hc). intros r Hr.
    pose proof (proj1 (Forall_forall _ df) Hno r Hr) as Hn.
    unfold same_pair in Hn. simpl in Hn. rewrite Hi, Hj.
    split; intros [H1 H2]; apply Hn; [left|right]; split; congruence. }
  split; [exact H0|]. rewrite <- (compatibility_matrix_symmetric df comp Hc i j). exact H0.
Qed.

Lemma compatibility_matrix_unlisted_pair_witness :
  exists comp,
    compatibility_matrix [mkRow "Ann" "Bob" 5; mkRow "Cat" "Dan" 5] = Returned comp
    /\ comp 0 2 = 0%Q /\ comp 2 0 = 0%Q.
Proof.
  apply (compatibility_matrix_unlisted_pair
           [mkRow "Ann" "Bob" 5; mkRow "Cat" "Dan" 5] "Ann" "Cat" 0 2);
    [reflexivity|reflexivity|].
  constructor; [|constructor; [|constructor]];
    intros [[H1 H2]|[H1 H2]]; discriminate.
Defined.

(** X21: when no row has a negative score, no entry of the matrix is
    negative. *)
Theorem compatibility_matrix_keeps_sign (df : list row) :
  Forall (fun r => (0 <= compatibility_score r)%Q) df ->
  exists comp,
    compatibility_matrix df = Returned comp /\ forall a b, (0 <= comp a b)%Q.
Proof.
  intros Hpos. destruct (compatibility_matrix_returns df) as [comp Hc].
  exists comp. split; [exact Hc|].
  apply (compatibility_matrix_non_negative df comp); [|exact Hc].
  apply Forall_forall. exact Hpos.
Qed.

Lemma example_rows_non_negative :
  Forall (fun r => (0 <= compatibility_score r)%Q) example_rows.
Proof. repeat constructor; simpl; lra. Qed.

Lemma compatibility_matrix_keeps_sign_witness :
  exists comp,
    compatibility_matrix example_rows = Returned comp /\ forall a b, (0 <= comp a b)%Q.
Proof.
  apply (compatibility_matrix_keeps_sign example_rows). exact example_rows_non_negative.
Defined.

(** X22: for up to 63 students [solve_roommate_matching_improved] returns: no
    lookup of a name or of an index fails.  The run time is the difference
    of the two clock readings and the peak memory the traced peak divided by
    [10**6]; the named pairing is empty, with the score [-1e9], or holds
    every student exactly once. *)
Theorem solve_roommate_matching_improved_returns (argsort : list Q -> list nat)
    (df : list row) (t0 t1 peak : Q) :
  (forall a, Permutation (argsort a) (seq 0 (length a))) ->
  length (student_names df) <= 63 ->
  exists named best allocs,
    solve_roommate_matching_improved argsort df t0 t1 peak
    = Returned (named, best, allocs, (t1 - t0)%Q, (peak / 1000000)%Q)
    /\ ((best = sentinel /\ named = [])
        \/ Permutation (flatten_names named) (student_names df)).
Proof.
  intros Hperm Hn.
  destruct (improved_run argsort Hperm df t0 t1 peak Hn) as (comp & st & Hc & Hpost & Hrun).
  destruct (report_post (student_names df) comp false st t0 t1 peak Hpost
              (compatibility_matrix_symmetric_n df comp _ Hc))
    as (named & Hrep & _ & Hcase).
  exists named, (best_score st), (allocations st).
  split; [rewrite Hrun; exact Hrep|].
  destruct Hcase as [(Hs & _ & Hnil)|(_ & _ & Hp)]; [left; auto|right; exact Hp].
Qed.

Lemma solve_roommate_matching_improved_returns_witness :
  exists named best allocs,
    solve_roommate_matching_improved insertion_argsort example_rows 10 12 3000000
    = Returned (named, best, allocs, (12 - 10)%Q, (3000000 / 1000000)%Q)
    /\ ((best = sentinel /\ named = [])
        \/ Permutation (flatten_names named) (student_names example_rows)).
Proof.
  apply (solve_roommate_matching_improved_returns insertion_argsort example_rows
           10 12 3000000 insertion_argsort_perm).
  vm_compute. lia.
Defined.

(** X23: for an even number of students, up to 63, and rows without negative
    scores, the pairing [solve_roommate_matching_improved] returns holds
    every student exactly once, and its score is not negative. *)
Theorem solve_roommate_matching_improved_pairs_everyone (argsort : list Q -> list nat)
    (df : list row) (t0 t1 peak : Q) :
  (forall a, Permutation (argsort a) (seq 0 (length a))) ->
  length (student_names df) <= 63 ->
  Nat.even (length (student_names df)) = true ->
  Forall (fun r => (0 <= compatibility_score r)%Q) df ->
  exists named best allocs,
    solve_roommate_matching_improved argsort df t0 t1 peak
    = Returned (named, best, allocs, (t1 - t0)%Q, (peak / 1000000)%Q)
    /\ (0 <= best)%Q
    /\ Permutation (flatten_names named) (student_names df).
Proof.
  intros Hperm Hn Hev Hpos.
  destruct (improved_run argsort Hperm df t0 t1 peak Hn) as (comp & st & Hc & Hpost & Hrun).
  destruct (report_post (student_names df) comp false st t0 t1 peak Hpost
              (compatibility_matrix_symmetric_n df comp _ Hc))
    as (named & Hrep & _ & Hcase).
  assert (H0 : (0 <= best_score st)%Q).
  { apply (post_nonneg _ _ _ _ _ _ _ Hpost).
    - intros i j _ _ _. apply (compatibility_matrix_non_negative df comp); [|exact Hc].
      apply Forall_forall. exact Hpos.
    - rewrite length_seq. exact Hev.
    - lra. }
  exists named, (best_score st), (allocations st).
  split; [rewrite Hrun; exact Hrep|]. split; [exact H0|].
  destruct Hcase as [(Hs & _)|(_ & _ & Hp)]; [|exact Hp].
  exfalso. rewrite Hs in H0. unfold sentinel in H0. lra.
Qed.

Lemma solve_roommate_matching_improved_pairs_everyone_witness :
  exists named best allocs,
    solve_roommate_matching_improved insertion_argsort example_rows 10 12 3000000
    = Returned (named, best, allocs, (12 - 10)%Q, (3000000 / 1000000)%Q)
    /\ (0 <= best)%Q
    /\ Permutation (flatten_names named) (student_names example_rows).
Proof.
  apply (solve_roommate_matching_improved_pairs_everyone insertion_argsort example_rows
           10 12 3000000 insertion_argsort_perm).
  - vm_compute. lia.
  - reflexivity.
  - repeat constructor; simpl; lra.
Defined.

(** X24: for an odd number of students, up to 63, both drivers return
    without an error: the empty pairing and the score [-1e9]. *)
Theorem drivers_on_odd_student_count (argsort : list Q -> list nat)
    (df : list row) (t0 t1 peak : Q) :
  (forall a, Permutation (argsort a) (seq 0 (length a))) ->
  length (student_names df) <= 63 ->
  Nat.odd (length (student_names df)) = true ->
  exists allocs,
    solve_roommate_matching_improved argsort df t0 t1 peak
    = Returned ([], sentinel, allocs, (t1 - t0)%Q, (peak / 1000000)%Q)
    /\ solve_roommate_exhaustive df t0 t1 peak
       = Returned ([], sentinel, Int64.wrap (enum_count (length (student_names df))),
                   (t1 - t0)%Q, (peak / 1000000)%Q).
Proof.
  intros Hperm Hn Hodd.
  destruct (compatibility_matrix_returns df) as [comp Hc].
  destruct (branch_and_bound_numba_post argsort Hperm comp _ Hn) as (st & Hrun & Hpost).
  assert (Hst : best_score st = sentinel /\ best_pairs st = []).
  { destruct Hpost as [_ _ [[Hs Hp]|(m & Hm & _)] _ _ _ _]; [auto|].
    exfalso. apply perfect_matching_length in Hm. rewrite length_seq in Hm.
    rewrite Hm, Nat.odd_mul in Hodd. discriminate. }
  destruct Hst as [Hs Hp]. exists (allocations st). split.
  - unfold solve_roommate_matching_improved. cbv zeta. rewrite Hc, Hrun, Hs, Hp.
    reflexivity.
  - unfold solve_roommate_exhaustive. cbv zeta.
    rewrite Hc, (exhaustive_odd comp _ Hn Hodd). reflexivity.
Qed.

Lemma drivers_on_odd_student_count_witness :
  exists allocs,
    solve_roommate_matching_improved insertion_argsort
      [mkRow "Ann" "Bob" 5; mkRow "Bob" "Cat" 1] 10 12 3000000
    = Returned ([], sentinel, allocs, (12 - 10)%Q, (3000000 / 1000000)%Q)
    /\ solve_roommate_exhaustive [mkRow "Ann" "Bob" 5; mkRow "Bob" "Cat" 1] 10 12 3000000
       = Returned ([], sentinel,
                   Int64.wrap (enum_count
                                 (length (student_names
                                            [mkRow "Ann" "Bob" 5; mkRow "Bob" "Cat" 1]))),
                   (12 - 10)%Q, (3000000 / 1000000)%Q).
Proof.
  apply (drivers_on_odd_student_count insertion_argsort
           [mkRow "Ann" "Bob" 5; mkRow "Bob" "Cat" 1] 10 12 3000000 insertion_argsort_perm).
  - vm_compute. lia.
  - reflexivity.
Defined.

(** X26: on a data frame without rows both drivers return the empty pairing
    with the score [0.0] and no allocation: with no student the empty
    pairing is complete, and it replaces the initial [-1e9]. *)
Theorem drivers_on_no_rows (argsort : list Q -> list nat) (t0 t1 peak : Q) :
  solve_roommate_matching_improved argsort [] t0 t1 peak
  = Returned ([], 0%Q, 0%Z, (t1 - t0)%Q, (peak / 1000000)%Q)
  /\ solve_roommate_exhaustive [] t0 t1 peak
     = Returned ([], 0%Q, 0%Z, (t1 - t0)%Q, (peak / 1000000)%Q).
Proof. split; reflexivity. Qed.

(** The example rows are scenario A under the names Ann, Bob, Cat and Dan. *)
Example example_rows_improved :
  solve_roommate_matching_improved insertion_argsort example_rows 10 12 3000000
  = Returned ([("Ann", "Bob"); ("Cat", "Dan")]%string, 10%Q, 4%Z, 2%Q, (3000000 # 1000000)%Q).
Proof. vm_compute. reflexivity. Qed.
